(** * journal-prompts: the prompt catalogue, its loaders and the deep-link resolver

    A shallow embedding of [src/yaml-parser.ts] (the loader chain, the three
    normalizers, [getRandomPrompt], [findPromptById]) and of the part of
    [JournalPromptsApp] in [src/main.ts] that selects prompts and resolves
    deep links, followed by the properties of the specification that concern
    them.  Further sections embed the handlers of the controls, the start of
    the application, the change of language and of theme, the two preference
    managers, [TranslationManager.get] and the checks of [src/utils.ts], with
    properties of theirs.

    Modelling conventions.
    - A string is the sequence of its code units, a [string]; its code units
      are the 256 of Basic Latin and Latin-1 Supplement (U+0000 to U+00FF),
      the [ascii] of that number.  [toLowerCase] and [trim] are those of
      [String.prototype] on such strings.
    - A value the TypeScript sources declare with an interface is a record of
      that shape; where the code tests at run time for a member that may be
      missing or of another kind, the member is an [option] or a small sum.
    - A number read from a document is an integer, a [Z]; it stands for the
      Number nearest to it, which below [2^53] is the integer itself.
    - A JavaScript object used as a dictionary is the association list of its
      own properties in enumeration order ([JsObject]); reads that can reach
      [Object.prototype] say so ([inherited]).
    - A function that may throw returns an [Outcome]; a method of the
      application is an [Action] on its state and on the values [Math.random]
      is going to return.
    - [fetch], [yaml.load] and [decodeURIComponent] are collaborators taken
      as parameters; a value of [Math.random] is a binary64 in [0, 1).
    - [console] output and updates of the page are left out. *)

From Stdlib Require Import ZArith List String Ascii Bool Lia Permutation DecimalString.
From Stdlib Require DecimalPos DecimalZ.
Import ListNotations.

Open Scope string_scope.
Open Scope list_scope.

(** ** JavaScript strings *)

(** [String.prototype.toLowerCase] on one code unit.  The cased code points
    below U+0100 that have a lower-case form are [A] to [Z] (65 to 90) and the
    capital letters of Latin-1, U+00C0 to U+00DE (192 to 222) without the
    multiplication sign U+00D7 (215); the lower-case form of each lies 32
    further on. *)
Definition lower_ascii (c : ascii) : ascii :=
  let n := nat_of_ascii c in
  if ((65 <=? n)%nat && (n <=? 90)%nat)
     || ((192 <=? n)%nat && (n <=? 222)%nat && negb (n =? 215)%nat)
  then ascii_of_nat (n + 32) else c.

Fixpoint toLowerCase (s : string) : string :=
  match s with
  | EmptyString => EmptyString
  | String c rest => String (lower_ascii c) (toLowerCase rest)
  end.

(** White space and line terminators removed by [trim].  Below U+0100 these
    are TAB, LF, VT, FF, CR (9 to 13), SP (32) and the no-break space U+00A0
    (160). *)
Definition is_white_space (c : ascii) : bool :=
  let n := nat_of_ascii c in
  ((9 <=? n)%nat && (n <=? 13)%nat) || (n =? 32)%nat || (n =? 160)%nat.

Fixpoint trimStart (s : string) : string :=
  match s with
  | EmptyString => EmptyString
  | String c rest => if is_white_space c then trimStart rest else s
  end.

Fixpoint trimEnd (s : string) : string :=
  match s with
  | EmptyString => EmptyString
  | String c rest =>
      match trimEnd rest with
      | EmptyString => if is_white_space c then EmptyString else String c EmptyString
      | kept => String c kept
      end
  end.

Definition trim (s : string) : string := trimEnd (trimStart s).

(** Truthiness of a string: only the empty string is falsy. *)
Definition truthy (s : string) : bool := negb (s =? "").

(** [s.startsWith(prefix)]. *)
Definition startsWith (s prefix : string) : bool := String.prefix prefix s.

(** [s.split(separator)] for a non-empty separator.  [skip] counts the code
    units of a separator occurrence still to be passed over and [piece] holds
    the current piece reversed. *)
Fixpoint split_from (separator s : string) (skip : nat) (piece : list ascii) : list string :=
  match s with
  | EmptyString => [string_of_list_ascii (rev piece)]
  | String c rest =>
      match skip with
      | S k => split_from separator rest k piece
      | O =>
          if String.prefix separator s
          then string_of_list_ascii (rev piece)
               :: split_from separator rest (String.length separator - 1) []
          else split_from separator rest 0 (c :: piece)
      end
  end.

Definition split (s separator : string) : list string := split_from separator s 0 [].

(** ** JavaScript numbers *)

(** Rounding of a non-negative count [m] of units to binary64 (53-bit
    significand, nearest, ties to even), for a unit that is a power of two
    from [2^-1074] to [1].  Below [2^53] units every count is representable;
    from there on the spacing is [2^e] units with [e = floor(log2 m) - 52]. *)
Definition roundToBinary64 (m : Z) : Z :=
  if (m <? 2 ^ 53)%Z then m
  else
    let e := (Z.log2 m - 52)%Z in
    let q := (m / 2 ^ e)%Z in
    let r := (m mod 2 ^ e)%Z in
    let half := (2 ^ (e - 1))%Z in
    if (r <? half)%Z then (q * 2 ^ e)%Z
    else if (half <? r)%Z then ((q + 1) * 2 ^ e)%Z
    else if Z.even q then (q * 2 ^ e)%Z
    else ((q + 1) * 2 ^ e)%Z.

(** The decimal digits of an integer, with a leading minus sign when
    negative. *)
Definition decimal (n : Z) : string := NilZero.string_of_int (Z.to_int n).

Fixpoint zeros (count : nat) : string :=
  match count with
  | O => EmptyString
  | S fewer => String "0" (zeros fewer)
  end.

(** [Number::toString] writes a finite positive Number [v] from integers
    [n], [k] and [s] with [10^(k-1) <= s < 10^k] such that [s * 10^(n-k)]
    rounds to [v], with [k] as small as possible and, among these, with
    [s * 10^(n-k)] as close to [v] as possible ([s] even when two are as
    close).  For an integer [v] of [digits] decimal digits, [n] is [digits] or
    [digits + 1] and [s] is the quotient of [v] by [10^(n-k)] or the next
    integer.  [digitsOfLength] lists these [(s, n)] for one [k]. *)
Definition digitsOfLength (v digits k : Z) : list (Z * Z) :=
  flat_map
    (fun n =>
       if (n <? k)%Z then []
       else
         let unit := (10 ^ (n - k))%Z in
         filter
           (fun candidate =>
              let s := fst candidate in
              (10 ^ (k - 1) <=? s)%Z && (s <? 10 ^ k)%Z
              && (roundToBinary64 (s * unit) =? v)%Z)
           [ ((v / unit)%Z, n); ((v / unit + 1)%Z, n) ])
    [ digits; (digits + 1)%Z ].

(** The better of two [(s, n)] for one [k]: the closer to [v], the even [s]
    of two as close. *)
Definition closerDigits (v k : Z) (a b : Z * Z) : Z * Z :=
  let distance (candidate : Z * Z) :=
    Z.abs (fst candidate * 10 ^ (snd candidate - k) - v) in
  if (distance b <? distance a)%Z then b
  else if (distance a <? distance b)%Z then a
  else if Z.even (fst a) then a else b.

(** The [(s, k, n)] of [v]: the first [k], counting up from [k], for which
    there are digits, and the closest of these.  With [k = digits] the digits
    of [v] itself will do, so [remaining], the number of lengths still to be
    tried, never runs out when it starts at [digits]. *)
Fixpoint shortestDigits (v digits k : Z) (remaining : nat) : Z * Z * Z :=
  match remaining with
  | O => (v, digits, digits)
  | S fewer =>
      match digitsOfLength v digits k with
      | [] => shortestDigits v digits (k + 1) fewer
      | first :: others =>
          let best := fold_left (closerDigits v k) others first in
          (fst best, k, snd best)
      end
  end.

(** [Number::toString] of a positive integer.  Below [2^53] the integer is a
    Number and is written with all its digits.  From there on it is rounded,
    written as [Infinity] from [2^1024] on, and otherwise as the shortest
    digits that give it back: followed by zeros while [n <= 21], in exponent
    form beyond. *)
Definition positiveToString (a : Z) : string :=
  if (a <? 2 ^ 53)%Z then decimal a
  else
    let v := roundToBinary64 a in
    if (2 ^ 1024 <=? v)%Z then "Infinity"
    else
      let digits := Z.of_nat (String.length (decimal v)) in
      let '(s, k, n) := shortestDigits v digits 1 (Z.to_nat digits) in
      if (n <=? 21)%Z then decimal s ++ zeros (Z.to_nat (n - k))
      else if (k =? 1)%Z then decimal s ++ "e+" ++ decimal (n - 1)
      else
        substring 0 1 (decimal s) ++ "."
        ++ substring 1 (String.length (decimal s) - 1) (decimal s)
        ++ "e+" ++ decimal (n - 1).

(** The string a template literal produces for a Number that is an integer:
    [Number::toString], which puts a minus sign before the string of the
    magnitude. *)
Definition numberToString (n : Z) : string :=
  if (n <? 0)%Z then "-" ++ positiveToString (- n) else positiveToString n.

(** ** Exceptions *)

Inductive Exception : Type :=
| JsError (message : string)       (* [new Error(message)] thrown by the loaders *)
| TypeError                        (* raised by the runtime: member of [undefined], call of a non-function *)
| ForeignError (message : string). (* raised by a collaborator: [fetch], [response.text], [yaml.load], [decodeURIComponent] *)

Inductive Outcome (A : Type) : Type :=
| Return (a : A)
| Throw (e : Exception).

Arguments Return {A} a.
Arguments Throw {A} e.

Definition bind {A B : Type} (c : Outcome A) (k : A -> Outcome B) : Outcome B :=
  match c with
  | Return a => k a
  | Throw e => Throw e
  end.

(** [try { c } catch (_) { handler }] *)
Definition try_catch {A : Type} (c : Outcome A) (handler : Exception -> Outcome A) : Outcome A :=
  match c with
  | Return a => Return a
  | Throw e => handler e
  end.

Declare Scope outcome_scope.
Delimit Scope outcome_scope with outcome.
Notation "x <- c ;; k" := (bind c (fun x => k))
  (at level 61, c at next level, right associativity) : outcome_scope.

(** ** JavaScript objects as dictionaries *)

(** The own enumerable string-keyed properties of an object, in enumeration
    order, each key at most once. *)
Definition JsObject (V : Type) : Type := list (string * V).

(** [o[k]] restricted to own properties. *)
Fixpoint obj_get {V : Type} (o : JsObject V) (k : string) : option V :=
  match o with
  | [] => None
  | (k', v) :: rest => if k' =? k then Some v else obj_get rest k
  end.

Definition is_digit (c : ascii) : bool :=
  let n := nat_of_ascii c in (48 <=? n)%nat && (n <=? 57)%nat.

Fixpoint digits_value (s : string) (acc : Z) : option Z :=
  match s with
  | EmptyString => Some acc
  | String c rest =>
      if is_digit c
      then digits_value rest (10 * acc + Z.of_nat (nat_of_ascii c - 48))%Z
      else None
  end.

(** An array index: the canonical decimal spelling of an integer in
    [0, 2^32 - 2].  Such keys are enumerated first, in ascending numeric order;
    all other keys follow in the order they were created. *)
Definition array_index (k : string) : option Z :=
  match k with
  | EmptyString => None
  | String c rest =>
      if (c =? "0")%char && negb (rest =? "") then None
      else
        match digits_value k 0 with
        | Some n => if (n <? 2 ^ 32 - 1)%Z then Some n else None
        | None => None
        end
  end.

(** Where a newly created key [k] goes among the existing ones. *)
Fixpoint obj_create {V : Type} (o : JsObject V) (k : string) (v : V) : JsObject V :=
  match o with
  | [] => [(k, v)]
  | (k', v') :: rest =>
      match array_index k, array_index k' with
      | Some n, Some n' =>
          if (n <? n')%Z then (k, v) :: o else (k', v') :: obj_create rest k v
      | Some _, None => (k, v) :: o
      | None, _ => (k', v') :: obj_create rest k v
      end
  end.

Fixpoint obj_replace {V : Type} (o : JsObject V) (k : string) (v : V) : JsObject V :=
  match o with
  | [] => []
  | (k', v') :: rest =>
      if k' =? k then (k', v) :: rest else (k', v') :: obj_replace rest k v
  end.

(** [o[k] = v]: an existing own property keeps its place. *)
Definition obj_set {V : Type} (o : JsObject V) (k : string) (v : V) : JsObject V :=
  match obj_get o k with
  | Some _ => obj_replace o k v
  | None => obj_create o k v
  end.

(** [Object.values(o)]. *)
Definition obj_values {V : Type} (o : JsObject V) : list V := map snd o.

(** [Object.keys(o)]. *)
Definition obj_keys {V : Type} (o : JsObject V) : list string := map fst o.

(** The members every plain object inherits from [Object.prototype].  Reading
    one of these names on an object that has no own property of that name
    yields the inherited member, which is truthy. *)
Definition object_prototype_names : list string :=
  [ "constructor"; "__defineGetter__"; "__defineSetter__"; "hasOwnProperty";
    "__lookupGetter__"; "__lookupSetter__"; "isPrototypeOf";
    "propertyIsEnumerable"; "toString"; "valueOf"; "__proto__";
    "toLocaleString" ].

Definition inherited (k : string) : bool :=
  existsb (String.eqb k) object_prototype_names.

(** ** The data model ([src/types.ts]) *)

(** [interface Prompt]: the canonical, post-normalization prompt. *)
Record Prompt : Type := {
  id : string;
  category : string;
  prompt : string;
  purpose : string
}.

(** [interface CategoryGroup { [category: string]: Prompt[] }] *)
Definition CategoryGroup : Type := JsObject (list Prompt).

Module PromptTranslation.
Record t : Type := { prompt : string; purpose : string }.
End PromptTranslation.

(** [interface CleanPrompt { id: number; [languageCode: string]: PromptTranslation | number }]:
    the member [id] and, under every other key, a translation. *)
Module CleanPrompt.
Record t : Type := {
  id : Z;
  translations : JsObject PromptTranslation.t
}.

Inductive Member : Type :=
| Number (n : Z)
| Translation (translation : PromptTranslation.t)
| Undefined.

(** [cleanPrompt[key]] *)
Definition get (cleanPrompt : t) (key : string) : Member :=
  if key =? "id" then Number (id cleanPrompt)
  else match obj_get (translations cleanPrompt) key with
       | Some translation => Translation translation
       | None => Undefined
       end.
End CleanPrompt.

(** [interface CleanCategory { [languageCode: string]: string | CleanPrompt[]; prompts: CleanPrompt[] }]:
    the display names by language code, and the member [prompts], which the
    loader tests for and which a category seen through this interface may lack. *)
Module CleanCategory.
Record t : Type := {
  names : JsObject string;
  prompts : option (list CleanPrompt.t)
}.
End CleanCategory.

(** [interface Category { id: string; translations: CategoryTranslation }] *)
Module Category.
Record t : Type := {
  id : string;
  translations : JsObject string
}.
End Category.

(** [interface MultilingualPrompt] *)
Module MultilingualPrompt.
Record t : Type := {
  id : Z;
  category_id : string;
  translations : JsObject PromptTranslation.t
}.
End MultilingualPrompt.

(** The member [categories] of a parsed unified document, which
    [loadPromptsFromCleanStructure] reads as [CleanPromptsData] (an object
    keyed by category id) and [loadPromptsFromNestedStructure] as [PromptsData]
    (an array of [Category]). *)
Inductive Categories : Type :=
| CategoriesMissing
| CategoriesObject (entries : JsObject CleanCategory.t)
| CategoriesArray (items : list Category.t).

(** What [yaml.load] returns, seen through the casts the three loaders apply
    to it: a falsy value; an object with the members [categories] and
    [prompts] of the unified file, each possibly missing; or a single legacy
    [Prompt] document. *)
Inductive YamlDocument : Type :=
| YamlFalsy
| YamlUnified (categories : Categories) (prompts : option (list MultilingualPrompt.t))
| YamlPrompt (parsed : Prompt).

(** A [Response] as far as the loaders look at it. *)
Record Response : Type := {
  ok : bool;
  statusText : string;
  text : Outcome string      (* the settlement of [response.text()] *)
}.

(** ** Grouping prompts by category *)

(** One round of the [forEach] that groups prompts:
    [if (!grouped[prompt.category]) grouped[prompt.category] = [];
     grouped[prompt.category].push(prompt);]
    [grouped] starts as the literal [{}], so a category named like a member of
    [Object.prototype] reads as that (truthy) member, which has no [push]. *)
Definition groupStep (grouped : CategoryGroup) (p : Prompt) : Outcome CategoryGroup :=
  match obj_get grouped (category p) with
  | Some existing => Return (obj_set grouped (category p) (existing ++ [p]))
  | None =>
      if inherited (category p) then Throw TypeError
      else Return (obj_set grouped (category p) [p])
  end.

Fixpoint groupInto (grouped : CategoryGroup) (prompts : list Prompt) : Outcome CategoryGroup :=
  match prompts with
  | [] => Return grouped
  | p :: rest => bind (groupStep grouped p) (fun grouped' => groupInto grouped' rest)
  end.

Definition groupPrompts (prompts : list Prompt) : Outcome CategoryGroup :=
  groupInto [] prompts.

(** ** The normalizers and the loader chain ([src/yaml-parser.ts]) *)

(** The computed key the normalizers read is the lower-cased language code.
    The records above give the own members a document can have under such a
    key: a category name or a translation.  Two kinds of key read something
    else, which these records do not describe: [prompts] (the array of a
    clean category) and the names inherited from [Object.prototype].  The
    statements about category names and translations below are made for the
    other, ordinary, language codes. *)
Definition ordinary_language (languageCode : string) : bool :=
  negb (languageCode =? "prompts") && negb (inherited languageCode).

(** [a || b] where [a] is a string that may be undefined. *)
Definition or_else (a : option string) (b : string) : string :=
  match a with
  | Some s => if truthy s then s else b
  | None => b
  end.

(** The translation a clean prompt holds under [key], if it passes
    [translation && typeof translation === 'object' && translation.prompt && translation.purpose]. *)
Definition completeTranslation (cleanPrompt : CleanPrompt.t) (key : string)
  : option PromptTranslation.t :=
  match CleanPrompt.get cleanPrompt key with
  | CleanPrompt.Translation translation =>
      if truthy (PromptTranslation.prompt translation)
         && truthy (PromptTranslation.purpose translation)
      then Some translation else None
  | CleanPrompt.Number _ => None
  | CleanPrompt.Undefined => None
  end.

(** The body of the inner loop of [loadPromptsFromCleanStructure]: the prompt
    pushed for [cleanPrompt], or [None] when it is skipped. *)
Definition cleanPromptToPrompt (categoryId categoryName languageCode : string)
    (cleanPrompt : CleanPrompt.t) : option Prompt :=
  match completeTranslation cleanPrompt languageCode with
  | Some translation =>
      Some {| id := (categoryId ++ numberToString (CleanPrompt.id cleanPrompt))%string;
              category := categoryName;
              prompt := trim (PromptTranslation.prompt translation);
              purpose := trim (PromptTranslation.purpose translation) |}
  | None =>
      match completeTranslation cleanPrompt "en" with
      | Some fallbackTranslation =>
          Some {| id := (categoryId ++ numberToString (CleanPrompt.id cleanPrompt))%string;
                  category := categoryName;
                  prompt := trim (PromptTranslation.prompt fallbackTranslation);
                  purpose := trim (PromptTranslation.purpose fallbackTranslation) |}
      | None => None
      end
  end.

(** [category[languageCode] || category.en || categoryId] *)
Definition cleanCategoryName (categoryId : string) (category : CleanCategory.t)
    (languageCode : string) : string :=
  or_else (obj_get (CleanCategory.names category) languageCode)
    (or_else (obj_get (CleanCategory.names category) "en") categoryId).

(** The body of the outer loop: the prompts pushed for one entry of
    [Object.entries(data.categories)]. *)
Definition cleanCategoryToPrompts (languageCode : string)
    (entry : string * CleanCategory.t) : list Prompt :=
  let (categoryId, category) := entry in
  match CleanCategory.prompts category with
  | None => []
  | Some cleanPrompts =>
      let categoryName := cleanCategoryName categoryId category languageCode in
      flat_map
        (fun cleanPrompt =>
           match cleanPromptToPrompt categoryId categoryName languageCode cleanPrompt with
           | Some p => [p]
           | None => []
           end)
        cleanPrompts
  end.

(** A [Map]: [set] on a key already present replaces its value in place. *)
Fixpoint map_set {V : Type} (m : list (string * V)) (k : string) (v : V) : list (string * V) :=
  match m with
  | [] => [(k, v)]
  | (k', v') :: rest => if k' =? k then (k', v) :: rest else (k', v') :: map_set rest k v
  end.

Definition categoryMapOf (categories : list Category.t) : list (string * Category.t) :=
  fold_left (fun categoryMap c => map_set categoryMap (Category.id c) c) categories [].

(** [category.translations[languageCode] || category.translations.en || multiPrompt.category_id] *)
Definition nestedCategoryName (c : Category.t) (languageCode category_id : string) : string :=
  or_else (obj_get (Category.translations c) languageCode)
    (or_else (obj_get (Category.translations c) "en") category_id).

(** The body of the loop of [loadPromptsFromNestedStructure]. *)
Definition nestedPromptToPrompt (categoryMap : list (string * Category.t))
    (languageCode : string) (multiPrompt : MultilingualPrompt.t) : option Prompt :=
  let translation := obj_get (MultilingualPrompt.translations multiPrompt) languageCode in
  match obj_get categoryMap (MultilingualPrompt.category_id multiPrompt) with
  | None => None
  | Some c =>
      let categoryName :=
        nestedCategoryName c languageCode (MultilingualPrompt.category_id multiPrompt) in
      let combined :=
        (MultilingualPrompt.category_id multiPrompt
         ++ numberToString (MultilingualPrompt.id multiPrompt))%string in
      match translation with
      | None =>
          match obj_get (MultilingualPrompt.translations multiPrompt) "en" with
          | Some fallbackTranslation =>
              Some {| id := combined;
                      category := categoryName;
                      prompt := trim (PromptTranslation.prompt fallbackTranslation);
                      purpose := trim (PromptTranslation.purpose fallbackTranslation) |}
          | None => None
          end
      | Some translation =>
          Some {| id := combined;
                  category := categoryName;
                  prompt := trim (PromptTranslation.prompt translation);
                  purpose := trim (PromptTranslation.purpose translation) |}
      end
  end.

(** [documents.map(...)], stopping at the first document that throws. *)
Fixpoint map_outcome {A B : Type} (f : A -> Outcome B) (l : list A) : Outcome (list B) :=
  match l with
  | [] => Return []
  | a :: rest =>
      bind (f a) (fun b => bind (map_outcome f rest) (fun bs => Return (b :: bs)))
  end.

Section Loaders.

(** The collaborators: [fetch(url)] (a rejected promise is a [Throw]) and
    js-yaml's [yaml.load]. *)
Variable fetch : string -> Outcome Response.
Variable yaml_load : string -> Outcome YamlDocument.

Local Open Scope outcome_scope.

Definition loadPromptsFromCleanStructure (yamlText language : string) : Outcome CategoryGroup :=
  data <- yaml_load yamlText ;;
  match data with
  | YamlUnified (CategoriesObject entries) _ =>
      let languageCode := toLowerCase language in
      groupPrompts (flat_map (cleanCategoryToPrompts languageCode) entries)
  | YamlUnified (CategoriesArray items) _ =>
      (* an array passes [typeof data.categories === 'object']; its entries are
         [Category] objects, none of which has a [prompts] member, so each is
         skipped and nothing is pushed *)
      groupPrompts []
  | YamlUnified CategoriesMissing _
  | YamlPrompt _
  | YamlFalsy =>
      Throw (JsError "Invalid clean prompts data structure - missing categories")
  end.

Definition loadPromptsFromNestedStructure (yamlText language : string) : Outcome CategoryGroup :=
  data <- yaml_load yamlText ;;
  match data with
  | YamlUnified (CategoriesArray categories) (Some multiPrompts) =>
      let languageCode := toLowerCase language in
      let categoryMap := categoryMapOf categories in
      groupPrompts
        (flat_map
           (fun multiPrompt =>
              match nestedPromptToPrompt categoryMap languageCode multiPrompt with
              | Some p => [p]
              | None => []
              end)
           multiPrompts)
  | _ =>
      Throw (JsError "Invalid nested prompts data structure - missing prompts or categories")
  end.

Definition loadPromptsFromUnified (language : string) : Outcome CategoryGroup :=
  response <- fetch "./journal-prompts.yaml" ;;
  if negb (ok response)
  then Throw (JsError ("Failed to fetch unified prompts: " ++ statusText response)%string)
  else
    yamlText <- text response ;;
    try_catch (loadPromptsFromCleanStructure yamlText language)
      (fun cleanError => loadPromptsFromNestedStructure yamlText language).

(** The callback of [documents.map] in [loadPromptsLegacy]. *)
Definition legacyDocumentToPrompt (doc : string) : Outcome Prompt :=
  parsed <- yaml_load (trim doc) ;;
  match parsed with
  | YamlPrompt parsed =>
      Return {| id := id parsed;
                category := category parsed;
                prompt := trim (prompt parsed);
                purpose := trim (purpose parsed) |}
  | YamlUnified _ _ | YamlFalsy => Throw TypeError
  end.

Definition loadPromptsLegacy (language : string) : Outcome CategoryGroup :=
  response <- fetch ("./prompts_" ++ language ++ ".yaml")%string ;;
  if negb (ok response)
  then Throw (JsError ("Failed to fetch legacy prompts: " ++ statusText response)%string)
  else
    yamlText <- text response ;;
    let documents := filter (fun doc => truthy (trim doc)) (split yamlText "---") in
    prompts <- map_outcome legacyDocumentToPrompt documents ;;
    groupPrompts prompts.

(** [loadPrompts(language = 'EN')]; the outer [catch] logs and rethrows. *)
Definition loadPrompts (language : option string) : Outcome CategoryGroup :=
  let language := match language with Some l => l | None => "EN" end in
  try_catch
    (try_catch (loadPromptsFromUnified language)
       (fun unifiedError => loadPromptsLegacy language))
    (fun error => Throw error).

End Loaders.

(** [findPromptById]: the first prompt with that id, categories in enumeration order. *)
Fixpoint findPromptById (categoryGroups : CategoryGroup) (promptId : string) : option Prompt :=
  match categoryGroups with
  | [] => None
  | (_, prompts) :: rest =>
      match find (fun p => id p =? promptId) prompts with
      | Some p => Some p
      | None => findPromptById rest promptId
      end
  end.

(** ** [Math.random] and [getRandomPrompt] *)

(** A binary64 value [x] with [0 <= x < 2^32] is written as the integer
    [x * 2^1074]: every such value is a whole multiple of the least positive
    binary64, [2^-1074].  A non-negative real [m * 2^-1074] is rounded to
    binary64 by [roundToBinary64 m]. *)
Definition binary64_scale : Z := 2 ^ 1074.

(** What [Math.random()] may return: a binary64 in [0, 1). *)
Definition is_random_value (random : Z) : bool :=
  (0 <=? random)%Z && (random <? binary64_scale)%Z && (roundToBinary64 random =? random)%Z.

(** [Math.floor(random * length)]: the product is rounded to binary64, then
    floored. *)
Definition randomIndexOf (random : Z) (length : nat) : Z :=
  (roundToBinary64 (random * Z.of_nat length) / binary64_scale)%Z.

(** [getRandomPrompt(prompts)], given the value [Math.random()] returned.
    [None] is [undefined], the value of an index outside the array. *)
Definition getRandomPrompt (prompts : list Prompt) (random : Z) : option Prompt :=
  let randomIndex := randomIndexOf random (List.length prompts) in
  if (randomIndex <? 0)%Z then None else nth_error prompts (Z.to_nat randomIndex).

(** ** The application state ([JournalPromptsApp] in [src/main.ts]) *)

(** The fields the selection and deep-link code reads and writes, and the
    query string of the address ([window.location.search]) as the entries a
    [URLSearchParams] makes of it. *)
Record App : Type := {
  categoryGroups : CategoryGroup;
  currentCategory : string;
  currentPrompt : option Prompt;
  isPinned : bool;
  purposeVisible : bool;
  wasOpenedWithDeepLink : bool;
  search : list (string * string)
}.

(** The state of a freshly constructed application once a catalogue is loaded. *)
Definition initialApp (groups : CategoryGroup) (query : list (string * string)) : App :=
  {| categoryGroups := groups;
     currentCategory := "";
     currentPrompt := None;
     isPinned := false;
     purposeVisible := false;
     wasOpenedWithDeepLink := false;
     search := query |}.

Definition set_currentCategory (v : string) (app : App) : App :=
  {| categoryGroups := categoryGroups app; currentCategory := v;
     currentPrompt := currentPrompt app; isPinned := isPinned app;
     purposeVisible := purposeVisible app;
     wasOpenedWithDeepLink := wasOpenedWithDeepLink app; search := search app |}.

Definition set_currentPrompt (v : option Prompt) (app : App) : App :=
  {| categoryGroups := categoryGroups app; currentCategory := currentCategory app;
     currentPrompt := v; isPinned := isPinned app;
     purposeVisible := purposeVisible app;
     wasOpenedWithDeepLink := wasOpenedWithDeepLink app; search := search app |}.

Definition set_isPinned (v : bool) (app : App) : App :=
  {| categoryGroups := categoryGroups app; currentCategory := currentCategory app;
     currentPrompt := currentPrompt app; isPinned := v;
     purposeVisible := purposeVisible app;
     wasOpenedWithDeepLink := wasOpenedWithDeepLink app; search := search app |}.

Definition set_purposeVisible (v : bool) (app : App) : App :=
  {| categoryGroups := categoryGroups app; currentCategory := currentCategory app;
     currentPrompt := currentPrompt app; isPinned := isPinned app;
     purposeVisible := v;
     wasOpenedWithDeepLink := wasOpenedWithDeepLink app; search := search app |}.

Definition set_wasOpenedWithDeepLink (v : bool) (app : App) : App :=
  {| categoryGroups := categoryGroups app; currentCategory := currentCategory app;
     currentPrompt := currentPrompt app; isPinned := isPinned app;
     purposeVisible := purposeVisible app;
     wasOpenedWithDeepLink := v; search := search app |}.

Definition set_search (v : list (string * string)) (app : App) : App :=
  {| categoryGroups := categoryGroups app; currentCategory := currentCategory app;
     currentPrompt := currentPrompt app; isPinned := isPinned app;
     purposeVisible := purposeVisible app;
     wasOpenedWithDeepLink := wasOpenedWithDeepLink app; search := v |}.

(** How a method of the application ends, given the values [Math.random]
    will return next: it returns, with the state it leaves and the values not
    yet consumed; it throws; or it is still running when the given values are
    used up. *)
Inductive Result (A : Type) : Type :=
| Done (a : A) (app : App) (supply : list Z)
| Raised (e : Exception)
| Starved.

Arguments Done {A} a app supply.
Arguments Raised {A} e.
Arguments Starved {A}.

Definition Action (A : Type) : Type := App -> list Z -> Result A.

Definition ret {A : Type} (a : A) : Action A := fun app supply => Done a app supply.

Definition and_then {A B : Type} (c : Action A) (k : A -> Action B) : Action B :=
  fun app supply =>
    match c app supply with
    | Done a app' supply' => k a app' supply'
    | Raised e => Raised e
    | Starved => Starved
    end.

Definition raise {A : Type} (e : Exception) : Action A := fun _ _ => Raised e.

(** Read [this]. *)
Definition this : Action App := fun app supply => Done app app supply.

(** Assign to fields of [this]. *)
Definition assign (f : App -> App) : Action unit := fun app supply => Done tt (f app) supply.

(** [Math.random()] *)
Definition Math_random : Action Z :=
  fun app supply =>
    match supply with
    | [] => Starved
    | random :: rest => Done random app rest
    end.

Definition lift {A : Type} (c : Outcome A) : Action A :=
  match c with
  | Return a => ret a
  | Throw e => raise e
  end.

Declare Scope action_scope.
Delimit Scope action_scope with action.
Notation "x <- c ;; k" := (and_then c (fun x => k))
  (at level 61, c at next level, right associativity) : action_scope.
Notation "c ;;; k" := (and_then c (fun _ => k))
  (at level 61, right associativity) : action_scope.

(** [params.get(name)]: the first value under that name, or [null]. *)
Definition params_get (params : list (string * string)) (name : string) : option string :=
  obj_get params name.

(** Truthiness of a string that may be [null]. *)
Definition present (s : option string) : bool :=
  match s with
  | Some v => truthy v
  | None => false
  end.

(** [this.categoryGroups[category]]: an own property (an array, truthy even
    when empty), a member inherited from [Object.prototype] (truthy, but no
    array), or [undefined]. *)
Inductive Lookup : Type :=
| Own (prompts : list Prompt)
| Inherited
| Missing.

Definition lookupCategory (groups : CategoryGroup) (name : string) : Lookup :=
  match obj_get groups name with
  | Some prompts => Own prompts
  | None => if inherited name then Inherited else Missing
  end.

Section Application.

Variable decodeURIComponent : string -> Outcome string.

Local Open Scope action_scope.

Definition updateUrl (p : Prompt) : Action unit :=
  assign (set_search [("id", id p)]).

Definition clearUrl : Action unit :=
  assign (set_search []).

Definition setPinned (pinned : bool) : Action unit :=
  assign (set_isPinned pinned).

(** [displayPrompt(prompt)] called with [undefined] throws on [prompt.category]. *)
Definition displayPrompt (displayed : option Prompt) : Action unit :=
  assign (set_currentPrompt displayed) ;;;
  match displayed with
  | None => raise TypeError
  | Some p =>
      assign (set_purposeVisible false) ;;;
      assign (set_currentCategory (category p)) ;;;
      app <- this ;;
      if wasOpenedWithDeepLink app then updateUrl p else ret tt
  end.

(** [getRandomPrompt(this.categoryGroups[name])]: [Math.random()] is
    evaluated before [prompts.length] is read.  A member inherited from
    [Object.prototype] has no indexed elements. *)
Definition getRandomPromptOf (prompts : Lookup) : Action (option Prompt) :=
  random <- Math_random ;;
  match prompts with
  | Own prompts => ret (getRandomPrompt prompts random)
  | Inherited => ret None
  | Missing => raise TypeError
  end.

Definition selectCategory (name : string) : Action unit :=
  assign (set_currentCategory name) ;;;
  app <- this ;;
  selectedPrompt <- getRandomPromptOf (lookupCategory (categoryGroups app) name) ;;
  displayPrompt selectedPrompt.

Definition allPromptsOf (groups : CategoryGroup) : list Prompt :=
  List.concat (obj_values groups).

Definition loadRandomPromptFromAnyCategory : Action unit :=
  app <- this ;;
  let allPrompts := allPromptsOf (categoryGroups app) in
  if (0 <? List.length allPrompts)%nat
  then
    random <- Math_random ;;
    match getRandomPrompt allPrompts random with
    | None => raise TypeError
    | Some randomPrompt =>
        assign (set_currentCategory (category randomPrompt)) ;;;
        displayPrompt (Some randomPrompt)
    end
  else ret tt.

(** [while (newPrompt.prompt === this.currentPrompt.prompt) newPrompt = getRandomPrompt(prompts);]
    Each round consumes one value of [Math.random]. *)
Fixpoint resample (prompts : list Prompt) (current : Prompt) (newPrompt : option Prompt)
    (app : App) (supply : list Z) : Result (option Prompt) :=
  match newPrompt with
  | None => Raised TypeError
  | Some candidate =>
      if prompt candidate =? prompt current
      then
        match supply with
        | [] => Starved
        | random :: rest => resample prompts current (getRandomPrompt prompts random) app rest
        end
      else Done newPrompt app supply
  end.

Definition selectNewPrompt : Action unit :=
  assign (set_wasOpenedWithDeepLink false) ;;;
  clearUrl ;;;
  app <- this ;;
  if isPinned app && truthy (currentCategory app)
  then
    let prompts := lookupCategory (categoryGroups app) (currentCategory app) in
    newPrompt <- getRandomPromptOf prompts ;;
    match prompts with
    | Own prompts =>
        match currentPrompt app with
        | Some current =>
            if (1 <? List.length prompts)%nat
            then
              newPrompt <- resample prompts current newPrompt ;;
              displayPrompt newPrompt
            else displayPrompt newPrompt
        | None => displayPrompt newPrompt
        end
    | Inherited | Missing =>
        (* no array here: [newPrompt] is [undefined], and either
           [newPrompt.prompt] or [displayPrompt(undefined)] throws *)
        raise TypeError
    end
  else loadRandomPromptFromAnyCategory.

Definition handleDeepLink : Action bool :=
  app <- this ;;
  let params := search app in
  let promptId := params_get params "id" in
  let categoryParam := params_get params "category" in
  let byId :=
    match promptId with
    | Some wanted => if truthy wanted then findPromptById (categoryGroups app) wanted else None
    | None => None
    end in
  match byId with
  | Some found =>
      assign (set_wasOpenedWithDeepLink true) ;;;
      assign (set_currentCategory (category found)) ;;;
      displayPrompt (Some found) ;;;
      ret true
  | None =>
      let promptPrefix := params_get params "prompt" in
      let categoryOnly : Action bool :=
        match categoryParam with
        | Some name =>
            match (if truthy name then lookupCategory (categoryGroups app) name else Missing) with
            | Own _ | Inherited =>
                assign (set_wasOpenedWithDeepLink true) ;;;
                selectCategory name ;;;
                setPinned true ;;;
                ret true
            | Missing =>
                (if present promptId || present categoryParam
                 then assign (set_search []) else ret tt) ;;;
                ret false
            end
        | None =>
            (if present promptId then assign (set_search []) else ret tt) ;;;
            ret false
        end in
      match categoryParam, promptPrefix with
      | Some name, Some encoded =>
          if truthy name && truthy encoded
          then
            match lookupCategory (categoryGroups app) name with
            | Own prompts =>
                decodedPrefix <- lift (decodeURIComponent encoded) ;;
                match find (fun p => startsWith (prompt p) decodedPrefix) prompts with
                | Some matchingPrompt =>
                    assign (set_wasOpenedWithDeepLink true) ;;;
                    assign (set_currentCategory name) ;;;
                    displayPrompt (Some matchingPrompt) ;;;
                    ret true
                | None => categoryOnly
                end
            | Inherited =>
                decodedPrefix <- lift (decodeURIComponent encoded) ;;
                raise TypeError
            | Missing => categoryOnly
            end
          else categoryOnly
      | _, _ => categoryOnly
      end
  end.

End Application.


(** ** Sample documents

    Concrete files and catalogues on which the statements below are run. *)

(** A server holding the listed files: any other request is answered 404. *)
Definition serve (files : list (string * string)) (url : string) : Outcome Response :=
  match obj_get files url with
  | Some content => Return {| ok := true; statusText := "OK"; text := Return content |}
  | None => Return {| ok := false; statusText := "Not Found"; text := Return "" |}
  end.

(** [yaml.load] on the listed texts; any other text is refused. *)
Definition parse (documents : list (string * YamlDocument)) (yamlText : string)
  : Outcome YamlDocument :=
  match obj_get documents yamlText with
  | Some document => Return document
  | None => Throw (ForeignError "YAMLException")
  end.

Definition translation (promptText purposeText : string) : PromptTranslation.t :=
  {| PromptTranslation.prompt := promptText; PromptTranslation.purpose := purposeText |}.

(** A unified file in the clean structure: category [B] with two prompts, the
    second without a German translation, and category [G] whose only prompt
    has no translation at all. *)
Definition cleanText : string :=
"categories:
  B:
    en: Biography
    de: Biografie
    prompts:
      - id: 1
        en:
          prompt: Describe a turning point.
          purpose: Reflect on change.
        de:
          prompt: Beschreibe einen Wendepunkt.
          purpose: Denke nach.
      - id: 2
        en:
          prompt: Name a mentor.
          purpose: Practise gratitude.
  G:
    en: Goals
    prompts:
      - id: 1
".

Definition turningPoint : CleanPrompt.t :=
  {| CleanPrompt.id := 1;
     CleanPrompt.translations :=
       [ ("en", translation "Describe a turning point." "Reflect on change.");
         ("de", translation "Beschreibe einen Wendepunkt." "Denke nach.") ] |}.

Definition mentor : CleanPrompt.t :=
  {| CleanPrompt.id := 2;
     CleanPrompt.translations :=
       [ ("en", translation "Name a mentor." "Practise gratitude.") ] |}.

Definition untranslated : CleanPrompt.t :=
  {| CleanPrompt.id := 1; CleanPrompt.translations := [] |}.

Definition biography : CleanCategory.t :=
  {| CleanCategory.names := [("en", "Biography"); ("de", "Biografie")];
     CleanCategory.prompts := Some [ turningPoint; mentor ] |}.

Definition goals : CleanCategory.t :=
  {| CleanCategory.names := [("en", "Goals")];
     CleanCategory.prompts := Some [ untranslated ] |}.

Definition cleanEntries : JsObject CleanCategory.t :=
  [ ("B", biography); ("G", goals) ].

Definition cleanDocument : YamlDocument := YamlUnified (CategoriesObject cleanEntries) None.

(** The catalogue the sample clean file gives for German. *)
Definition germanCatalogue : CategoryGroup :=
  [ ("Biografie",
     [ {| id := "B1"; category := "Biografie";
          prompt := "Beschreibe einen Wendepunkt."; purpose := "Denke nach." |};
       {| id := "B2"; category := "Biografie";
          prompt := "Name a mentor."; purpose := "Practise gratitude." |} ]) ].

(** The same content in the nested structure. *)
Definition nestedText : string :=
"categories:
  - id: B
    translations:
      en: Biography
      de: Biografie
prompts:
  - id: 1
    category_id: B
    translations:
      en:
        prompt: Describe a turning point.
        purpose: Reflect on change.
      de:
        prompt: Beschreibe einen Wendepunkt.
        purpose: Denke nach.
  - id: 2
    category_id: B
    translations:
      en:
        prompt: Name a mentor.
        purpose: Practise gratitude.
".

Definition nestedBiography : Category.t :=
  {| Category.id := "B";
     Category.translations := [("en", "Biography"); ("de", "Biografie")] |}.

Definition nestedTurningPoint : MultilingualPrompt.t :=
  {| MultilingualPrompt.id := 1;
     MultilingualPrompt.category_id := "B";
     MultilingualPrompt.translations :=
       [ ("en", translation "Describe a turning point." "Reflect on change.");
         ("de", translation "Beschreibe einen Wendepunkt." "Denke nach.") ] |}.

Definition nestedMentor : MultilingualPrompt.t :=
  {| MultilingualPrompt.id := 2;
     MultilingualPrompt.category_id := "B";
     MultilingualPrompt.translations :=
       [ ("en", translation "Name a mentor." "Practise gratitude.") ] |}.

Definition nestedCategories : list Category.t := [ nestedBiography ].

Definition nestedPrompts : list MultilingualPrompt.t := [ nestedTurningPoint; nestedMentor ].

Definition nestedDocument : YamlDocument :=
  YamlUnified (CategoriesArray nestedCategories) (Some nestedPrompts).

(** A legacy file of two documents; the second carries an id of its author's
    choosing. *)
Definition legacyText : string :=
"id: B1
category: Biography
prompt: Describe a turning point.
purpose: Reflect on change.
---
id: intro
category: Biography
prompt: Why keep a journal?
purpose: Set an intention.
".

Definition legacyFirstText : string :=
"id: B1
category: Biography
prompt: Describe a turning point.
purpose: Reflect on change.".

Definition legacySecondText : string :=
"id: intro
category: Biography
prompt: Why keep a journal?
purpose: Set an intention.".

Definition legacyFirst : Prompt :=
  {| id := "B1"; category := "Biography";
     prompt := "Describe a turning point."; purpose := "Reflect on change." |}.

Definition legacySecond : Prompt :=
  {| id := "intro"; category := "Biography";
     prompt := "Why keep a journal?"; purpose := "Set an intention." |}.

(** A unified file whose [categories] mapping is empty. *)
Definition emptyText : string := "categories: {}".

Definition emptyDocument : YamlDocument := YamlUnified (CategoriesObject []) None.

(** A clean file in which two different (category, number) pairs spell the
    same id: [B] with [11] and [B1] with [1]. *)
Definition collisionText : string :=
"categories:
  B:
    en: Biography
    prompts:
      - id: 11
        en:
          prompt: Describe a turning point.
          purpose: Reflect on change.
  B1:
    en: Beginnings
    prompts:
      - id: 1
        en:
          prompt: Recall a first day.
          purpose: Notice how you start.
".

Definition collisionDocument : YamlDocument :=
  YamlUnified
    (CategoriesObject
       [ ("B",
          {| CleanCategory.names := [("en", "Biography")];
             CleanCategory.prompts :=
               Some [ {| CleanPrompt.id := 11;
                         CleanPrompt.translations :=
                           [ ("en", translation "Describe a turning point." "Reflect on change.") ] |} ] |});
         ("B1",
          {| CleanCategory.names := [("en", "Beginnings")];
             CleanCategory.prompts :=
               Some [ {| CleanPrompt.id := 1;
                         CleanPrompt.translations :=
                           [ ("en", translation "Recall a first day." "Notice how you start.") ] |} ] |}) ])
    None.

(** A clean file whose German translation of [B1] has its prompt text but an
    empty purpose. *)
Definition incompleteText : string :=
"categories:
  B:
    en: Biography
    de: Biografie
    prompts:
      - id: 1
        en:
          prompt: Describe a turning point.
          purpose: Reflect on change.
        de:
          prompt: Beschreibe einen Wendepunkt.
          purpose: ''
".

Definition incompletePrompt : CleanPrompt.t :=
  {| CleanPrompt.id := 1;
     CleanPrompt.translations :=
       [ ("en", translation "Describe a turning point." "Reflect on change.");
         ("de", translation "Beschreibe einen Wendepunkt." "") ] |}.

Definition incompleteDocument : YamlDocument :=
  YamlUnified
    (CategoriesObject
       [ ("B",
          {| CleanCategory.names := [("en", "Biography"); ("de", "Biografie")];
             CleanCategory.prompts := Some [ incompletePrompt ] |}) ])
    None.

(** A nested file whose only prompt names a category that is not listed. *)
Definition danglingText : string :=
"categories:
  - id: B
    translations:
      en: Biography
      de: Biografie
prompts:
  - id: 1
    category_id: X
    translations:
      de:
        prompt: Beschreibe einen Wendepunkt.
        purpose: Denke nach.
".

Definition danglingPrompt : MultilingualPrompt.t :=
  {| MultilingualPrompt.id := 1;
     MultilingualPrompt.category_id := "X";
     MultilingualPrompt.translations :=
       [ ("de", translation "Beschreibe einen Wendepunkt." "Denke nach.") ] |}.

Definition danglingDocument : YamlDocument :=
  YamlUnified (CategoriesArray nestedCategories) (Some [ danglingPrompt ]).

(** A clean file in which prompt [11] of [B] has no translation, and prompt
    [1] of [B1] spells the same id. *)
Definition shadowText : string :=
"categories:
  B:
    en: Biography
    prompts:
      - id: 11
  B1:
    en: Beginnings
    prompts:
      - id: 1
        en:
          prompt: Recall a first day.
          purpose: Notice how you start.
".

Definition silentPrompt : CleanPrompt.t :=
  {| CleanPrompt.id := 11; CleanPrompt.translations := [] |}.

Definition silentCategory : CleanCategory.t :=
  {| CleanCategory.names := [("en", "Biography")];
     CleanCategory.prompts := Some [ silentPrompt ] |}.

Definition shadowEntries : JsObject CleanCategory.t :=
  [ ("B", silentCategory);
    ("B1",
     {| CleanCategory.names := [("en", "Beginnings")];
        CleanCategory.prompts :=
          Some [ {| CleanPrompt.id := 1;
                    CleanPrompt.translations :=
                      [ ("en", translation "Recall a first day." "Notice how you start.") ] |} ] |}) ].

Definition shadowDocument : YamlDocument := YamlUnified (CategoriesObject shadowEntries) None.

(** The parser on all of the sample texts above. *)
Definition sampleParser : string -> Outcome YamlDocument :=
  parse [ (cleanText, cleanDocument);
          (nestedText, nestedDocument);
          (emptyText, emptyDocument);
          (collisionText, collisionDocument);
          (incompleteText, incompleteDocument);
          (danglingText, danglingDocument);
          (shadowText, shadowDocument);
          (legacyFirstText, YamlPrompt legacyFirst);
          (legacySecondText, YamlPrompt legacySecond) ].

(** The catalogue the sample legacy file gives. *)
Definition legacyCatalogue : CategoryGroup :=
  [ ("Biography",
     [ {| id := "B1"; category := "Biography";
          prompt := "Describe a turning point."; purpose := "Reflect on change." |};
       {| id := "intro"; category := "Biography";
          prompt := "Why keep a journal?"; purpose := "Set an intention." |} ]) ].

(** Sites: the unified file in the clean structure; a unified file with no
    categories beside a legacy file; a legacy file alone; a unified file that
    is no single YAML document; nothing at all. *)
Definition cleanSite : string -> Outcome Response :=
  serve [ ("./journal-prompts.yaml", cleanText) ].

Definition emptySite : string -> Outcome Response :=
  serve [ ("./journal-prompts.yaml", emptyText); ("./prompts_EN.yaml", legacyText) ].

Definition legacySite : string -> Outcome Response :=
  serve [ ("./prompts_EN.yaml", legacyText) ].

Definition brokenSite : string -> Outcome Response :=
  serve [ ("./journal-prompts.yaml", legacyText) ].

Definition deadSite : string -> Outcome Response := serve [].

(** Two prompts of one category with the same text, and the application
    pinned to that category while showing the first of them. *)
Definition twinFirst : Prompt :=
  {| id := "T1"; category := "Twins"; prompt := "Write about today."; purpose := "Warm up." |}.

Definition twinSecond : Prompt :=
  {| id := "T2"; category := "Twins"; prompt := "Write about today."; purpose := "Wind down." |}.

Definition twinsApp : App :=
  {| categoryGroups := [ ("Twins", [ twinFirst; twinSecond ]) ];
     currentCategory := "Twins";
     currentPrompt := Some twinFirst;
     isPinned := true;
     purposeVisible := false;
     wasOpenedWithDeepLink := false;
     search := [] |}.

(** The application showing [B1] of the legacy catalogue: pinned to its
    category, and not pinned. *)
Definition pinnedApp : App :=
  {| categoryGroups := legacyCatalogue;
     currentCategory := "Biography";
     currentPrompt := Some legacyFirst;
     isPinned := true;
     purposeVisible := false;
     wasOpenedWithDeepLink := false;
     search := [] |}.

Definition unpinnedApp : App :=
  {| categoryGroups := legacyCatalogue;
     currentCategory := "Biography";
     currentPrompt := Some legacyFirst;
     isPinned := false;
     purposeVisible := false;
     wasOpenedWithDeepLink := false;
     search := [] |}.

(** [decodeURIComponent] on text without escapes. *)
Definition plainDecode (encoded : string) : Outcome string := Return encoded.

(** One half, as a value of [Math.random]. *)
Definition oneHalf : Z := (2 ^ 1073)%Z.

(** A catalogue whose only prompt has the empty string as its id. *)
Definition anonymous : Prompt :=
  {| id := ""; category := "Biography";
     prompt := "Why keep a journal?"; purpose := "Set an intention." |}.

Definition anonymousCatalogue : CategoryGroup := [ ("Biography", [ anonymous ]) ].
(** ** Predicates used in the statements *)

(** A group in which every prompt sits under its own category, each category
    once, and no category is empty. *)
Definition grouped_by_category (g : CategoryGroup) : Prop :=
  (forall k prompts p, In (k, prompts) g -> In p prompts -> category p = k)
  /\ NoDup (obj_keys g)
  /\ (forall k prompts, In (k, prompts) g -> prompts <> []).

(** The last code unit of a string. *)
Fixpoint last_char (s : string) : option ascii :=
  match s with
  | EmptyString => None
  | String c rest =>
      match last_char rest with
      | Some c' => Some c'
      | None => Some c
      end
  end.

(** The three loaders, as far as the statements about their results go. *)
Definition produced_by_a_loader (fetch : string -> Outcome Response)
    (yaml_load : string -> Outcome YamlDocument) (yamlText language : string)
    (g : CategoryGroup) : Prop :=
  loadPromptsFromCleanStructure yaml_load yamlText language = Return g
  \/ loadPromptsFromNestedStructure yaml_load yamlText language = Return g
  \/ loadPromptsLegacy fetch yaml_load language = Return g.

(** The prompts of a clean document, each with the key and the category it
    sits under. *)
Definition cleanSources (entries : JsObject CleanCategory.t)
  : list (string * CleanCategory.t * CleanPrompt.t) :=
  flat_map
    (fun entry =>
       match CleanCategory.prompts (snd entry) with
       | Some cleanPrompts => map (fun cleanPrompt => (fst entry, snd entry, cleanPrompt)) cleanPrompts
       | None => []
       end)
    entries.

(** The id reconstructed for a prompt of a clean document. *)
Definition cleanSourceId (source : string * CleanCategory.t * CleanPrompt.t) : string :=
  (fst (fst source) ++ numberToString (CleanPrompt.id (snd source)))%string.

(** The id reconstructed for a prompt of a nested document. *)
Definition nestedSourceId (multiPrompt : MultilingualPrompt.t) : string :=
  (MultilingualPrompt.category_id multiPrompt
   ++ numberToString (MultilingualPrompt.id multiPrompt))%string.

(** The fallback policy in the words of the specification: the translation
    for the requested language code if there is one, else the English one if
    there is one, else none.  [available] says which translations there are. *)
Definition resolveTranslation (available : string -> option PromptTranslation.t)
    (languageCode : string) : option PromptTranslation.t :=
  match available languageCode with
  | Some requested => Some requested
  | None => available "en"
  end.

(** The prompt made of a translation. *)
Definition promptOf (combinedId categoryName : string) (t : PromptTranslation.t) : Prompt :=
  {| id := combinedId;
     category := categoryName;
     prompt := trim (PromptTranslation.prompt t);
     purpose := trim (PromptTranslation.purpose t) |}.

(** The text of the unified file, when there is one to be had: what
    [loadPromptsFromUnified] holds in [yamlText] before it tries a normalizer. *)
Definition unifiedText (fetch : string -> Outcome Response) : Outcome string :=
  bind (fetch "./journal-prompts.yaml")
    (fun response =>
       if negb (ok response)
       then Throw (JsError ("Failed to fetch unified prompts: " ++ statusText response)%string)
       else text response).

(** The language [loadPrompts] works with: its argument, or the default. *)
Definition requestedLanguage (language : option string) : string :=
  match language with
  | Some l => l
  | None => "EN"
  end.

(** The state [displayPrompt(p)] leaves when the address is not being kept
    in step with the prompt. *)
Definition shown (p : Prompt) (app : App) : App :=
  set_currentCategory (category p) (set_purposeVisible false (set_currentPrompt (Some p) app)).

(** The state in which [selectNewPrompt] starts to choose. *)
Definition reloading (app : App) : App :=
  set_search [] (set_wasOpenedWithDeepLink false app).

(** The state the id path of [handleDeepLink] leaves for the prompt it found. *)
Definition linked (found : Prompt) (app : App) : App :=
  {| categoryGroups := categoryGroups app;
     currentCategory := category found;
     currentPrompt := Some found;
     isPinned := isPinned app;
     purposeVisible := false;
     wasOpenedWithDeepLink := true;
     search := [("id", id found)] |}.

(** The documents [loadPromptsLegacy] makes of the text of a legacy file. *)
Definition legacyDocuments (yamlText : string) : list string :=
  filter (fun doc => truthy (trim doc)) (split yamlText "---").


(** ** Preferences ([LanguageManager] and [ThemeManager] in [src/main.ts]) *)

(** The browser as far as the two managers use it: the entries of
    [localStorage]; whether the storage can be reached at all (where the user
    has blocked it, every access throws a [SecurityError]); whether it still
    takes a value ([setItem] throws a [QuotaExceededError] when it does not);
    and the two attributes of [document.documentElement] the managers write. *)
Record Browser : Type := {
  localStorage : list (string * string);
  localStorage_blocked : bool;
  localStorage_full : bool;
  documentElement_lang : string;
  documentElement_data_theme : option string
}.

Definition set_localStorage (v : list (string * string)) (browser : Browser) : Browser :=
  {| localStorage := v;
     localStorage_blocked := localStorage_blocked browser;
     localStorage_full := localStorage_full browser;
     documentElement_lang := documentElement_lang browser;
     documentElement_data_theme := documentElement_data_theme browser |}.

Definition set_documentElement_lang (v : string) (browser : Browser) : Browser :=
  {| localStorage := localStorage browser;
     localStorage_blocked := localStorage_blocked browser;
     localStorage_full := localStorage_full browser;
     documentElement_lang := v;
     documentElement_data_theme := documentElement_data_theme browser |}.

Definition set_documentElement_data_theme (v : option string) (browser : Browser) : Browser :=
  {| localStorage := localStorage browser;
     localStorage_blocked := localStorage_blocked browser;
     localStorage_full := localStorage_full browser;
     documentElement_lang := documentElement_lang browser;
     documentElement_data_theme := v |}.

(** [localStorage.getItem(key)]: the value stored, or [null]. *)
Definition localStorage_getItem (browser : Browser) (key : string) : Outcome (option string) :=
  if localStorage_blocked browser then Throw (ForeignError "SecurityError")
  else Return (obj_get (localStorage browser) key).

(** [localStorage.setItem(key, value)] *)
Definition localStorage_setItem (browser : Browser) (key value : string) : Outcome Browser :=
  if localStorage_blocked browser then Throw (ForeignError "SecurityError")
  else if localStorage_full browser then Throw (ForeignError "QuotaExceededError")
  else Return (set_localStorage (map_set (localStorage browser) key value) browser).

(** [array.includes(s)] on an array of strings. *)
Definition includes (array : list string) (s : string) : bool :=
  existsb (String.eqb s) array.

Module LanguageManager.

Definition STORAGE_KEY : string := "journal-prompts-language".
Definition DEFAULT_LANGUAGE : string := "EN".
Definition AVAILABLE_LANGUAGES : list string := ["EN"; "DE"].

(** The [catch] clause logs; the default is returned after it as after a
    value that is missing or not among the available ones. *)
Definition getCurrentLanguage (browser : Browser) : string :=
  match localStorage_getItem browser STORAGE_KEY with
  | Return (Some stored) =>
      if truthy stored && includes AVAILABLE_LANGUAGES stored then stored
      else DEFAULT_LANGUAGE
  | Return None => DEFAULT_LANGUAGE
  | Throw _ => DEFAULT_LANGUAGE
  end.

(** The check is made outside the [try]; inside it the attribute is written
    after the storage, so a storage that throws leaves the attribute alone. *)
Definition setLanguage (language : string) (browser : Browser) : Outcome Browser :=
  if negb (includes AVAILABLE_LANGUAGES language)
  then Throw (JsError ("Unsupported language: " ++ language)%string)
  else
    match localStorage_setItem browser STORAGE_KEY language with
    | Return stored => Return (set_documentElement_lang (toLowerCase language) stored)
    | Throw _ => Return browser
    end.

End LanguageManager.

Module ThemeManager.

Definition STORAGE_KEY : string := "journal-prompts-theme".
Definition DEFAULT_THEME : string := "light".
Definition AVAILABLE_THEMES : list string := ["light"; "dark"].

Definition getCurrentTheme (browser : Browser) : string :=
  match localStorage_getItem browser STORAGE_KEY with
  | Return (Some stored) =>
      if truthy stored && includes AVAILABLE_THEMES stored then stored
      else DEFAULT_THEME
  | Return None => DEFAULT_THEME
  | Throw _ => DEFAULT_THEME
  end.

(** [setAttribute('data-theme', 'dark')] for the dark theme,
    [removeAttribute('data-theme')] for any other. *)
Definition setTheme (theme : string) (browser : Browser) : Outcome Browser :=
  if negb (includes AVAILABLE_THEMES theme)
  then Throw (JsError ("Unsupported theme: " ++ theme)%string)
  else
    match localStorage_setItem browser STORAGE_KEY theme with
    | Return stored =>
        Return (set_documentElement_data_theme
                  (if theme =? "dark" then Some "dark" else None) stored)
    | Throw _ => Return browser
    end.

End ThemeManager.

(** The fields of [JournalPromptsApp] that hold the preferences, with the
    browser they are kept in. *)
Record Preferences : Type := {
  currentLanguage : string;
  currentTheme : string;
  browser : Browser
}.

(** ** The handlers of the controls ([src/main.ts]) *)

Definition set_categoryGroups (v : CategoryGroup) (app : App) : App :=
  {| categoryGroups := v; currentCategory := currentCategory app;
     currentPrompt := currentPrompt app; isPinned := isPinned app;
     purposeVisible := purposeVisible app;
     wasOpenedWithDeepLink := wasOpenedWithDeepLink app; search := search app |}.

Section Controls.

Local Open Scope action_scope.

(** [onCategoryChange()], given [this.categorySelectEl.value]. *)
Definition onCategoryChange (selectedCategory : string) : Action unit :=
  if truthy selectedCategory
  then selectCategory selectedCategory ;;; setPinned true
  else ret tt.

Definition togglePin : Action unit :=
  app <- this ;;
  setPinned (negb (isPinned app)).

Definition togglePurpose : Action unit :=
  app <- this ;;
  assign (set_purposeVisible (negb (purposeVisible app))).

(** [if (!this.wasOpenedWithDeepLink && this.currentPrompt) this.updateUrl(this.currentPrompt);]
    the statement [copyCurrentLink] and [fallbackCopyLink] both begin with. *)
Definition putPromptIntoUrl : Action unit :=
  app <- this ;;
  if negb (wasOpenedWithDeepLink app)
  then match currentPrompt app with
       | Some p => updateUrl p
       | None => ret tt
       end
  else ret tt.

(** Where the address went for copying: to [navigator.clipboard.writeText],
    or into the text area [document.execCommand('copy')] copies from. *)
Inductive Copied : Type :=
| ToClipboard (query : list (string * string))
| ToTextArea (query : list (string * string)).

Definition copiedQuery (copied : Copied) : list (string * string) :=
  match copied with
  | ToClipboard query => query
  | ToTextArea query => query
  end.

(** The settlement of [navigator.clipboard.writeText(href)], for the query
    string of [href]. *)
Variable clipboard_writeText : list (string * string) -> Outcome unit.

Definition fallbackCopyLink : Action Copied :=
  putPromptIntoUrl ;;;
  app <- this ;;
  ret (ToTextArea (search app)).

(** The result is the address handed over, [window.location.href] at that
    moment, of which the model keeps the query string. *)
Definition copyCurrentLink : Action Copied :=
  putPromptIntoUrl ;;;
  app <- this ;;
  match clipboard_writeText (search app) with
  | Return _ => ret (ToClipboard (search app))
  | Throw _ => fallbackCopyLink
  end.

(** The events [setupEventListeners] listens for: [change] on the category
    select, with the value the select then has, and [click] on the four
    buttons. *)
Inductive Event : Type :=
| CategoryChange (value : string)
| TogglePurposeClick
| NewPromptClick
| CopyLinkClick
| PinClick.

(** The listener [setupEventListeners] registers for each of them. *)
Definition setupEventListeners (event : Event) : Action unit :=
  match event with
  | CategoryChange value => onCategoryChange value
  | TogglePurposeClick => togglePurpose
  | NewPromptClick => selectNewPrompt
  | CopyLinkClick => copyCurrentLink ;;; ret tt
  | PinClick => togglePin
  end.

(** The listeners run one after the other, each to its end. *)
Fixpoint listen (events : list Event) : Action unit :=
  match events with
  | [] => ret tt
  | event :: later => setupEventListeners event ;;; listen later
  end.

End Controls.

(** ** Start-up and the change of language ([init], [switchLanguage], [switchTheme]) *)

Section Startup.

Variable fetch : string -> Outcome Response.
Variable yaml_load : string -> Outcome YamlDocument.
Variable decodeURIComponent : string -> Outcome string.

(** The settlement of [TranslationManager.initialize(language)], which loads
    the texts of the user interface. *)
Variable TranslationManager_initialize : string -> Outcome unit.

Local Open Scope action_scope.

Definition initializeLanguage (browser : Browser) : string * Browser :=
  let currentLanguage := LanguageManager.getCurrentLanguage browser in
  (currentLanguage, set_documentElement_lang (toLowerCase currentLanguage) browser).

Definition initializeTheme (browser : Browser) : Outcome (string * Browser) :=
  let currentTheme := ThemeManager.getCurrentTheme browser in
  bind (ThemeManager.setTheme currentTheme browser)
       (fun themed => Return (currentTheme, themed)).

(** [this.categoryGroups = await loadPrompts(this.currentLanguage)] *)
Definition loadAndDisplayCategories (currentLanguage : string) : Action unit :=
  groups <- lift (loadPrompts fetch yaml_load (Some currentLanguage)) ;;
  assign (set_categoryGroups groups).

(** The [try] block of [init].  Whatever it raises is caught by [init], which
    then replaces the page by the error message. *)
Definition init (browser : Browser) : Action Preferences :=
  let (currentLanguage, browser) := initializeLanguage browser in
  themed <- lift (initializeTheme browser) ;;
  lift (TranslationManager_initialize currentLanguage) ;;;
  loadAndDisplayCategories currentLanguage ;;;
  app <- this ;;
  (if (0 <? List.length (obj_keys (categoryGroups app)))%nat
   then
     hasDeepLink <- handleDeepLink decodeURIComponent ;;
     if negb hasDeepLink then loadRandomPromptFromAnyCategory else ret tt
   else ret tt) ;;;
  ret {| currentLanguage := currentLanguage;
         currentTheme := fst themed;
         browser := snd themed |}.

(** The [try] block of [switchLanguage], given whether the prompt display is
    on screen ([!this.promptDisplayEl.classList.contains('hidden')]).
    Whatever it raises is caught by [switchLanguage], which then reloads the
    page. *)
Definition switchLanguage (newLanguage : string) (wasOnPromptScreen : bool)
    (preferences : Preferences) : Action Preferences :=
  saved <- lift (LanguageManager.setLanguage newLanguage (browser preferences)) ;;
  app <- this ;;
  let currentPromptId := option_map id (currentPrompt app) in
  let wasShowingPurpose := purposeVisible app in
  lift (TranslationManager_initialize newLanguage) ;;;
  loadAndDisplayCategories newLanguage ;;;
  (match currentPromptId with
   | Some wanted =>
       if wasOnPromptScreen && truthy wanted
       then
         app <- this ;;
         match findPromptById (categoryGroups app) wanted with
         | Some found =>
             assign (set_currentCategory (category found)) ;;;
             displayPrompt (Some found) ;;;
             if wasShowingPurpose then togglePurpose else ret tt
         | None => loadRandomPromptFromAnyCategory
         end
       else ret tt
   | None => ret tt
   end) ;;;
  ret {| currentLanguage := newLanguage;
         currentTheme := currentTheme preferences;
         browser := saved |}.

End Startup.

(** [switchTheme(newTheme)]: the [catch] clause logs and leaves the fields as
    they were. *)
Definition switchTheme (newTheme : string) (preferences : Preferences) : Preferences :=
  match ThemeManager.setTheme newTheme (browser preferences) with
  | Return themed =>
      {| currentLanguage := currentLanguage preferences;
         currentTheme := newTheme;
         browser := themed |}
  | Throw _ => preferences
  end.

(** ** Checked access to the page ([src/utils.ts]) *)

(** [validateElement(element, elementName)]; [None] is [null]. *)
Definition validateElement {T : Type} (element : option T) (elementName : string) : Outcome T :=
  match element with
  | Some found => Return found
  | None => Throw (JsError (elementName ++ " element not found")%string)
  end.

Fixpoint validateElements {T : Type} (elements : list (option T * string)) : Outcome unit :=
  match elements with
  | [] => Return tt
  | (element, name) :: rest =>
      bind (validateElement element name) (fun _ => validateElements rest)
  end.

(** [getElementById(id, elementName?)], over [document.getElementById]. *)
Definition getElementById {T : Type} (document_getElementById : string -> option T)
    (elementId : string) (elementName : option string) : Outcome T :=
  validateElement (document_getElementById elementId)
    (match elementName with
     | Some name => if truthy name then name else ("Element with ID '" ++ elementId ++ "'")%string
     | None => ("Element with ID '" ++ elementId ++ "'")%string
     end).

(** ** The texts of the user interface ([TranslationManager]) *)

Module TranslationManager.

(** A value of a translation file: a string, or an object of further values
    (the interface [Translations] nests objects of strings). *)
#[warnings="-register-all"]
Inductive Value : Type :=
| Text (s : string)
| Object (members : list (string * Value)).

Record t : Type := {
  translations : list (string * Value);    (* the [Map] from language to [Translations] *)
  currentLanguage : string
}.

(** The loop over [key.split('.')]: [None] where the function returns the
    key.  A name that [k in value] finds on the prototype chain only leads to
    a function, to [Object.prototype] or to [null], and from none of these to
    a string, so the key is returned for it as for a name that is not
    found. *)
Fixpoint navigate (value : Value) (keys : list string) : option Value :=
  match keys with
  | [] => Some value
  | k :: rest =>
      match value with
      | Object members =>
          match obj_get members k with
          | Some member => navigate member rest
          | None => None
          end
      | Text _ => None
      end
  end.

Definition get (manager : t) (key : string) : string :=
  match obj_get (translations manager) (currentLanguage manager) with
  | None => key
  | Some translations =>
      match navigate translations (split key ".") with
      | Some (Text s) => s
      | Some (Object _) => key
      | None => key
      end
  end.

(** [setLanguage(language)]: only a language whose texts are loaded is taken. *)
Definition setLanguage (language : string) (manager : t) : t :=
  match obj_get (translations manager) language with
  | Some _ => {| translations := translations manager; currentLanguage := language |}
  | None => manager
  end.

End TranslationManager.

(** ** Further predicates and samples *)

(** The prompt the clean loader makes of a prompt of the document for a
    language code, if it makes one. *)
Definition cleanSourcePrompt (languageCode : string)
    (source : string * CleanCategory.t * CleanPrompt.t) : option Prompt :=
  cleanPromptToPrompt (fst (fst source))
    (cleanCategoryName (fst (fst source)) (snd (fst source)) languageCode)
    languageCode (snd source).

(** The entries of the sample file whose German translation is incomplete,
    and the catalogues it gives for English and for German. *)
Definition incompleteEntries : JsObject CleanCategory.t :=
  [ ("B",
     {| CleanCategory.names := [("en", "Biography"); ("de", "Biografie")];
        CleanCategory.prompts := Some [ incompletePrompt ] |}) ].

Definition incompleteEnglish : Prompt :=
  {| id := "B1"; category := "Biography";
     prompt := "Describe a turning point."; purpose := "Reflect on change." |}.

Definition incompleteGerman : Prompt :=
  {| id := "B1"; category := "Biografie";
     prompt := "Describe a turning point."; purpose := "Reflect on change." |}.

(** The state [displayPrompt(p)] leaves. *)
Definition displayed (p : Prompt) (app : App) : App :=
  {| categoryGroups := categoryGroups app;
     currentCategory := category p;
     currentPrompt := Some p;
     isPinned := isPinned app;
     purposeVisible := false;
     wasOpenedWithDeepLink := wasOpenedWithDeepLink app;
     search := if wasOpenedWithDeepLink app then [("id", id p)] else search app |}.

(** The prompt on show is one of the catalogue, the current category is its
    category, and an address that is being kept in step with the prompt names
    it; with no prompt on show there is no current category. *)
Definition coherent (app : App) : Prop :=
  match currentPrompt app with
  | Some p =>
      In p (allPromptsOf (categoryGroups app))
      /\ currentCategory app = category p
      /\ (wasOpenedWithDeepLink app = true -> search app = [("id", id p)])
  | None => currentCategory app = "" /\ wasOpenedWithDeepLink app = false
  end.

(** Values [Math.random] can return. *)
Definition random_values (supply : list Z) : Prop :=
  Forall (fun random => is_random_value random = true) supply.

(** The [id] parameter of the address, if there is one, is empty or names no
    prompt of the catalogue. *)
Definition unresolved_id (app : App) : Prop :=
  forall wanted,
    params_get (search app) "id" = Some wanted ->
    wanted <> "" ->
    findPromptById (categoryGroups app) wanted = None.

(** The [prompt] parameter of the address, if there is one, is empty or
    decodes to a text that no prompt of [prompts] starts with. *)
Definition unmatched_prefix (decodeURIComponent : string -> Outcome string)
    (app : App) (prompts : list Prompt) : Prop :=
  forall encoded,
    params_get (search app) "prompt" = Some encoded ->
    encoded <> "" ->
    exists decodedPrefix,
      decodeURIComponent encoded = Return decodedPrefix
      /\ forall p, In p prompts -> startsWith (prompt p) decodedPrefix = false.

(** [populateSelect()]: the values of the options the category select ends
    up with, the placeholder (if the page has one) and one option for each
    category of the catalogue. *)
Definition populateSelect (placeholder : bool) (groups : CategoryGroup) : list string :=
  (if placeholder then [""] else []) ++ obj_keys groups.

(** A fresh application over the sample legacy catalogue, opened on
    [?category=Biography], on [?category=Biography&prompt=Why] and on
    [?category=constructor]. *)
Definition categoryLink : App := initialApp legacyCatalogue [("category", "Biography")].

Definition prefixLink : App :=
  initialApp legacyCatalogue [("category", "Biography"); ("prompt", "Why")].

Definition prototypeLink : App := initialApp legacyCatalogue [("category", "constructor")].

(** What a listener may leave behind: it has returned, to a coherent state
    over the same catalogue; or it is still drawing.  It has not thrown. *)
Definition kept (app : App) {A : Type} (result : Result A) : Prop :=
  match result with
  | Done _ app' supply' =>
      coherent app' /\ categoryGroups app' = categoryGroups app /\ random_values supply'
  | Raised _ => False
  | Starved => True
  end.

(** No failure of the clipboard. *)
Definition clipboardWorks (query : list (string * string)) : Outcome unit := Return tt.

(** A clipboard that refuses. *)
Definition clipboardRefuses (query : list (string * string)) : Outcome unit :=
  Throw (ForeignError "NotAllowedError").

(** The events that leave the pin alone. *)
Definition keeps_pin (event : Event) : bool :=
  match event with
  | NewPromptClick | TogglePurposeClick | CopyLinkClick => true
  | CategoryChange _ | PinClick => false
  end.

(** The application is pinned to the category [name], whose prompts are
    [prompts], and shows one of them. *)
Definition pinned_to (name : string) (prompts : list Prompt) (app : App) : Prop :=
  isPinned app = true
  /\ currentCategory app = name
  /\ exists p, currentPrompt app = Some p /\ In p prompts.

(** The application after the link [?id=B1] has been opened over the sample
    legacy catalogue. *)
Definition linkedApp : App := linked legacyFirst (initialApp legacyCatalogue [("id", "B1")]).

(** A browser with nothing stored, one in which German and the dark theme
    are stored, and one whose storage is blocked. *)
Definition freshBrowser : Browser :=
  {| localStorage := [];
     localStorage_blocked := false;
     localStorage_full := false;
     documentElement_lang := "en";
     documentElement_data_theme := None |}.

Definition germanBrowser : Browser :=
  {| localStorage := [("journal-prompts-language", "DE"); ("journal-prompts-theme", "dark")];
     localStorage_blocked := false;
     localStorage_full := false;
     documentElement_lang := "en";
     documentElement_data_theme := None |}.

Definition blockedBrowser : Browser :=
  {| localStorage := [];
     localStorage_blocked := true;
     localStorage_full := false;
     documentElement_lang := "en";
     documentElement_data_theme := None |}.

(** The texts of the user interface load. *)
Definition translationsLoad (language : string) : Outcome unit := Return tt.

(** The catalogue the sample clean file gives for English. *)
Definition englishCatalogue : CategoryGroup :=
  [ ("Biography",
     [ {| id := "B1"; category := "Biography";
          prompt := "Describe a turning point."; purpose := "Reflect on change." |};
       {| id := "B2"; category := "Biography";
          prompt := "Name a mentor."; purpose := "Practise gratitude." |} ]) ].

(** The prompt [B1] of the sample clean file in German and in English, and
    the application of a reader who has opened the German one by its link
    and made its purpose visible. *)
Definition germanB1 : Prompt :=
  {| id := "B1"; category := "Biografie";
     prompt := "Beschreibe einen Wendepunkt."; purpose := "Denke nach." |}.

Definition englishB1 : Prompt :=
  {| id := "B1"; category := "Biography";
     prompt := "Describe a turning point."; purpose := "Reflect on change." |}.

Definition germanReader : App :=
  set_purposeVisible true (linked germanB1 (initialApp germanCatalogue [("id", "B1")])).

Definition germanPreferences : Preferences :=
  {| currentLanguage := "DE"; currentTheme := "light"; browser := germanBrowser |}.

(** [s] has no code unit [c]. *)
Fixpoint without (c : ascii) (s : string) : bool :=
  match s with
  | EmptyString => true
  | String c' rest => negb (c' =? c)%char && without c rest
  end.

(** The names of a list in the order in which they first appear. *)
Definition first_occurrences (names : list string) : list string :=
  fold_left (fun seen name => if includes seen name then seen else seen ++ [name]) names [].

(** Texts of a user interface, in English. *)
Definition englishTexts : TranslationManager.Value :=
  TranslationManager.Object
    [ ("page", TranslationManager.Object [ ("title", TranslationManager.Text "Journal Prompts") ]);
      ("buttons",
       TranslationManager.Object
         [ ("newPrompt", TranslationManager.Text "New prompt");
           ("copyLink", TranslationManager.Text "Copy link") ]) ].

Definition englishManager : TranslationManager.t :=
  {| TranslationManager.translations := [ ("EN", englishTexts) ];
     TranslationManager.currentLanguage := "EN" |}.

(** [decodeURIComponent] that refuses a lone per cent sign. *)
Definition strictDecode (encoded : string) : Outcome string :=
  if encoded =? "%" then Throw (ForeignError "URIError") else Return encoded.

(** A fresh application over the sample legacy catalogue, opened on
    [?category=Biography&prompt=%]. *)
Definition malformedLink : App :=
  initialApp legacyCatalogue [("category", "Biography"); ("prompt", "%")].

(** A code unit of the decimal spelling of an integer: a digit or the minus
    sign. *)
Definition numeric_char (c : ascii) : bool := is_digit c || (c =? "-")%char.

Fixpoint all_chars (f : ascii -> bool) (s : string) : bool :=
  match s with
  | EmptyString => true
  | String c rest => f c && all_chars f rest
  end.

(** A category key that does not end in a digit or a minus sign. *)
Definition ends_plainly (categoryId : string) : Prop :=
  match last_char categoryId with
  | Some c => numeric_char c = false
  | None => True
  end.

(** An integer that is a Number and whose neighbours are Numbers too
    ([Number.isSafeInteger]). *)
Definition safe_integer (n : Z) : Prop := (Z.abs n < 2 ^ 53)%Z.

(** A clean document whose category keys are pairwise distinct and end
    plainly, and whose prompts are numbered with safe integers, without
    repetition inside each category. *)
Definition well_keyed (entries : JsObject CleanCategory.t) : Prop :=
  NoDup (obj_keys entries)
  /\ (forall categoryId c, In (categoryId, c) entries -> ends_plainly categoryId)
  /\ (forall categoryId c cleanPrompts,
         In (categoryId, c) entries ->
         CleanCategory.prompts c = Some cleanPrompts ->
         NoDup (map CleanPrompt.id cleanPrompts)
         /\ forall cleanPrompt, In cleanPrompt cleanPrompts ->
              safe_integer (CleanPrompt.id cleanPrompt)).

(** Prompts of a nested document whose category ids end plainly, whose
    numbers are safe integers, and in which no category id comes twice with
    one number. *)
Definition numbered_apart (multiPrompts : list MultilingualPrompt.t) : Prop :=
  NoDup (map (fun multiPrompt =>
                (MultilingualPrompt.category_id multiPrompt,
                 MultilingualPrompt.id multiPrompt))
             multiPrompts)
  /\ (forall multiPrompt, In multiPrompt multiPrompts ->
        ends_plainly (MultilingualPrompt.category_id multiPrompt)
        /\ safe_integer (MultilingualPrompt.id multiPrompt)).

(** The first code unit of a string. *)
Definition first_char (s : string) : option ascii :=
  match s with
  | EmptyString => None
  | String c _ => Some c
  end.

(** A string that neither starts nor ends with white space or a line
    terminator. *)
Definition no_outer_white_space (s : string) : bool :=
  match first_char s, last_char s with
  | Some first, Some last => negb (is_white_space first) && negb (is_white_space last)
  | _, _ => true
  end.

(** A unified file in the clean structure whose texts are padded: a block
    scalar, which ends in a line feed, and a quoted scalar that starts with a
    no-break space and ends with a tab and a space. *)
Definition paddedPurpose : string :=
  String "160" ("Reflect on change." ++ String "009" " ").

Definition paddedText : string :=
"categories:
  B:
    en: Biography
    prompts:
      - id: 1
        en:
          prompt: |
              Describe a turning point.
          purpose: '" ++ paddedPurpose ++ "'
".

Definition paddedPrompt : CleanPrompt.t :=
  {| CleanPrompt.id := 1;
     CleanPrompt.translations :=
       [ ("en", translation "  Describe a turning point.
" paddedPurpose) ] |}.

Definition paddedDocument : YamlDocument :=
  YamlUnified
    (CategoriesObject
       [ ("B", {| CleanCategory.names := [("en", "Biography")];
                  CleanCategory.prompts := Some [ paddedPrompt ] |}) ])
    None.

Definition paddedParser : string -> Outcome YamlDocument :=
  parse [ (paddedText, paddedDocument) ].

Definition paddedCatalogue : CategoryGroup :=
  [ ("Biography",
     [ {| id := "B1"; category := "Biography";
          prompt := "Describe a turning point."; purpose := "Reflect on change." |} ]) ].

(** A language code that starts with a capital of Latin-1, U+00C9, and its
    lower-cased form, which starts with U+00E9. *)
Definition capitalCode : string := String "201" "L".

Definition smallCode : string := String "233" "l".

(** A unified file in the clean structure with a translation under
    [smallCode]. *)
Definition latinText : string :=
"categories:
  B:
    en: Biography
    " ++ smallCode ++ ": Biographie
    prompts:
      - id: 1
        en:
          prompt: Describe a turning point.
          purpose: Reflect on change.
        " ++ smallCode ++ ":
          prompt: Raconte un tournant.
          purpose: Penser au changement.
".

Definition latinDocument : YamlDocument :=
  YamlUnified
    (CategoriesObject
       [ ("B",
          {| CleanCategory.names := [("en", "Biography"); (smallCode, "Biographie")];
             CleanCategory.prompts :=
               Some [ {| CleanPrompt.id := 1;
                         CleanPrompt.translations :=
                           [ ("en", translation "Describe a turning point."
                                      "Reflect on change.");
                             (smallCode, translation "Raconte un tournant."
                                           "Penser au changement.") ] |} ] |}) ])
    None.

Definition latinParser : string -> Outcome YamlDocument :=
  parse [ (latinText, latinDocument) ].

Definition latinCatalogue : CategoryGroup :=
  [ ("Biographie",
     [ {| id := "B1"; category := "Biographie";
          prompt := "Raconte un tournant."; purpose := "Penser au changement." |} ]) ].
(** * Properties *)

(** ** Own properties *)

Section ObjectFacts.

Context {V : Type}.
Implicit Types (o : JsObject V) (k : string) (v : V).

Lemma obj_get_In o k v : obj_get o k = Some v -> In (k, v) o.
Proof.
  induction o as [| [k' v'] rest IH]; simpl; [discriminate|].
  destruct (k' =? k) eqn:E.
  - apply String.eqb_eq in E. intros [= ->]. subst. now left.
  - intros H. right. now apply IH.
Qed.

Lemma obj_get_None o k : obj_get o k = None <-> ~ In k (obj_keys o).
Proof.
  induction o as [| [k' v'] rest IH]; simpl.
  - split; [intros _ []| reflexivity].
  - destruct (k' =? k) eqn:E.
    + apply String.eqb_eq in E. split; [discriminate | intros H; exfalso; apply H; now left].
    + apply String.eqb_neq in E. rewrite IH. tauto.
Qed.

Lemma obj_get_NoDup o k v : NoDup (obj_keys o) -> In (k, v) o -> obj_get o k = Some v.
Proof.
  induction o as [| [k' v'] rest IH]; simpl; [intros _ []|].
  intros Hnd [Heq | Hin].
  - injection Heq as -> ->. now rewrite String.eqb_refl.
  - inversion Hnd as [| ? ? Hnotin Hnd']; subst.
    destruct (k' =? k) eqn:E.
    + apply String.eqb_eq in E. subst. exfalso. apply Hnotin.
      change k with (fst (k, v)). now apply in_map.
    + now apply IH.
Qed.

Lemma obj_create_Permutation o k v : Permutation (obj_create o k v) ((k, v) :: o).
Proof.
  induction o as [| [k' v'] rest IH]; simpl; [reflexivity|].
  destruct (array_index k) as [n|], (array_index k') as [n'|];
    try destruct (n <? n')%Z; try reflexivity;
    (etransitivity; [apply perm_skip, IH | apply perm_swap]).
Qed.

Lemma obj_replace_keys o k v : obj_keys (obj_replace o k v) = obj_keys o.
Proof.
  induction o as [| [k' v'] rest IH]; simpl; [reflexivity|].
  destruct (k' =? k); simpl; [reflexivity | now rewrite IH].
Qed.

Lemma obj_replace_In o k v k' v' :
  In (k', v') (obj_replace o k v) -> (k' = k /\ v' = v) \/ In (k', v') o.
Proof.
  induction o as [| [k0 v0] rest IH]; simpl; [tauto|].
  destruct (k0 =? k) eqn:E; simpl.
  - apply String.eqb_eq in E. subst. intros [[= <- <-] | H]; tauto.
  - intros [H | H]; [tauto | destruct (IH H); tauto].
Qed.

(** What [o[k] = v] leaves in the object. *)
Lemma obj_set_In o k v k' v' :
  In (k', v') (obj_set o k v) -> (k' = k /\ v' = v) \/ In (k', v') o.
Proof.
  unfold obj_set. destruct (obj_get o k).
  - apply obj_replace_In.
  - intros H. apply (Permutation_in _ (obj_create_Permutation o k v)) in H.
    destruct H as [[= <- <-] | H]; tauto.
Qed.

Lemma obj_set_keys_NoDup o k v : NoDup (obj_keys o) -> NoDup (obj_keys (obj_set o k v)).
Proof.
  unfold obj_set. intros Hnd. destruct (obj_get o k) eqn:E.
  - now rewrite obj_replace_keys.
  - apply obj_get_None in E.
    apply (Permutation_NoDup (l := k :: obj_keys o)).
    + symmetry. unfold obj_keys.
      change (k :: map fst o) with (map fst ((k, v) :: o)).
      apply Permutation_map, obj_create_Permutation.
    + now constructor.
Qed.

End ObjectFacts.

(** ** Grouping *)

Lemma allPromptsOf_Permutation (g g' : CategoryGroup) :
  Permutation g g' -> Permutation (allPromptsOf g) (allPromptsOf g').
Proof.
  unfold allPromptsOf, obj_values. intros H.
  rewrite <- !flat_map_concat_map. now apply Permutation_flat_map.
Qed.

Lemma allPromptsOf_replace (g : CategoryGroup) k existing p :
  obj_get g k = Some existing ->
  Permutation (allPromptsOf (obj_replace g k (existing ++ [p]))) (p :: allPromptsOf g).
Proof.
  unfold allPromptsOf, obj_values.
  induction g as [| [k' ps] rest IH]; simpl; [discriminate|].
  destruct (k' =? k) eqn:E; simpl.
  - intros [= ->]. rewrite <- app_assoc. simpl.
    symmetry. apply Permutation_middle.
  - intros H. specialize (IH H).
    etransitivity; [apply Permutation_app_head, IH|].
    symmetry. apply Permutation_middle.
Qed.

Lemma groupStep_spec grouped p g :
  groupStep grouped p = Return g ->
  grouped_by_category grouped ->
  grouped_by_category g /\ Permutation (allPromptsOf g) (p :: allPromptsOf grouped).
Proof.
  unfold groupStep. intros Hstep (Hcat & Hnd & Hne).
  assert (Hg : g = obj_set grouped (category p)
                 (match obj_get grouped (category p) with
                  | Some existing => existing ++ [p]
                  | None => [p]
                  end)).
  { destruct (obj_get grouped (category p)); [congruence|].
    destruct (inherited (category p)); [discriminate | congruence]. }
  split; [split; [|split]|].
  - intros k prompts q Hin Hq. subst g.
    apply obj_set_In in Hin. destruct Hin as [[-> ->] | Hin]; [|eauto].
    destruct (obj_get grouped (category p)) as [existing|] eqn:E.
    + apply in_app_or in Hq. destruct Hq as [Hq | [<- | []]]; [|reflexivity].
      apply obj_get_In in E. eauto.
    + destruct Hq as [<- | []]. reflexivity.
  - subst g. now apply obj_set_keys_NoDup.
  - intros k prompts Hin. subst g.
    apply obj_set_In in Hin. destruct Hin as [[-> ->] | Hin]; [|eauto].
    destruct (obj_get grouped (category p)); [|discriminate].
    intros Habs. apply app_eq_nil in Habs. destruct Habs; discriminate.
  - subst g. unfold obj_set.
    destruct (obj_get grouped (category p)) as [existing|] eqn:E.
    + now apply allPromptsOf_replace.
    + change (p :: allPromptsOf grouped)
        with (allPromptsOf ((category p, [p]) :: grouped)).
      apply allPromptsOf_Permutation, obj_create_Permutation.
Qed.

Lemma groupInto_spec prompts : forall grouped g,
  groupInto grouped prompts = Return g ->
  grouped_by_category grouped ->
  grouped_by_category g /\ Permutation (allPromptsOf g) (allPromptsOf grouped ++ prompts).
Proof.
  induction prompts as [| p rest IH]; simpl; intros grouped g Hrun Hinv.
  - injection Hrun as <-. rewrite app_nil_r. now split.
  - destruct (groupStep grouped p) as [grouped'|] eqn:Hstep; simpl in Hrun; [|discriminate].
    destruct (groupStep_spec _ _ _ Hstep Hinv) as [Hinv' Hperm'].
    destruct (IH _ _ Hrun Hinv') as [Hg Hperm].
    split; [exact Hg|].
    etransitivity; [exact Hperm|].
    etransitivity; [apply Permutation_app_tail, Hperm'|].
    simpl. apply Permutation_middle.
Qed.

Lemma grouped_by_category_empty : grouped_by_category [].
Proof.
  repeat split; [intros ? ? ? [] | constructor | intros ? ? []].
Qed.

Lemma groupPrompts_spec prompts g :
  groupPrompts prompts = Return g ->
  grouped_by_category g /\ Permutation (allPromptsOf g) prompts.
Proof.
  intros H. apply (groupInto_spec prompts [] g H grouped_by_category_empty).
Qed.

(** ** The index drawn by [getRandomPrompt] *)

Section RandomIndex.

Local Open Scope Z_scope.

Lemma roundToBinary64_cases (m : Z) :
  2 ^ 53 <= m ->
  let e := Z.log2 m - 52 in
  1 <= e /\ 2 ^ (e - 1) * 2 ^ 53 <= m /\
  exists k, roundToBinary64 m = k * 2 ^ e /\ k * 2 ^ e <= m + 2 ^ (e - 1).
Proof.
  intros Hm e.
  assert (Hpos : 0 < m) by (pose proof (Z.pow_pos_nonneg 2 53); lia).
  assert (Hlog : 53 <= Z.log2 m) by (apply Z.log2_le_pow2; lia).
  assert (He : 1 <= e) by (unfold e; lia).
  assert (Hspec : 2 ^ Z.log2 m <= m) by (apply Z.log2_spec; lia).
  assert (Hsplit : 2 ^ Z.log2 m = 2 ^ (e - 1) * 2 ^ 53).
  { rewrite <- Z.pow_add_r by lia. f_equal. unfold e. lia. }
  assert (Hdouble : 2 ^ e = 2 * 2 ^ (e - 1)).
  { replace e with (1 + (e - 1)) at 1 by lia. rewrite Z.pow_add_r by lia. reflexivity. }
  assert (Hhalf : 0 < 2 ^ (e - 1)) by (apply Z.pow_pos_nonneg; lia).
  split; [exact He|]. split; [lia|].
  unfold roundToBinary64.
  destruct (m <? 2 ^ 53) eqn:Hlt; [apply Z.ltb_lt in Hlt; lia|].
  fold e.
  pose proof (Z.div_mod m (2 ^ e) ltac:(lia)) as Hdm.
  pose proof (Z.mod_pos_bound m (2 ^ e) ltac:(lia)) as Hr.
  set (q := m / 2 ^ e) in *. set (r := m mod 2 ^ e) in *.
  destruct (r <? 2 ^ (e - 1)) eqn:H1.
  - exists q. split; [reflexivity|]. lia.
  - apply Z.ltb_ge in H1.
    destruct (2 ^ (e - 1) <? r) eqn:H2.
    + exists (q + 1). split; [reflexivity|]. lia.
    + destruct (Z.even q).
      * exists q. split; [reflexivity|]. lia.
      * exists (q + 1). split; [reflexivity|]. lia.
Qed.

Lemma roundToBinary64_upper (m : Z) :
  0 <= m -> roundToBinary64 m * 2 ^ 53 <= m * (2 ^ 53 + 1).
Proof.
  intros Hm.
  destruct (Z.lt_ge_cases m (2 ^ 53)) as [Hlt | Hge].
  - unfold roundToBinary64. apply Z.ltb_lt in Hlt. rewrite Hlt. lia.
  - destruct (roundToBinary64_cases m Hge) as (He & Hhalf & k & Hk & Hle).
    rewrite Hk. lia.
Qed.

Lemma roundToBinary64_nonneg (m : Z) : 0 <= m -> 0 <= roundToBinary64 m.
Proof.
  intros Hm.
  destruct (Z.lt_ge_cases m (2 ^ 53)) as [Hlt | Hge].
  - unfold roundToBinary64. apply Z.ltb_lt in Hlt. rewrite Hlt. lia.
  - unfold roundToBinary64.
    destruct (m <? 2 ^ 53); [lia|].
    set (e := Z.log2 m - 52).
    assert (0 < 2 ^ e).
    { apply Z.pow_pos_nonneg; [lia|]. unfold e.
      assert (53 <= Z.log2 m) by (apply Z.log2_le_pow2; lia). lia. }
    assert (0 <= m / 2 ^ e) by (apply Z.div_pos; lia).
    destruct (_ <? _); [nia|]. destruct (_ <? _); [nia|]. destruct (Z.even _); nia.
Qed.

Lemma random_value_max (random : Z) :
  is_random_value random = true ->
  0 <= random /\ random * 2 ^ 53 <= binary64_scale * (2 ^ 53 - 1).
Proof.
  unfold is_random_value, binary64_scale. intros H.
  apply andb_prop in H. destruct H as [H Hfix].
  apply andb_prop in H. destruct H as [H0 H1].
  apply Z.leb_le in H0. apply Z.ltb_lt in H1. apply Z.eqb_eq in Hfix.
  split; [exact H0|].
  assert (Hscale : 2 ^ 1074 = 2 ^ 1021 * 2 ^ 53) by (rewrite <- Z.pow_add_r by lia; reflexivity).
  assert (Hhalf : 2 ^ 1074 = 2 * 2 ^ 1073) by (replace 1074 with (Z.succ 1073) by lia; apply Z.pow_succ_r; lia).
  assert (Hp : 0 < 2 ^ 1021) by (apply Z.pow_pos_nonneg; lia).
  assert (Hq : 2 ^ 53 = 9007199254740992) by reflexivity.
  destruct (Z.lt_ge_cases random (2 ^ 1073)) as [Hsmall | Hbig].
  - generalize dependent (2 ^ 1074). generalize dependent (2 ^ 1073). generalize dependent (2 ^ 1021).
    intros. nia.
  - assert (Hlog : Z.log2 random = 1073).
    { apply Z.log2_unique; [lia|]. split; [exact Hbig|].
      replace (1073 + 1) with 1074 by lia. exact H1. }
    assert (Hge : 2 ^ 53 <= random).
    { apply Z.le_trans with (2 ^ 1073); [|exact Hbig]. apply Z.pow_le_mono_r; lia. }
    destruct (roundToBinary64_cases random Hge) as (_ & _ & k & Hk & _).
    rewrite Hlog in Hk. replace (1073 - 52) with 1021 in Hk by lia.
    rewrite Hfix in Hk.
    assert (Hk53 : k < 2 ^ 53).
    { apply (Z.mul_lt_mono_pos_r (2 ^ 1021)); [exact Hp|]. rewrite <- Hk.
      rewrite (Z.mul_comm (2 ^ 53)), <- Hscale. exact H1. }
    rewrite Hscale, Hk. clear - Hk53 Hp.
    assert (Hq : 2 ^ 53 = 9007199254740992) by reflexivity.
    rewrite Hq in *. generalize dependent (2 ^ 1021). intros P HP. nia.
Qed.

Lemma randomIndexOf_bound (random : Z) (n : nat) :
  is_random_value random = true -> (0 < n)%nat ->
  0 <= randomIndexOf random n < Z.of_nat n.
Proof.
  intros Hr Hn. destruct (random_value_max random Hr) as [H0 Hmax].
  unfold randomIndexOf.
  assert (Hs : 0 < binary64_scale) by (apply Z.pow_pos_nonneg; lia).
  set (m := random * Z.of_nat n).
  assert (Hm : 0 <= m) by (unfold m; nia).
  pose proof (roundToBinary64_upper m Hm) as Hup.
  pose proof (roundToBinary64_nonneg m Hm) as Hlo.
  split.
  - apply Z.div_pos; lia.
  - apply Z.div_lt_upper_bound; [lia|].
    assert (Hq : 2 ^ 53 = 9007199254740992) by reflexivity.
    rewrite Hq in *. unfold m in *. clearbody m.
    generalize dependent binary64_scale. intros. 
    generalize dependent (roundToBinary64 (random * Z.of_nat n)). intros.
    nia.
Qed.

End RandomIndex.

(** ** What a loader that returns has done *)

Lemma bind_Return {A B : Type} (c : Outcome A) (k : A -> Outcome B) (b : B) :
  bind c k = Return b -> exists a, c = Return a /\ k a = Return b.
Proof.
  destruct c as [a | e]; simpl; [eauto | discriminate].
Qed.

Lemma loadPromptsFromCleanStructure_Return yaml_load yamlText language g :
  loadPromptsFromCleanStructure yaml_load yamlText language = Return g ->
  (exists entries rest,
      yaml_load yamlText = Return (YamlUnified (CategoriesObject entries) rest)
      /\ groupPrompts (flat_map (cleanCategoryToPrompts (toLowerCase language)) entries)
         = Return g)
  \/ (exists items rest,
         yaml_load yamlText = Return (YamlUnified (CategoriesArray items) rest)
         /\ g = []).
Proof.
  unfold loadPromptsFromCleanStructure. intros H.
  apply bind_Return in H. destruct H as (data & Hload & H).
  destruct data as [| [| entries | items] rest | parsed]; try discriminate.
  - left. eauto.
  - right. injection H as <-. eauto.
Qed.

Lemma loadPromptsFromNestedStructure_Return yaml_load yamlText language g :
  loadPromptsFromNestedStructure yaml_load yamlText language = Return g ->
  exists categories multiPrompts,
    yaml_load yamlText = Return (YamlUnified (CategoriesArray categories) (Some multiPrompts))
    /\ groupPrompts
         (flat_map
            (fun multiPrompt =>
               match nestedPromptToPrompt (categoryMapOf categories)
                       (toLowerCase language) multiPrompt with
               | Some p => [p]
               | None => []
               end)
            multiPrompts) = Return g.
Proof.
  unfold loadPromptsFromNestedStructure. intros H.
  apply bind_Return in H. destruct H as (data & Hload & H).
  destruct data as [| [| entries | items] [multiPrompts |] | parsed]; try discriminate.
  eauto.
Qed.

Lemma loadPromptsLegacy_Return fetch yaml_load language g :
  loadPromptsLegacy fetch yaml_load language = Return g ->
  exists response yamlText emitted,
    fetch ("./prompts_" ++ language ++ ".yaml")%string = Return response
    /\ ok response = true
    /\ text response = Return yamlText
    /\ map_outcome (legacyDocumentToPrompt yaml_load)
         (filter (fun doc => truthy (trim doc)) (split yamlText "---")) = Return emitted
    /\ groupPrompts emitted = Return g.
Proof.
  unfold loadPromptsLegacy. intros H.
  apply bind_Return in H. destruct H as (response & Hfetch & H).
  destruct (ok response) eqn:Hok; simpl in H; [|discriminate].
  apply bind_Return in H. destruct H as (yamlText & Htext & H).
  apply bind_Return in H. destruct H as (emitted & Hmap & H).
  exists response, yamlText, emitted. auto.
Qed.

Lemma map_outcome_In {A B : Type} (f : A -> Outcome B) l : forall bs b,
  map_outcome f l = Return bs -> In b bs -> exists a, In a l /\ f a = Return b.
Proof.
  induction l as [| a rest IH]; simpl; intros bs b H Hin.
  - injection H as <-. destruct Hin.
  - apply bind_Return in H. destruct H as (b0 & Hb0 & H).
    apply bind_Return in H. destruct H as (bs0 & Hbs0 & H).
    injection H as <-. destruct Hin as [<- | Hin].
    + exists a. auto.
    + destruct (IH _ _ Hbs0 Hin) as (a' & Ha' & Hf). exists a'. auto.
Qed.

Lemma legacyDocumentToPrompt_Return yaml_load doc p :
  legacyDocumentToPrompt yaml_load doc = Return p ->
  exists parsed,
    yaml_load (trim doc) = Return (YamlPrompt parsed)
    /\ p = {| id := id parsed; category := category parsed;
              prompt := trim (prompt parsed); purpose := trim (purpose parsed) |}.
Proof.
  unfold legacyDocumentToPrompt. intros H.
  apply bind_Return in H. destruct H as (parsed & Hload & H).
  destruct parsed as [| ? ? | parsed]; try discriminate.
  injection H as <-. eauto.
Qed.

(** ** Ids *)

Lemma cleanPromptToPrompt_id categoryId categoryName languageCode cleanPrompt p :
  cleanPromptToPrompt categoryId categoryName languageCode cleanPrompt = Some p ->
  id p = (categoryId ++ numberToString (CleanPrompt.id cleanPrompt))%string
  /\ category p = categoryName.
Proof.
  unfold cleanPromptToPrompt.
  destruct (completeTranslation cleanPrompt languageCode);
    [| destruct (completeTranslation cleanPrompt "en")];
    intros [= <-]; auto.
Qed.

Lemma nestedPromptToPrompt_id categoryMap languageCode multiPrompt p :
  nestedPromptToPrompt categoryMap languageCode multiPrompt = Some p ->
  id p = (MultilingualPrompt.category_id multiPrompt
          ++ numberToString (MultilingualPrompt.id multiPrompt))%string.
Proof.
  unfold nestedPromptToPrompt.
  destruct (obj_get categoryMap _); [|discriminate].
  destruct (obj_get (MultilingualPrompt.translations multiPrompt) languageCode);
    [| destruct (obj_get (MultilingualPrompt.translations multiPrompt) "en")];
    intros [= <-]; auto.
Qed.

Lemma in_cleanCategoryToPrompts languageCode entry p :
  In p (cleanCategoryToPrompts languageCode entry) <->
  exists cleanPrompts cleanPrompt,
    CleanCategory.prompts (snd entry) = Some cleanPrompts
    /\ In cleanPrompt cleanPrompts
    /\ cleanPromptToPrompt (fst entry)
         (cleanCategoryName (fst entry) (snd entry) languageCode)
         languageCode cleanPrompt = Some p.
Proof.
  destruct entry as [categoryId c]. simpl.
  destruct (CleanCategory.prompts c) as [cleanPrompts |].
  - rewrite in_flat_map. split.
    + intros (cleanPrompt & Hin & Hp).
      destruct (cleanPromptToPrompt _ _ _ cleanPrompt) eqn:E; [|destruct Hp].
      destruct Hp as [<- | []]. eauto.
    + intros (cleanPrompts' & cleanPrompt & [= <-] & Hin & Hp).
      exists cleanPrompt. rewrite Hp. simpl. auto.
  - split; [intros [] | intros (? & ? & [=] & _)].
Qed.

Lemma in_option_flat_map {A B : Type} (f : A -> option B) (l : list A) (b : B) :
  In b (flat_map (fun a => match f a with Some b => [b] | None => [] end) l) <->
  exists a, In a l /\ f a = Some b.
Proof.
  rewrite in_flat_map. split.
  - intros (a & Hin & Hb). destruct (f a) eqn:E; [|destruct Hb].
    destruct Hb as [<- | []]. eauto.
  - intros (a & Hin & Hb). exists a. rewrite Hb. simpl. auto.
Qed.

(** ** What a returned catalogue holds *)


Lemma last_char_append s t :
  last_char (s ++ t)%string
  = match last_char t with Some c => Some c | None => last_char s end.
Proof.
  induction s as [| c s IH]; simpl.
  - now destruct (last_char t).
  - rewrite IH. now destruct (last_char t).
Qed.

Lemma string_of_uint_last d :
  match last_char (NilEmpty.string_of_uint d) with
  | Some c => is_digit c = true
  | None => d = Decimal.Nil
  end.
Proof.
  induction d; simpl; try reflexivity;
    destruct (last_char (NilEmpty.string_of_uint d)); auto.
Qed.

Lemma decimal_last n :
  exists c, last_char (decimal n) = Some c /\ is_digit c = true.
Proof.
  assert (H : forall d, exists c,
               last_char (NilZero.string_of_uint d) = Some c /\ is_digit c = true).
  { intros d. pose proof (string_of_uint_last d) as H.
    destruct d; try (simpl in *;
      destruct (last_char (NilEmpty.string_of_uint d)); eauto).
    simpl. eauto. }
  unfold decimal. destruct (Z.to_int n) as [d | d]; simpl.
  - apply H.
  - destruct (H d) as (c & Hc & Hd). rewrite Hc. eauto.
Qed.

Lemma zeros_last count :
  last_char (zeros count) = match count with O => None | S _ => Some "0"%char end.
Proof.
  induction count as [| fewer IH]; [reflexivity|].
  simpl. rewrite IH. now destruct fewer.
Qed.

(** Below [2^53] a number is written with all its decimal digits. *)
Lemma numberToString_safe n :
  (Z.abs n < 2 ^ 53)%Z -> numberToString n = decimal n.
Proof.
  intros Hsafe. unfold numberToString, positiveToString.
  destruct (n <? 0)%Z eqn:Hneg.
  - apply Z.ltb_lt in Hneg.
    assert (Hsmall : (- n <? 2 ^ 53)%Z = true) by (apply Z.ltb_lt; lia).
    rewrite Hsmall. destruct n as [| p | p]; try lia. reflexivity.
  - apply Z.ltb_ge in Hneg.
    assert (Hsmall : (n <? 2 ^ 53)%Z = true) by (apply Z.ltb_lt; lia).
    now rewrite Hsmall.
Qed.

(** The string of a number ends in a digit, or in the [y] of [Infinity]. *)
Lemma positiveToString_last a :
  exists c, last_char (positiveToString a) = Some c
            /\ (is_digit c = true \/ c = "y"%char).
Proof.
  unfold positiveToString.
  destruct (a <? 2 ^ 53)%Z.
  { destruct (decimal_last a) as (c & Hc & Hd). eauto. }
  destruct (2 ^ 1024 <=? roundToBinary64 a)%Z.
  { exists "y"%char. split; [reflexivity | now right]. }
  destruct (shortestDigits _ _ _ _) as [[s k] n].
  destruct (decimal_last s) as (c & Hc & Hd).
  destruct (decimal_last (n - 1)) as (c' & Hc' & Hd').
  destruct (n <=? 21)%Z; [| destruct (k =? 1)%Z].
  - rewrite last_char_append, zeros_last, Hc.
    destruct (Z.to_nat (n - k)); eauto.
  - rewrite !last_char_append, Hc'. eauto.
  - rewrite !last_char_append, Hc'. eauto.
Qed.

Lemma numberToString_last n :
  exists c, last_char (numberToString n) = Some c
            /\ (is_digit c = true \/ c = "y"%char).
Proof.
  unfold numberToString. destruct (n <? 0)%Z; [|apply positiveToString_last].
  destruct (positiveToString_last (- n)) as (c & Hc & Hd).
  exists c. now rewrite last_char_append, Hc.
Qed.

(** No id of the composite form ends in anything but a digit or a [y]. *)
Lemma composite_id_last categoryId n :
  exists c, last_char (categoryId ++ numberToString n)%string = Some c
            /\ (is_digit c = true \/ c = "y"%char).
Proof.
  destruct (numberToString_last n) as (c & Hc & Hd).
  exists c. rewrite last_char_append, Hc. auto.
Qed.

Lemma groupPrompts_In prompts g p :
  groupPrompts prompts = Return g -> (In p (allPromptsOf g) <-> In p prompts).
Proof.
  intros H. destruct (groupPrompts_spec _ _ H) as [_ Hperm].
  split; apply Permutation_in; [exact Hperm | now symmetry].
Qed.




Lemma findPromptById_Some g wanted p :
  findPromptById g wanted = Some p -> In p (allPromptsOf g) /\ id p = wanted.
Proof.
  unfold allPromptsOf, obj_values.
  induction g as [| [k prompts] rest IH]; simpl; [discriminate|].
  destruct (find _ prompts) as [q|] eqn:E.
  - intros [= ->]. apply find_some in E. destruct E as [Hin Heq].
    apply String.eqb_eq in Heq. split; [apply in_or_app; now left | exact Heq].
  - intros H. destruct (IH H) as [Hin Heq]. split; [apply in_or_app; now right | exact Heq].
Qed.

Lemma findPromptById_None g wanted :
  findPromptById g wanted = None <->
  forall p, In p (allPromptsOf g) -> id p <> wanted.
Proof.
  unfold allPromptsOf, obj_values.
  induction g as [| [k prompts] rest IH]; simpl.
  - split; [intros _ p [] | reflexivity].
  - destruct (find _ prompts) as [q|] eqn:E.
    + split; [discriminate|]. intros H. exfalso.
      apply find_some in E. destruct E as [Hin Heq]. apply String.eqb_eq in Heq.
      apply (H q); [apply in_or_app; now left | exact Heq].
    + rewrite IH. split.
      * intros H p Hp. apply in_app_or in Hp. destruct Hp as [Hp | Hp]; [|now apply H].
        intros Heq. apply (find_none _ _ E) in Hp. apply String.eqb_neq in Hp. contradiction.
      * intros H p Hp. apply H, in_or_app. now right.
Qed.

Lemma NoDup_map_injective {A B : Type} (f : A -> B) (l : list A) x y :
  NoDup (map f l) -> In x l -> In y l -> f x = f y -> x = y.
Proof.
  induction l as [| a rest IH]; simpl; [intros _ []|].
  intros Hnd Hx Hy Heq. inversion Hnd as [| ? ? Hnotin Hnd']; subst.
  destruct Hx as [-> | Hx], Hy as [-> | Hy]; auto.
  - exfalso. apply Hnotin. rewrite Heq. now apply in_map.
  - exfalso. apply Hnotin. rewrite <- Heq. now apply in_map.
Qed.

Lemma in_cleanSources entries categoryId c cleanPrompt :
  In (categoryId, c, cleanPrompt) (cleanSources entries) <->
  In (categoryId, c) entries
  /\ exists cleanPrompts,
       CleanCategory.prompts c = Some cleanPrompts /\ In cleanPrompt cleanPrompts.
Proof.
  unfold cleanSources. rewrite in_flat_map. split.
  - intros ([categoryId' c'] & Hentry & Hin). simpl in Hin.
    destruct (CleanCategory.prompts c') as [cleanPrompts|] eqn:E; [|destruct Hin].
    apply in_map_iff in Hin. destruct Hin as (cp & [= <- <- <-] & Hcp). eauto.
  - intros (Hentry & cleanPrompts & Hprompts & Hin).
    exists (categoryId, c). split; [exact Hentry|]. simpl. rewrite Hprompts.
    apply in_map_iff. eauto.
Qed.

Lemma cleanPromptToPrompt_resolve categoryId categoryName languageCode cleanPrompt :
  cleanPromptToPrompt categoryId categoryName languageCode cleanPrompt
  = option_map
      (promptOf (categoryId ++ numberToString (CleanPrompt.id cleanPrompt))%string categoryName)
      (resolveTranslation (completeTranslation cleanPrompt) languageCode).
Proof.
  unfold cleanPromptToPrompt, resolveTranslation.
  destruct (completeTranslation cleanPrompt languageCode); [reflexivity|].
  destruct (completeTranslation cleanPrompt "en"); reflexivity.
Qed.

Lemma nestedPromptToPrompt_resolve categoryMap languageCode multiPrompt :
  nestedPromptToPrompt categoryMap languageCode multiPrompt
  = match obj_get categoryMap (MultilingualPrompt.category_id multiPrompt) with
    | Some c =>
        option_map
          (promptOf (nestedSourceId multiPrompt)
             (nestedCategoryName c languageCode (MultilingualPrompt.category_id multiPrompt)))
          (resolveTranslation (obj_get (MultilingualPrompt.translations multiPrompt))
             languageCode)
    | None => None
    end.
Proof.
  unfold nestedPromptToPrompt, resolveTranslation.
  destruct (obj_get categoryMap _); [|reflexivity].
  destruct (obj_get (MultilingualPrompt.translations multiPrompt) languageCode); [reflexivity|].
  destruct (obj_get (MultilingualPrompt.translations multiPrompt) "en"); reflexivity.
Qed.

(** In a catalogue that holds exactly the prompts [convert] makes of the
    sources, whose ids are those of the sources and pairwise distinct,
    [findPromptById] on the id of a source returns what [convert] made of it. *)
Lemma findPromptById_of_source {S : Type} (sources : list S) (sourceId : S -> string)
    (convert : S -> option Prompt) (g : CategoryGroup) (source : S) :
  (forall p, In p (allPromptsOf g) <-> exists s, In s sources /\ convert s = Some p) ->
  (forall s p, convert s = Some p -> id p = sourceId s) ->
  NoDup (map sourceId sources) ->
  In source sources ->
  findPromptById g (sourceId source) = convert source.
Proof.
  intros Hcat Hid Hnd Hin.
  destruct (findPromptById g (sourceId source)) as [p|] eqn:E.
  - apply findPromptById_Some in E. destruct E as [Hp Heq].
    apply Hcat in Hp. destruct Hp as (s & Hs & Hconv).
    assert (s = source).
    { apply (NoDup_map_injective sourceId sources); auto.
      rewrite <- (Hid _ _ Hconv). exact Heq. }
    subst. now rewrite Hconv.
  - destruct (convert source) as [p|] eqn:Hconv; [|reflexivity].
    exfalso. rewrite findPromptById_None in E.
    apply (E p); [apply Hcat; eauto | now apply Hid].
Qed.

Lemma clean_catalogue yaml_load yamlText language entries rest g :
  yaml_load yamlText = Return (YamlUnified (CategoriesObject entries) rest) ->
  loadPromptsFromCleanStructure yaml_load yamlText language = Return g ->
  forall p, In p (allPromptsOf g) <->
    exists s, In s (cleanSources entries)
      /\ cleanPromptToPrompt (fst (fst s))
           (cleanCategoryName (fst (fst s)) (snd (fst s)) (toLowerCase language))
           (toLowerCase language) (snd s) = Some p.
Proof.
  intros Hload Hrun p.
  destruct (loadPromptsFromCleanStructure_Return _ _ _ _ Hrun)
    as [(entries' & rest' & Hload' & Hgroup) | (items & rest' & Hload' & _)];
    rewrite Hload in Hload'; [injection Hload' as <- <- | discriminate].
  rewrite (groupPrompts_In _ _ p Hgroup), in_flat_map. split.
  - intros ([categoryId c] & Hentry & Hp).
    apply in_cleanCategoryToPrompts in Hp.
    destruct Hp as (cleanPrompts & cleanPrompt & Hprompts & Hin & Hp). simpl in *.
    exists (categoryId, c, cleanPrompt). split; [|exact Hp].
    apply in_cleanSources. eauto.
  - intros ([[categoryId c] cleanPrompt] & Hs & Hp). simpl in Hp.
    apply in_cleanSources in Hs. destruct Hs as (Hentry & cleanPrompts & Hprompts & Hin).
    exists (categoryId, c). split; [exact Hentry|].
    apply in_cleanCategoryToPrompts. simpl. eauto.
Qed.

Lemma nested_catalogue yaml_load yamlText language categories multiPrompts g :
  yaml_load yamlText = Return (YamlUnified (CategoriesArray categories) (Some multiPrompts)) ->
  loadPromptsFromNestedStructure yaml_load yamlText language = Return g ->
  forall p, In p (allPromptsOf g) <->
    exists multiPrompt, In multiPrompt multiPrompts
      /\ nestedPromptToPrompt (categoryMapOf categories) (toLowerCase language) multiPrompt
         = Some p.
Proof.
  intros Hload Hrun p.
  destruct (loadPromptsFromNestedStructure_Return _ _ _ _ Hrun)
    as (categories' & multiPrompts' & Hload' & Hgroup).
  rewrite Hload in Hload'. injection Hload' as <- <-.
  now rewrite (groupPrompts_In _ _ p Hgroup), in_option_flat_map.
Qed.

Lemma legacy_catalogue fetch yaml_load language g :
  loadPromptsLegacy fetch yaml_load language = Return g ->
  forall p, In p (allPromptsOf g) ->
    exists doc parsed,
      yaml_load (trim doc) = Return (YamlPrompt parsed)
      /\ p = {| id := id parsed; category := category parsed;
                prompt := trim (prompt parsed); purpose := trim (purpose parsed) |}.
Proof.
  intros Hrun p Hp.
  destruct (loadPromptsLegacy_Return _ _ _ _ Hrun)
    as (response & text & emitted & _ & _ & _ & Hmap & Hgroup).
  apply (groupPrompts_In _ _ p Hgroup) in Hp.
  destruct (map_outcome_In _ _ _ _ Hmap Hp) as (doc & _ & Hdoc).
  apply legacyDocumentToPrompt_Return in Hdoc.
  destruct Hdoc as (parsed & Hload & ->). eauto.
Qed.


Lemma map_outcome_forward {A B : Type} (f : A -> Outcome B) l : forall bs a,
  map_outcome f l = Return bs -> In a l -> exists b, f a = Return b /\ In b bs.
Proof.
  induction l as [| a0 rest IH]; simpl; intros bs a H Hin; [destruct Hin|].
  apply bind_Return in H. destruct H as (b0 & Hb0 & H).
  apply bind_Return in H. destruct H as (bs0 & Hbs0 & H).
  injection H as <-. destruct Hin as [<- | Hin].
  - exists b0. split; [exact Hb0 | now left].
  - destruct (IH _ _ Hbs0 Hin) as (b & Hb & Hbs). exists b. split; [exact Hb | now right].
Qed.

Lemma legacy_loaded fetch yaml_load language g response yamlText doc parsed :
  fetch ("./prompts_" ++ language ++ ".yaml")%string = Return response ->
  text response = Return yamlText ->
  loadPromptsLegacy fetch yaml_load language = Return g ->
  In doc (legacyDocuments yamlText) ->
  yaml_load (trim doc) = Return (YamlPrompt parsed) ->
  In {| id := id parsed; category := category parsed;
        prompt := trim (prompt parsed); purpose := trim (purpose parsed) |}
     (allPromptsOf g).
Proof.
  intros Hfetch Htext Hrun Hdoc Hparsed.
  destruct (loadPromptsLegacy_Return _ _ _ _ Hrun)
    as (response' & yamlText' & emitted & Hfetch' & _ & Htext' & Hmap & Hgroup).
  rewrite Hfetch in Hfetch'. injection Hfetch' as <-.
  rewrite Htext in Htext'. injection Htext' as <-.
  apply (groupPrompts_In _ _ _ Hgroup).
  destruct (map_outcome_forward _ _ _ _ Hmap Hdoc) as (p & Hp & Hin).
  unfold legacyDocumentToPrompt in Hp. rewrite Hparsed in Hp. simpl in Hp.
  injection Hp as <-. exact Hin.
Qed.



(** ** The catalogue invariant *)

Lemma NoDup_map_Permutation {A B : Type} (f : A -> B) (l l' : list A) :
  Permutation l l' -> (NoDup (map f l) <-> NoDup (map f l')).
Proof.
  intros H. split; apply Permutation_NoDup, Permutation_map; [exact H | now symmetry].
Qed.

Lemma produced_by_a_loader_emitted fetch yaml_load yamlText language g :
  produced_by_a_loader fetch yaml_load yamlText language g ->
  exists emitted, groupPrompts emitted = Return g.
Proof.
  intros [H | [H | H]].
  - destruct (loadPromptsFromCleanStructure_Return _ _ _ _ H)
      as [(entries & rest & _ & Hgroup) | (items & rest & _ & ->)]; eauto.
    exists []. reflexivity.
  - destruct (loadPromptsFromNestedStructure_Return _ _ _ _ H)
      as (categories & multiPrompts & _ & Hgroup). eauto.
  - destruct (loadPromptsLegacy_Return _ _ _ _ H)
      as (response & text & emitted & _ & _ & _ & _ & Hgroup). eauto.
Qed.

(** Prompts made one for one of sources with distinct ids have distinct ids. *)
Lemma NoDup_ids_of_sources {S : Type} (sourceId : S -> string) (convert : S -> option Prompt)
    (sources : list S) :
  (forall s p, convert s = Some p -> id p = sourceId s) ->
  NoDup (map sourceId sources) ->
  NoDup (map id (flat_map (fun s => match convert s with Some p => [p] | None => [] end)
                   sources)).
Proof.
  intros Hid. induction sources as [| s rest IH]; simpl; intros Hnd; [constructor|].
  inversion Hnd as [| ? ? Hnotin Hnd']; subst.
  destruct (convert s) as [p|] eqn:E; simpl; [|now apply IH].
  constructor; [|now apply IH].
  intros Hin. apply Hnotin. apply in_map_iff in Hin. destruct Hin as (q & Hq & Hin).
  apply in_option_flat_map in Hin. destruct Hin as (s' & Hs' & Hconv).
  apply in_map_iff. exists s'. split; [|exact Hs'].
  rewrite <- (Hid _ _ Hconv), <- (Hid _ _ E). exact Hq.
Qed.

Lemma clean_emitted languageCode entries :
  flat_map (cleanCategoryToPrompts languageCode) entries
  = flat_map
      (fun s =>
         match cleanPromptToPrompt (fst (fst s))
                 (cleanCategoryName (fst (fst s)) (snd (fst s)) languageCode)
                 languageCode (snd s) with
         | Some p => [p]
         | None => []
         end)
      (cleanSources entries).
Proof.
  unfold cleanSources.
  induction entries as [| [categoryId c] rest IH]; simpl; [reflexivity|].
  rewrite flat_map_app, <- IH. f_equal.
  destruct (CleanCategory.prompts c) as [cleanPrompts|]; [|reflexivity].
  induction cleanPrompts as [| cleanPrompt more IHmore]; simpl; [reflexivity|].
  now rewrite IHmore.
Qed.

(** C8 (amended).  In a catalogue returned by any of the three loaders every
    prompt in the list under a key has that key as its category, no key
    occurs twice and no list is empty; the lists together hold exactly the
    prompts the loader made, each once.  Ids are not checked: the catalogue
    of a Clean (Nested) document is free of duplicate ids when the ids
    reconstructed for the prompts of the document are pairwise distinct, and
    in general the ids in a catalogue are pairwise distinct exactly when
    those of the prompts it was grouped from are. *)
Theorem C8_catalogue_grouped_by_category
    (fetch : string -> Outcome Response) (yaml_load : string -> Outcome YamlDocument)
    (yamlText language : string) (g : CategoryGroup) :
  ordinary_language (toLowerCase language) = true ->
  produced_by_a_loader fetch yaml_load yamlText language g ->
  grouped_by_category g
  /\ (exists emitted,
         groupPrompts emitted = Return g
         /\ Permutation (allPromptsOf g) emitted
         /\ (NoDup (map id (allPromptsOf g)) <-> NoDup (map id emitted)))
  /\ (forall entries rest,
         yaml_load yamlText = Return (YamlUnified (CategoriesObject entries) rest) ->
         loadPromptsFromCleanStructure yaml_load yamlText language = Return g ->
         NoDup (map cleanSourceId (cleanSources entries)) ->
         NoDup (map id (allPromptsOf g)))
  /\ (forall categories multiPrompts,
         yaml_load yamlText
         = Return (YamlUnified (CategoriesArray categories) (Some multiPrompts)) ->
         loadPromptsFromNestedStructure yaml_load yamlText language = Return g ->
         NoDup (map nestedSourceId multiPrompts) ->
         NoDup (map id (allPromptsOf g))).
Proof.
  intros _ H. split; [|split; [|split]].
  - destruct (produced_by_a_loader_emitted _ _ _ _ _ H) as (emitted & Hgroup).
    apply (groupPrompts_spec _ _ Hgroup).
  - destruct (produced_by_a_loader_emitted _ _ _ _ _ H) as (emitted & Hgroup).
    destruct (groupPrompts_spec _ _ Hgroup) as [_ Hperm].
    exists emitted. split; [exact Hgroup|]. split; [exact Hperm|].
    now apply NoDup_map_Permutation.
  - intros entries rest Hload Hrun Hnd.
    destruct (loadPromptsFromCleanStructure_Return _ _ _ _ Hrun)
      as [(entries' & rest' & Hload' & Hgroup) | (items & rest' & Hload' & _)];
      rewrite Hload in Hload'; [injection Hload' as <- <- | discriminate].
    destruct (groupPrompts_spec _ _ Hgroup) as [_ Hperm].
    apply (NoDup_map_Permutation id _ _ Hperm).
    rewrite clean_emitted.
    apply (NoDup_ids_of_sources cleanSourceId); [|exact Hnd].
    intros s p Hp. now apply cleanPromptToPrompt_id in Hp.
  - intros categories multiPrompts Hload Hrun Hnd.
    destruct (loadPromptsFromNestedStructure_Return _ _ _ _ Hrun)
      as (categories' & multiPrompts' & Hload' & Hgroup).
    rewrite Hload in Hload'. injection Hload' as <- <-.
    destruct (groupPrompts_spec _ _ Hgroup) as [_ Hperm].
    apply (NoDup_map_Permutation id _ _ Hperm).
    apply (NoDup_ids_of_sources nestedSourceId); [|exact Hnd].
    intros s p Hp. now apply nestedPromptToPrompt_id in Hp.
Qed.

(** The German catalogue of the sample clean file. *)
Lemma C8_witness_german_catalogue :
  grouped_by_category germanCatalogue /\ NoDup (map id (allPromptsOf germanCatalogue)).
Proof.
  assert (Hrun : loadPromptsFromCleanStructure sampleParser cleanText "DE"
                 = Return germanCatalogue) by (vm_compute; reflexivity).
  destruct (C8_catalogue_grouped_by_category deadSite sampleParser cleanText "DE"
              germanCatalogue eq_refl (or_introl Hrun)) as (Hgrouped & _ & Hclean & _).
  split; [exact Hgrouped|].
  apply (Hclean cleanEntries None eq_refl Hrun).
  vm_compute. repeat constructor; simpl; intuition discriminate.
Defined.

(** Categories [B] and [B1] with prompts [11] and [1]: both prompts are
    loaded under the id [B11]. *)
Lemma C8_counterexample_duplicate_ids :
  exists g,
    loadPromptsFromCleanStructure sampleParser collisionText "EN" = Return g
    /\ map id (allPromptsOf g) = ["B11"; "B11"]
    /\ ~ NoDup (map id (allPromptsOf g)).
Proof.
  eexists. split; [vm_compute; reflexivity|]. split; [reflexivity|].
  simpl. intros H. inversion H as [| ? ? Hnotin _]; subst.
  apply Hnotin. now left.
Qed.

(** ** The reconstructed id *)

(** C1 (amended).  Take a category identifier [categoryId] and a sequence
    number [n].  A prompt numbered [n] under the key [categoryId] of a Clean
    document, and a prompt with [category_id] [categoryId] and [id] [n] of a
    Nested document, are loaded (when a translation is resolved, in Nested
    only under a listed category) under the id made of [categoryId] followed
    by the string of the number [n], with no separator: the same id from
    both, and every prompt in their catalogues has the id so made for the
    document prompt it comes from.  For [n] of magnitude below [2^53] the
    string of the number is its decimal digits.  Legacy reconstructs nothing:
    every document is loaded under the [id] it carries, whatever that says,
    and every prompt in its catalogue has the id of a document. *)
Theorem C1_id_is_category_then_number
    (fetch : string -> Outcome Response) (yaml_load : string -> Outcome YamlDocument)
    (yamlText language : string) (g : CategoryGroup) (categoryId : string) (n : Z) :
  ordinary_language (toLowerCase language) = true ->
  (forall entries rest,
      yaml_load yamlText = Return (YamlUnified (CategoriesObject entries) rest) ->
      loadPromptsFromCleanStructure yaml_load yamlText language = Return g ->
      (forall c cleanPrompt t,
          In (categoryId, c, cleanPrompt) (cleanSources entries) ->
          CleanPrompt.id cleanPrompt = n ->
          resolveTranslation (completeTranslation cleanPrompt) (toLowerCase language) = Some t ->
          exists p, In p (allPromptsOf g)
            /\ id p = (categoryId ++ numberToString n)%string
            /\ prompt p = trim (PromptTranslation.prompt t))
      /\ (forall p, In p (allPromptsOf g) ->
            exists s, In s (cleanSources entries) /\ id p = cleanSourceId s))
  /\ (forall categories multiPrompts,
         yaml_load yamlText
         = Return (YamlUnified (CategoriesArray categories) (Some multiPrompts)) ->
         loadPromptsFromNestedStructure yaml_load yamlText language = Return g ->
         (forall multiPrompt c t,
             In multiPrompt multiPrompts ->
             MultilingualPrompt.category_id multiPrompt = categoryId ->
             MultilingualPrompt.id multiPrompt = n ->
             obj_get (categoryMapOf categories) categoryId = Some c ->
             resolveTranslation (obj_get (MultilingualPrompt.translations multiPrompt))
               (toLowerCase language) = Some t ->
             exists p, In p (allPromptsOf g)
               /\ id p = (categoryId ++ numberToString n)%string
               /\ prompt p = trim (PromptTranslation.prompt t))
         /\ (forall p, In p (allPromptsOf g) ->
               exists multiPrompt,
                 In multiPrompt multiPrompts /\ id p = nestedSourceId multiPrompt))
  /\ ((Z.abs n < 2 ^ 53)%Z -> numberToString n = decimal n)
  /\ (forall response legacyText,
         fetch ("./prompts_" ++ language ++ ".yaml")%string = Return response ->
         text response = Return legacyText ->
         loadPromptsLegacy fetch yaml_load language = Return g ->
         (forall doc parsed,
             In doc (legacyDocuments legacyText) ->
             yaml_load (trim doc) = Return (YamlPrompt parsed) ->
             exists p, In p (allPromptsOf g)
               /\ id p = id parsed
               /\ prompt p = trim (prompt parsed))
         /\ (forall p, In p (allPromptsOf g) ->
               exists doc parsed,
                 yaml_load (trim doc) = Return (YamlPrompt parsed) /\ id p = id parsed)).
Proof.
  intros _. split; [|split; [|split]].
  - intros entries rest Hload Hrun.
    pose proof (clean_catalogue _ _ _ _ _ _ Hload Hrun) as Hcat. split.
    + intros c cleanPrompt t Hs Hn Ht.
      exists (promptOf (categoryId ++ numberToString n)%string
                (cleanCategoryName categoryId c (toLowerCase language)) t).
      split; [|split; reflexivity].
      apply Hcat. exists (categoryId, c, cleanPrompt). split; [exact Hs|]. simpl.
      now rewrite cleanPromptToPrompt_resolve, Ht, Hn.
    + intros p Hp. apply Hcat in Hp. destruct Hp as (s & Hs & Hp).
      exists s. split; [exact Hs|]. now apply cleanPromptToPrompt_id in Hp.
  - intros categories multiPrompts Hload Hrun.
    pose proof (nested_catalogue _ _ _ _ _ _ Hload Hrun) as Hcat. split.
    + intros multiPrompt c t Hin Hcid Hn Hc Ht.
      exists (promptOf (categoryId ++ numberToString n)%string
                (nestedCategoryName c (toLowerCase language) categoryId) t).
      split; [|split; reflexivity].
      apply Hcat. exists multiPrompt. split; [exact Hin|].
      rewrite nestedPromptToPrompt_resolve, Hcid, Hc, Ht. unfold nestedSourceId.
      now rewrite Hcid, Hn.
    + intros p Hp. apply Hcat in Hp. destruct Hp as (multiPrompt & Hin & Hp).
      exists multiPrompt. split; [exact Hin|]. now apply nestedPromptToPrompt_id in Hp.
  - apply numberToString_safe.
  - intros response legacyText Hfetch Htext Hrun. split.
    + intros doc parsed Hdoc Hparsed.
      pose proof (legacy_loaded _ _ _ _ _ _ _ _ Hfetch Htext Hrun Hdoc Hparsed) as Hin.
      eexists. split; [exact Hin|]. simpl. auto.
    + intros p Hp.
      destruct (legacy_catalogue _ _ _ _ Hrun p Hp) as (doc & parsed & Hload & ->).
      exists doc, parsed. auto.
Qed.

(** The sample clean file and the sample nested file, read in German:
    category identifier [B] and sequence number [1] give the id [B1] from
    both. *)
Lemma C1_witness_B1 :
  loadPromptsFromCleanStructure sampleParser cleanText "DE" = Return germanCatalogue
  /\ loadPromptsFromNestedStructure sampleParser nestedText "DE" = Return germanCatalogue
  /\ numberToString 1 = "1"
  /\ (exists p, In p (allPromptsOf germanCatalogue) /\ id p = "B1"
                /\ prompt p = "Beschreibe einen Wendepunkt.")
  /\ (exists p, In p (allPromptsOf germanCatalogue) /\ id p = "B1"
                /\ prompt p = "Beschreibe einen Wendepunkt.").
Proof.
  assert (Hclean : loadPromptsFromCleanStructure sampleParser cleanText "DE"
                   = Return germanCatalogue) by (vm_compute; reflexivity).
  assert (Hnested : loadPromptsFromNestedStructure sampleParser nestedText "DE"
                    = Return germanCatalogue) by (vm_compute; reflexivity).
  split; [exact Hclean|]. split; [exact Hnested|]. split; [|split].
  - destruct (C1_id_is_category_then_number deadSite sampleParser cleanText "DE"
                germanCatalogue "B" 1 eq_refl) as (_ & _ & Hdigits & _).
    rewrite Hdigits; reflexivity.
  - destruct (C1_id_is_category_then_number deadSite sampleParser cleanText "DE"
                germanCatalogue "B" 1 eq_refl) as (Hloaded & _).
    destruct (Hloaded cleanEntries None eq_refl Hclean) as (Hmade & _).
    apply (Hmade biography turningPoint
             (translation "Beschreibe einen Wendepunkt." "Denke nach.")).
    + simpl. auto.
    + reflexivity.
    + reflexivity.
  - destruct (C1_id_is_category_then_number deadSite sampleParser nestedText "DE"
                germanCatalogue "B" 1 eq_refl) as (_ & Hloaded & _).
    destruct (Hloaded nestedCategories nestedPrompts eq_refl Hnested) as (Hmade & _).
    apply (Hmade nestedTurningPoint nestedBiography
             (translation "Beschreibe einen Wendepunkt." "Denke nach.")).
    + simpl. auto.
    + reflexivity.
    + reflexivity.
    + reflexivity.
    + reflexivity.
Defined.

(** The sample legacy file holds a document that calls itself [intro]: the
    prompt loaded from it has that id, which is no identifier followed by a
    number. *)
Lemma C1_counterexample_legacy_id :
  loadPromptsLegacy legacySite sampleParser "EN" = Return legacyCatalogue
  /\ exists p, In p (allPromptsOf legacyCatalogue)
       /\ id p = "intro"
       /\ category p = "Biography"
       /\ forall categoryId n, id p <> (categoryId ++ numberToString n)%string.
Proof.
  split; [vm_compute; reflexivity|].
  exists legacySecond. split; [simpl; auto|]. split; [reflexivity|].
  split; [reflexivity|].
  intros categoryId n Heq.
  destruct (composite_id_last categoryId n) as (c & Hc & Hd).
  rewrite <- Heq in Hc. vm_compute in Hc. injection Hc as <-.
  destruct Hd; discriminate.
Qed.

(** From [2^53] on the string of a number is no longer its decimal digits: it
    is the shortest that reads back as the same Number, and in exponent form
    from [10^21] on. *)
Remark large_numbers_are_shortened :
  numberToString (2 ^ 64) = "18446744073709552000"
  /\ decimal (2 ^ 64) = "18446744073709551616"
  /\ numberToString (2 ^ 53 + 1) = "9007199254740992"
  /\ numberToString (10 ^ 21) = "1e+21"
  /\ numberToString (10 ^ 21 + 1) = "1e+21"
  /\ numberToString 123456789012345678901234567890 = "1.2345678901234568e+29".
Proof.
  repeat split; vm_compute; reflexivity.
Qed.


(** ** Language fallback *)

(** C6 (amended).  For a prompt of a Clean document, a translation counts
    when it is an object with a non-empty prompt and a non-empty purpose
    ([completeTranslation]); for a prompt of a Nested document whose
    [category_id] names a listed category, a translation counts when it is
    present.  The translation for the requested language code is used if it
    counts, else the English one if it counts, else the prompt is skipped; a
    Nested prompt whose category is not listed is skipped whatever its
    translations.  The prompt made of the chosen translation is in the
    catalogue; when the reconstructed ids of the document are pairwise
    distinct, [findPromptById] on the prompt's id returns exactly it, and
    returns nothing for a skipped prompt, whose id then occurs in no list. *)
Theorem C6_language_fallback
    (yaml_load : string -> Outcome YamlDocument) (yamlText language : string)
    (g : CategoryGroup) :
  ordinary_language (toLowerCase language) = true ->
  (forall entries rest categoryId c cleanPrompt,
      yaml_load yamlText = Return (YamlUnified (CategoriesObject entries) rest) ->
      loadPromptsFromCleanStructure yaml_load yamlText language = Return g ->
      In (categoryId, c, cleanPrompt) (cleanSources entries) ->
      let made :=
        option_map
          (promptOf (cleanSourceId (categoryId, c, cleanPrompt))
             (cleanCategoryName categoryId c (toLowerCase language)))
          (resolveTranslation (completeTranslation cleanPrompt) (toLowerCase language)) in
      (forall p, made = Some p -> In p (allPromptsOf g))
      /\ (NoDup (map cleanSourceId (cleanSources entries)) ->
          findPromptById g (cleanSourceId (categoryId, c, cleanPrompt)) = made
          /\ (made = None ->
              forall p, In p (allPromptsOf g) ->
                id p <> cleanSourceId (categoryId, c, cleanPrompt))))
  /\ (forall categories multiPrompts multiPrompt,
         yaml_load yamlText
         = Return (YamlUnified (CategoriesArray categories) (Some multiPrompts)) ->
         loadPromptsFromNestedStructure yaml_load yamlText language = Return g ->
         In multiPrompt multiPrompts ->
         let made :=
           match obj_get (categoryMapOf categories)
                   (MultilingualPrompt.category_id multiPrompt) with
           | Some c =>
               option_map
                 (promptOf (nestedSourceId multiPrompt)
                    (nestedCategoryName c (toLowerCase language)
                       (MultilingualPrompt.category_id multiPrompt)))
                 (resolveTranslation (obj_get (MultilingualPrompt.translations multiPrompt))
                    (toLowerCase language))
           | None => None
           end in
         (forall p, made = Some p -> In p (allPromptsOf g))
         /\ (NoDup (map nestedSourceId multiPrompts) ->
             findPromptById g (nestedSourceId multiPrompt) = made
             /\ (made = None ->
                 forall p, In p (allPromptsOf g) -> id p <> nestedSourceId multiPrompt))).
Proof.
  intros _. split.
  - intros entries rest categoryId c cleanPrompt Hload Hrun Hs made.
    pose proof (clean_catalogue _ _ _ _ _ _ Hload Hrun) as Hcat.
    assert (Hmade : cleanPromptToPrompt categoryId
                      (cleanCategoryName categoryId c (toLowerCase language))
                      (toLowerCase language) cleanPrompt = made)
      by apply cleanPromptToPrompt_resolve.
    split.
    + intros p Hp. apply Hcat. exists (categoryId, c, cleanPrompt).
      split; [exact Hs|]. simpl. now rewrite Hmade.
    + intros Hnd.
      assert (Hfind : findPromptById g (cleanSourceId (categoryId, c, cleanPrompt)) = made).
      { rewrite <- Hmade.
        apply (findPromptById_of_source (cleanSources entries) cleanSourceId
                 (fun s => cleanPromptToPrompt (fst (fst s))
                             (cleanCategoryName (fst (fst s)) (snd (fst s))
                                (toLowerCase language))
                             (toLowerCase language) (snd s))
                 g (categoryId, c, cleanPrompt)); auto.
        intros s p Hp. now apply cleanPromptToPrompt_id in Hp. }
      split; [exact Hfind|].
      intros Hnone. apply findPromptById_None. now rewrite Hfind.
  - intros categories multiPrompts multiPrompt Hload Hrun Hin made.
    pose proof (nested_catalogue _ _ _ _ _ _ Hload Hrun) as Hcat.
    assert (Hmade : nestedPromptToPrompt (categoryMapOf categories) (toLowerCase language)
                      multiPrompt = made)
      by apply nestedPromptToPrompt_resolve.
    split.
    + intros p Hp. apply Hcat. exists multiPrompt. split; [exact Hin|].
      now rewrite Hmade.
    + intros Hnd.
      assert (Hfind : findPromptById g (nestedSourceId multiPrompt) = made).
      { rewrite <- Hmade.
        apply (findPromptById_of_source multiPrompts nestedSourceId
                 (nestedPromptToPrompt (categoryMapOf categories) (toLowerCase language))
                 g multiPrompt); auto.
        intros s p Hp. now apply nestedPromptToPrompt_id in Hp. }
      split; [exact Hfind|].
      intros Hnone. apply findPromptById_None. now rewrite Hfind.
Qed.

(** The sample clean file asked for German: [B1] has a German translation,
    which is found; [B2] has none and is found with its English text; [G1]
    has no translation and is not found. *)
Lemma C6_witness_german :
  findPromptById germanCatalogue "B1"
  = Some {| id := "B1"; category := "Biografie";
            prompt := "Beschreibe einen Wendepunkt."; purpose := "Denke nach." |}
  /\ findPromptById germanCatalogue "B2"
     = Some {| id := "B2"; category := "Biografie";
               prompt := "Name a mentor."; purpose := "Practise gratitude." |}
  /\ findPromptById germanCatalogue "G1" = None.
Proof.
  assert (Hrun : loadPromptsFromCleanStructure sampleParser cleanText "DE"
                 = Return germanCatalogue) by (vm_compute; reflexivity).
  assert (Hnd : NoDup (map cleanSourceId (cleanSources cleanEntries))).
  { vm_compute. repeat constructor; simpl; intuition discriminate. }
  destruct (C6_language_fallback sampleParser cleanText "DE" germanCatalogue eq_refl)
    as [Hclean _].
  pose proof (fun categoryId c cleanPrompt Hs =>
                proj1 (proj2 (Hclean cleanEntries None categoryId c cleanPrompt
                                eq_refl Hrun Hs) Hnd)) as Hfind.
  split; [|split].
  - apply (Hfind "B" biography turningPoint). simpl. auto.
  - apply (Hfind "B" biography mentor). simpl. auto.
  - apply (Hfind "G" goals untranslated). simpl. auto.
Defined.

(** A requested translation that exists and is not used.  In the clean file
    the German entry of [B1] has its prompt text and an empty purpose: the
    English text is loaded.  In the nested file the prompt has a German
    translation but names an unlisted category: nothing is loaded.  And a
    skipped prompt whose id is found all the same: prompt [11] of [B] has no
    translation, but prompt [1] of [B1] is loaded under the id [B11]. *)
Lemma C6_counterexample_translation_unused :
  (obj_get (CleanPrompt.translations incompletePrompt) "de"
   = Some (translation "Beschreibe einen Wendepunkt." "")
   /\ exists g,
        loadPromptsFromCleanStructure sampleParser incompleteText "DE" = Return g
        /\ allPromptsOf g
           = [ {| id := "B1"; category := "Biografie";
                  prompt := "Describe a turning point."; purpose := "Reflect on change." |} ])
  /\ (obj_get (MultilingualPrompt.translations danglingPrompt) "de"
      = Some (translation "Beschreibe einen Wendepunkt." "Denke nach.")
      /\ loadPromptsFromNestedStructure sampleParser danglingText "DE" = Return [])
  /\ (In ("B", silentCategory, silentPrompt) (cleanSources shadowEntries)
      /\ CleanPrompt.translations silentPrompt = []
      /\ exists g,
           loadPromptsFromCleanStructure sampleParser shadowText "EN" = Return g
           /\ findPromptById g (cleanSourceId ("B", silentCategory, silentPrompt))
              = Some {| id := "B11"; category := "Beginnings";
                        prompt := "Recall a first day."; purpose := "Notice how you start." |}).
Proof.
  split; [|split].
  - split; [reflexivity|]. eexists. split; vm_compute; reflexivity.
  - split; [reflexivity | vm_compute; reflexivity].
  - split; [simpl; auto|]. split; [reflexivity|].
    eexists. split; vm_compute; reflexivity.
Qed.


(** ** The loader chain *)

Lemma loadPromptsFromUnified_unfold fetch yaml_load language :
  loadPromptsFromUnified fetch yaml_load language
  = bind (unifiedText fetch)
      (fun yamlText =>
         try_catch (loadPromptsFromCleanStructure yaml_load yamlText language)
           (fun _ => loadPromptsFromNestedStructure yaml_load yamlText language)).
Proof.
  unfold loadPromptsFromUnified, unifiedText.
  destruct (fetch "./journal-prompts.yaml") as [response | e]; simpl; [|reflexivity].
  destruct (ok response); reflexivity.
Qed.

Lemma loadPrompts_unfold fetch yaml_load language :
  loadPrompts fetch yaml_load language
  = match loadPromptsFromUnified fetch yaml_load (requestedLanguage language) with
    | Return g => Return g
    | Throw _ => loadPromptsLegacy fetch yaml_load (requestedLanguage language)
    end.
Proof.
  unfold loadPrompts, try_catch, requestedLanguage.
  destruct (loadPromptsFromUnified fetch yaml_load _); [reflexivity|].
  destruct (loadPromptsLegacy fetch yaml_load _); reflexivity.
Qed.

(** C2 (amended).  [loadPrompts] tries Clean, then Nested, then Legacy, and
    returns the result of the first of them that returns at all: a
    normalizer loses only by throwing.  A catalogue returned by Clean wins
    even when it is empty, and then neither Nested nor Legacy is tried. *)
Theorem C2_first_returning_normalizer_wins
    (fetch : string -> Outcome Response) (yaml_load : string -> Outcome YamlDocument)
    (language : option string) :
  match unifiedText fetch with
  | Return yamlText =>
      loadPrompts fetch yaml_load language
      = match loadPromptsFromCleanStructure yaml_load yamlText (requestedLanguage language) with
        | Return g => Return g
        | Throw _ =>
            match loadPromptsFromNestedStructure yaml_load yamlText
                    (requestedLanguage language) with
            | Return g => Return g
            | Throw _ => loadPromptsLegacy fetch yaml_load (requestedLanguage language)
            end
        end
  | Throw _ =>
      loadPrompts fetch yaml_load language
      = loadPromptsLegacy fetch yaml_load (requestedLanguage language)
  end.
Proof.
  rewrite loadPrompts_unfold, loadPromptsFromUnified_unfold.
  destruct (unifiedText fetch) as [yamlText | e]; simpl; [|reflexivity].
  destruct (loadPromptsFromCleanStructure yaml_load yamlText _); simpl; [reflexivity|].
  destruct (loadPromptsFromNestedStructure yaml_load yamlText _); reflexivity.
Qed.

(** The unified file holds an empty [categories] mapping and the legacy file
    two prompts: Clean returns the empty catalogue, and that is what
    [loadPrompts] returns. *)
Lemma C2_counterexample_empty_catalogue_wins :
  loadPromptsFromCleanStructure sampleParser emptyText "EN" = Return []
  /\ (exists e, loadPromptsFromNestedStructure sampleParser emptyText "EN" = Throw e)
  /\ loadPromptsLegacy emptySite sampleParser "EN" = Return legacyCatalogue
  /\ loadPrompts emptySite sampleParser (Some "EN") = Return [].
Proof.
  split; [vm_compute; reflexivity|].
  split; [eexists; vm_compute; reflexivity|].
  split; vm_compute; reflexivity.
Qed.

(** A consequence for unified files in the nested structure: their
    [categories] member is an array, which passes the test Clean makes of it,
    so Clean returns the empty catalogue and Nested is never tried. *)
Remark nested_file_loads_empty
    (fetch : string -> Outcome Response) (yaml_load : string -> Outcome YamlDocument)
    (language : option string) (yamlText : string)
    (categories : list Category.t) (multiPrompts : option (list MultilingualPrompt.t)) :
  unifiedText fetch = Return yamlText ->
  yaml_load yamlText = Return (YamlUnified (CategoriesArray categories) multiPrompts) ->
  loadPrompts fetch yaml_load language = Return [].
Proof.
  intros Htext Hload.
  rewrite loadPrompts_unfold, loadPromptsFromUnified_unfold, Htext. simpl.
  unfold loadPromptsFromCleanStructure. rewrite Hload. reflexivity.
Qed.

(** C7.  When the unified file cannot be had or both Clean and Nested throw
    on it, and Legacy throws too, [loadPrompts] throws (the error Legacy
    threw) and returns no catalogue.  A catalogue [loadPrompts] does return
    is the whole result of one of the three normalizers. *)
Theorem C7_all_normalizers_fail
    (fetch : string -> Outcome Response) (yaml_load : string -> Outcome YamlDocument)
    (language : option string) :
  (forall e,
      (forall yamlText, unifiedText fetch = Return yamlText ->
         (exists e1, loadPromptsFromCleanStructure yaml_load yamlText
                       (requestedLanguage language) = Throw e1)
         /\ (exists e2, loadPromptsFromNestedStructure yaml_load yamlText
                          (requestedLanguage language) = Throw e2)) ->
      loadPromptsLegacy fetch yaml_load (requestedLanguage language) = Throw e ->
      loadPrompts fetch yaml_load language = Throw e)
  /\ (forall g,
         loadPrompts fetch yaml_load language = Return g ->
         (exists yamlText,
             unifiedText fetch = Return yamlText
             /\ (loadPromptsFromCleanStructure yaml_load yamlText (requestedLanguage language)
                 = Return g
                 \/ loadPromptsFromNestedStructure yaml_load yamlText
                      (requestedLanguage language) = Return g))
         \/ loadPromptsLegacy fetch yaml_load (requestedLanguage language) = Return g).
Proof.
  split.
  - intros e Hunified Hlegacy.
    rewrite loadPrompts_unfold, loadPromptsFromUnified_unfold.
    destruct (unifiedText fetch) as [yamlText | e0]; simpl; [|exact Hlegacy].
    destruct (Hunified yamlText eq_refl) as [[e1 H1] [e2 H2]].
    rewrite H1. simpl. rewrite H2. exact Hlegacy.
  - intros g. rewrite loadPrompts_unfold, loadPromptsFromUnified_unfold.
    destruct (unifiedText fetch) as [yamlText | e0]; simpl; [|auto].
    destruct (loadPromptsFromCleanStructure yaml_load yamlText _) as [g1 | e1] eqn:H1; simpl.
    + intros [= <-]. left. eauto.
    + destruct (loadPromptsFromNestedStructure yaml_load yamlText _) as [g2 | e2] eqn:H2.
      * intros [= <-]. left. eauto.
      * auto.
Qed.

(** Nothing is served: both fetches are answered 404.  And: the unified file
    is served but is no single YAML document, so Clean and Nested both throw,
    and there is no legacy file. *)
Lemma C7_witness_nothing_loads :
  loadPrompts deadSite sampleParser (Some "EN")
  = Throw (JsError "Failed to fetch legacy prompts: Not Found")
  /\ loadPrompts brokenSite sampleParser None
     = Throw (JsError "Failed to fetch legacy prompts: Not Found").
Proof.
  split.
  - apply (proj1 (C7_all_normalizers_fail deadSite sampleParser (Some "EN"))).
    + intros yamlText H. vm_compute in H. discriminate.
    + vm_compute. reflexivity.
  - apply (proj1 (C7_all_normalizers_fail brokenSite sampleParser None)).
    + intros yamlText H. vm_compute in H. injection H as <-.
      split; eexists; vm_compute; reflexivity.
    + vm_compute. reflexivity.
Defined.

(** ** Case of the language code *)

Lemma lower_ascii_idempotent c : lower_ascii (lower_ascii c) = lower_ascii c.
Proof.
  destruct c as [[] [] [] [] [] [] [] []]; reflexivity.
Qed.

Lemma toLowerCase_idempotent s : toLowerCase (toLowerCase s) = toLowerCase s.
Proof.
  induction s as [| c s IH]; simpl; [reflexivity|].
  now rewrite lower_ascii_idempotent, IH.
Qed.

Lemma loadPromptsFromCleanStructure_lower yaml_load yamlText language :
  loadPromptsFromCleanStructure yaml_load yamlText (toLowerCase language)
  = loadPromptsFromCleanStructure yaml_load yamlText language.
Proof.
  unfold loadPromptsFromCleanStructure. now rewrite toLowerCase_idempotent.
Qed.

Lemma loadPromptsFromNestedStructure_lower yaml_load yamlText language :
  loadPromptsFromNestedStructure yaml_load yamlText (toLowerCase language)
  = loadPromptsFromNestedStructure yaml_load yamlText language.
Proof.
  unfold loadPromptsFromNestedStructure. now rewrite toLowerCase_idempotent.
Qed.

(** C9 (amended).  The Clean and the Nested normalizer, and with them the
    unified path, give the same outcome for a language code and for its
    lower-cased form, that of [String.prototype.toLowerCase]; whenever the
    unified path returns, so does [loadPrompts] for both spellings, with the
    same catalogue.  The Legacy
    loader does not lower-case: it requests [./prompts_<language>.yaml] with
    the code as given, and its outcome is that of this one request. *)
Theorem C9_language_code_case
    (fetch : string -> Outcome Response) (yaml_load : string -> Outcome YamlDocument)
    (yamlText language : string) :
  loadPromptsFromCleanStructure yaml_load yamlText language
  = loadPromptsFromCleanStructure yaml_load yamlText (toLowerCase language)
  /\ loadPromptsFromNestedStructure yaml_load yamlText language
     = loadPromptsFromNestedStructure yaml_load yamlText (toLowerCase language)
  /\ loadPromptsFromUnified fetch yaml_load language
     = loadPromptsFromUnified fetch yaml_load (toLowerCase language)
  /\ (forall g,
         loadPromptsFromUnified fetch yaml_load language = Return g ->
         loadPrompts fetch yaml_load (Some language) = Return g
         /\ loadPrompts fetch yaml_load (Some (toLowerCase language)) = Return g)
  /\ (forall fetch' : string -> Outcome Response,
         fetch' ("./prompts_" ++ language ++ ".yaml")%string
         = fetch ("./prompts_" ++ language ++ ".yaml")%string ->
         loadPromptsLegacy fetch' yaml_load language
         = loadPromptsLegacy fetch yaml_load language).
Proof.
  assert (Hunified : loadPromptsFromUnified fetch yaml_load language
                     = loadPromptsFromUnified fetch yaml_load (toLowerCase language)).
  { rewrite !loadPromptsFromUnified_unfold.
    destruct (unifiedText fetch); simpl; [|reflexivity].
    now rewrite loadPromptsFromCleanStructure_lower, loadPromptsFromNestedStructure_lower. }
  split; [now rewrite loadPromptsFromCleanStructure_lower|].
  split; [now rewrite loadPromptsFromNestedStructure_lower|].
  split; [exact Hunified|]. split.
  - intros g Hg. rewrite !loadPrompts_unfold. simpl.
    rewrite <- Hunified, Hg. auto.
  - intros fetch' Hsame. unfold loadPromptsLegacy. now rewrite Hsame.
Qed.

(** The sample clean file gives the same catalogue for [DE] and [de]; and a
    file with a translation under a code that starts with U+00E9 gives that
    translation for the code that starts with the capital U+00C9. *)
Lemma C9_witness_unified :
  (loadPrompts cleanSite sampleParser (Some "DE") = Return germanCatalogue
   /\ loadPrompts cleanSite sampleParser (Some (toLowerCase "DE")) = Return germanCatalogue)
  /\ toLowerCase capitalCode = smallCode
  /\ loadPromptsFromCleanStructure latinParser latinText smallCode = Return latinCatalogue
  /\ loadPromptsFromCleanStructure latinParser latinText capitalCode = Return latinCatalogue.
Proof.
  split; [|split; [reflexivity|split]].
  - apply (proj1 (proj2 (proj2 (proj2
             (C9_language_code_case cleanSite sampleParser cleanText "DE"))))).
    vm_compute. reflexivity.
  - vm_compute. reflexivity.
  - rewrite (proj1 (C9_language_code_case deadSite latinParser latinText capitalCode)).
    vm_compute. reflexivity.
Defined.

(** Only [./prompts_EN.yaml] is served: asked for [EN] the chain returns the
    legacy catalogue, asked for [en] it requests [./prompts_en.yaml] and
    throws. *)
Lemma C9_counterexample_legacy_case :
  loadPrompts legacySite sampleParser (Some "EN") = Return legacyCatalogue
  /\ toLowerCase "EN" = "en"
  /\ loadPrompts legacySite sampleParser (Some (toLowerCase "EN"))
     = Throw (JsError "Failed to fetch legacy prompts: Not Found").
Proof.
  repeat split; vm_compute; reflexivity.
Qed.


(** ** Random selection *)

Lemma getRandomPrompt_In prompts random p :
  getRandomPrompt prompts random = Some p -> In p prompts.
Proof.
  unfold getRandomPrompt. destruct (_ <? _)%Z; [discriminate|]. apply nth_error_In.
Qed.

Lemma getRandomPrompt_Some prompts random :
  prompts <> [] -> is_random_value random = true ->
  exists p, getRandomPrompt prompts random = Some p /\ In p prompts.
Proof.
  intros Hne Hr.
  assert (Hlen : (0 < List.length prompts)%nat)
    by (destruct prompts; [contradiction | simpl; lia]).
  pose proof (randomIndexOf_bound random _ Hr Hlen) as [Hlo Hhi].
  destruct (getRandomPrompt prompts random) as [p|] eqn:E.
  - exists p. split; [reflexivity | now apply getRandomPrompt_In in E].
  - exfalso. unfold getRandomPrompt in E.
    destruct (_ <? _)%Z eqn:Hneg; [apply Z.ltb_lt in Hneg; lia|].
    apply nth_error_None in E. lia.
Qed.

(** C10.  For a value [Math.random] can return and a non-empty array, the
    index [Math.floor(random * length)] lies within the array and
    [getRandomPrompt] returns one of its elements; on the empty array the
    access is out of range and yields [undefined]. *)
Theorem C10_getRandomPrompt_in_bounds (prompts : list Prompt) (random : Z) :
  is_random_value random = true ->
  (prompts <> [] ->
   (0 <= randomIndexOf random (List.length prompts) < Z.of_nat (List.length prompts))%Z
   /\ exists p, getRandomPrompt prompts random = Some p /\ In p prompts)
  /\ getRandomPrompt [] random = None.
Proof.
  intros Hr. split.
  - intros Hne. split; [|now apply getRandomPrompt_Some].
    apply randomIndexOf_bound; [exact Hr|].
    destruct prompts; [contradiction | simpl; lia].
  - unfold getRandomPrompt, randomIndexOf. simpl. rewrite Z.mul_0_r. reflexivity.
Qed.

(** The largest value below one, [1 - 2^-53], on an array of two. *)
Lemma C10_witness_largest_value :
  (0 <= randomIndexOf (2 ^ 1074 - 2 ^ 1021) 2 < 2)%Z
  /\ exists p,
       getRandomPrompt [twinFirst; twinSecond] (2 ^ 1074 - 2 ^ 1021) = Some p
       /\ In p [twinFirst; twinSecond].
Proof.
  apply (proj1 (C10_getRandomPrompt_in_bounds [twinFirst; twinSecond]
                  (2 ^ 1074 - 2 ^ 1021) eq_refl)).
  discriminate.
Defined.


(** ** The no-repeat selection *)

Lemma displayPrompt_Some p app supply :
  wasOpenedWithDeepLink app = false ->
  displayPrompt (Some p) app supply = Done tt (shown p app) supply.
Proof.
  intros H. destruct app. simpl in H. subst. reflexivity.
Qed.

(** [selectNewPrompt] when the application is pinned to a category of the
    catalogue and shows a prompt. *)
Lemma selectNewPrompt_pinned app prompts current random supply :
  isPinned app = true ->
  truthy (currentCategory app) = true ->
  obj_get (categoryGroups app) (currentCategory app) = Some prompts ->
  currentPrompt app = Some current ->
  selectNewPrompt app (random :: supply)
  = if (1 <? List.length prompts)%nat
    then
      match resample prompts current (getRandomPrompt prompts random) (reloading app) supply with
      | Done newPrompt app' rest => displayPrompt newPrompt app' rest
      | Raised e => Raised e
      | Starved => Starved
      end
    else displayPrompt (getRandomPrompt prompts random) (reloading app) supply.
Proof.
  destruct app as [groups cat cur pinned pv opened query]. simpl.
  intros -> Hcat Hget ->.
  unfold selectNewPrompt, lookupCategory.
  cbn -[displayPrompt resample getRandomPrompt truthy obj_get Nat.ltb].
  rewrite Hcat, Hget.
  cbn -[displayPrompt resample getRandomPrompt truthy obj_get Nat.ltb].
  destruct (1 <? List.length prompts)%nat; reflexivity.
Qed.

Lemma resample_Done prompts current supply : forall newPrompt app result app' rest,
  resample prompts current newPrompt app supply = Done result app' rest ->
  app' = app
  /\ exists p, result = Some p
       /\ prompt p <> prompt current
       /\ (newPrompt = Some p
           \/ exists random, In random supply /\ getRandomPrompt prompts random = Some p).
Proof.
  induction supply as [| random supply IH]; intros newPrompt app result app' rest H;
    destruct newPrompt as [candidate|]; simpl in H; try discriminate.
  - destruct (prompt candidate =? prompt current) eqn:E; [discriminate|].
    injection H as <- <- <-. apply String.eqb_neq in E.
    split; [reflexivity|]. exists candidate. auto.
  - destruct (prompt candidate =? prompt current) eqn:E.
    + destruct (IH _ _ _ _ _ H) as (-> & p & -> & Hp & Hfrom).
      split; [reflexivity|]. exists p. split; [reflexivity|]. split; [exact Hp|].
      right. destruct Hfrom as [Hfrom | (r & Hr & Hfrom)].
      * exists random. split; [now left | exact Hfrom].
      * exists r. split; [now right | exact Hfrom].
    + injection H as <- <- <-. apply String.eqb_neq in E.
      split; [reflexivity|]. exists candidate. auto.
Qed.

Lemma resample_returns prompts current supply : forall candidate app,
  prompts <> [] ->
  Forall (fun random => is_random_value random = true) supply ->
  (prompt candidate <> prompt current
   \/ exists random p, In random supply
        /\ getRandomPrompt prompts random = Some p /\ prompt p <> prompt current) ->
  exists p rest, resample prompts current (Some candidate) app supply = Done (Some p) app rest.
Proof.
  induction supply as [| random supply IH]; intros candidate app Hne Hvalid Hsome; simpl.
  - destruct Hsome as [Hdiff | (r & p & [] & _)].
    apply String.eqb_neq in Hdiff. rewrite Hdiff. eauto.
  - destruct (prompt candidate =? prompt current) eqn:E; [|eauto].
    apply String.eqb_eq in E.
    inversion Hvalid as [| ? ? Hr Hvalid']; subst.
    destruct (getRandomPrompt_Some prompts random Hne Hr) as (q & Hq & _).
    rewrite Hq. apply IH; auto.
    destruct Hsome as [Hdiff | (r & p & [<- | Hin] & Hp & Hdiff)]; [contradiction | |].
    + left. rewrite Hq in Hp. now injection Hp as <-.
    + right. eauto.
Qed.

(** C3 (amended).  The application is pinned to a category of the catalogue
    and shows a prompt.  With more than one prompt in the category, whatever
    [selectNewPrompt] ends up showing is a prompt of the category whose text
    differs from the text shown before, and it does end as soon as one of the
    values [Math.random] returns lands on such a prompt.  With exactly one
    prompt it shows that prompt, after one call of [Math.random]. *)
Theorem C3_no_repeat_selection
    (app : App) (prompts : list Prompt) (current : Prompt) (supply : list Z) :
  isPinned app = true ->
  truthy (currentCategory app) = true ->
  obj_get (categoryGroups app) (currentCategory app) = Some prompts ->
  currentPrompt app = Some current ->
  Forall (fun random => is_random_value random = true) supply ->
  ((1 < List.length prompts)%nat ->
   (forall app' rest,
       selectNewPrompt app supply = Done tt app' rest ->
       exists p, currentPrompt app' = Some p /\ In p prompts /\ prompt p <> prompt current)
   /\ ((exists random p, In random supply
          /\ getRandomPrompt prompts random = Some p /\ prompt p <> prompt current) ->
       exists app' rest, selectNewPrompt app supply = Done tt app' rest))
  /\ (forall only,
         prompts = [only] -> supply <> [] ->
         exists app' rest,
           selectNewPrompt app supply = Done tt app' rest /\ currentPrompt app' = Some only).
Proof.
  intros Hpinned Hcat Hget Hcur Hvalid.
  assert (Hreload : wasOpenedWithDeepLink (reloading app) = false) by (destruct app; reflexivity).
  split.
  - intros Hlen.
    assert (Hne : prompts <> []) by (destruct prompts; [simpl in Hlen; lia | discriminate]).
    apply Nat.ltb_lt in Hlen. split.
    + intros app' rest Hrun.
      destruct supply as [| random supply].
      { exfalso. destruct app as [groups cat cur pinned pv opened query]. simpl in *. subst.
        unfold selectNewPrompt in Hrun. cbn in Hrun. rewrite Hcat in Hrun. cbn in Hrun.
        discriminate. }
      rewrite (selectNewPrompt_pinned _ _ _ _ _ Hpinned Hcat Hget Hcur), Hlen in Hrun.
      destruct (resample prompts current (getRandomPrompt prompts random) (reloading app) supply)
        as [result app2 rest2 | e |] eqn:Hloop; try discriminate.
      destruct (resample_Done _ _ _ _ _ _ _ _ Hloop) as (-> & p & -> & Hdiff & Hfrom).
      rewrite (displayPrompt_Some _ _ _ Hreload) in Hrun. injection Hrun as <- <-.
      exists p. split; [destruct app; reflexivity|]. split; [|exact Hdiff].
      destruct Hfrom as [Hfrom | (r & _ & Hfrom)]; now apply getRandomPrompt_In in Hfrom.
    + intros (random' & p & Hin & Hp & Hdiff).
      destruct supply as [| random supply]; [destruct Hin|].
      rewrite (selectNewPrompt_pinned _ _ _ _ _ Hpinned Hcat Hget Hcur), Hlen.
      inversion Hvalid as [| ? ? Hr Hvalid']; subst.
      destruct (getRandomPrompt_Some prompts random Hne Hr) as (q & Hq & _).
      rewrite Hq.
      destruct (resample_returns prompts current supply q (reloading app) Hne Hvalid')
        as (r & rest & Hloop).
      { destruct Hin as [<- | Hin].
        - left. rewrite Hq in Hp. now injection Hp as <-.
        - right. eauto. }
      rewrite Hloop, (displayPrompt_Some _ _ _ Hreload). eauto.
  - intros only -> Hsupply.
    destruct supply as [| random supply]; [contradiction|].
    rewrite (selectNewPrompt_pinned _ _ _ _ _ Hpinned Hcat Hget Hcur). simpl.
    inversion Hvalid as [| ? ? Hr _]; subst.
    destruct (getRandomPrompt_Some [only] random ltac:(discriminate) Hr) as (q & Hq & [<- | []]).
    rewrite Hq, (displayPrompt_Some _ _ _ Hreload).
    eexists _, _. split; [reflexivity|]. destruct app; reflexivity.
Qed.

(** Pinned to [Biography] and showing [B1]: the first value drawn lands on
    [B1] again, the second on the other prompt. *)
Lemma C3_witness_second_draw :
  exists app' rest, selectNewPrompt pinnedApp [0%Z; oneHalf] = Done tt app' rest.
Proof.
  assert (Hvalid : Forall (fun random => is_random_value random = true) [0%Z; oneHalf])
    by (repeat constructor).
  destruct (C3_no_repeat_selection pinnedApp [legacyFirst; legacySecond] legacyFirst
              [0%Z; oneHalf] eq_refl eq_refl eq_refl eq_refl Hvalid) as [Hmany _].
  apply (proj2 (Hmany ltac:(simpl; lia))).
  exists oneHalf, legacySecond. split; [simpl; auto|].
  split; [vm_compute; reflexivity | discriminate].
Defined.

Lemma resample_same_text prompts current supply newPrompt app result app' rest :
  (forall p, In p prompts -> prompt p = prompt current) ->
  (forall p, newPrompt = Some p -> In p prompts) ->
  resample prompts current newPrompt app supply <> Done result app' rest.
Proof.
  intros Hsame Hnew Hrun.
  destruct (resample_Done _ _ _ _ _ _ _ _ Hrun) as (_ & p & _ & Hdiff & Hfrom).
  apply Hdiff, Hsame.
  destruct Hfrom as [Hfrom | (r & _ & Hfrom)]; [now apply Hnew | now apply getRandomPrompt_In in Hfrom].
Qed.

(** Two prompts with the same text, the first of them on show: whatever
    [Math.random] returns, [selectNewPrompt] never comes to show a prompt. *)
Lemma C3_counterexample_same_text :
  (1 < List.length [twinFirst; twinSecond])%nat
  /\ ~ exists supply app' rest, selectNewPrompt twinsApp supply = Done tt app' rest.
Proof.
  split; [simpl; lia|].
  intros (supply & app' & rest & Hrun).
  destruct supply as [| random supply]; [vm_compute in Hrun; discriminate|].
  rewrite (selectNewPrompt_pinned twinsApp [twinFirst; twinSecond] twinFirst random supply
             eq_refl eq_refl eq_refl eq_refl) in Hrun.
  simpl Nat.ltb in Hrun. cbv iota in Hrun.
  destruct (resample _ _ _ _ _) as [result app2 rest2 | e |] eqn:Hloop; try discriminate.
  revert Hloop. apply resample_same_text.
  - intros p [<- | [<- | []]]; reflexivity.
  - intros p Hp. now apply getRandomPrompt_In in Hp.
Qed.



(** ** Selection from any category *)

Lemma loadRandomPromptFromAnyCategory_run app random supply p :
  wasOpenedWithDeepLink app = false ->
  getRandomPrompt (allPromptsOf (categoryGroups app)) random = Some p ->
  loadRandomPromptFromAnyCategory app (random :: supply) = Done tt (shown p app) supply.
Proof.
  intros Hopened Hp.
  assert (Hlen : (0 <? List.length (allPromptsOf (categoryGroups app)))%nat = true).
  { apply getRandomPrompt_In in Hp. apply Nat.ltb_lt.
    destruct (allPromptsOf (categoryGroups app)); [destruct Hp | simpl; lia]. }
  destruct app as [groups cat cur pinned pv opened query]. simpl in *. subst.
  unfold loadRandomPromptFromAnyCategory.
  cbn -[getRandomPrompt allPromptsOf Nat.ltb].
  rewrite Hlen. cbn -[getRandomPrompt allPromptsOf]. rewrite Hp. reflexivity.
Qed.

Lemma selectNewPrompt_unpinned app supply :
  (isPinned app && truthy (currentCategory app)) = false ->
  selectNewPrompt app supply = loadRandomPromptFromAnyCategory (reloading app) supply.
Proof.
  destruct app as [groups cat cur pinned pv opened query]. simpl. intros H.
  unfold selectNewPrompt.
  cbn -[loadRandomPromptFromAnyCategory truthy].
  now rewrite H.
Qed.

(** C4 (amended).  When the application is not pinned to a category, the
    new prompt is the element of the union of all categories at the index
    drawn, whatever prompt is on show: nothing is excluded and nothing is
    drawn again, so the prompt on show is shown again whenever the draw lands
    on it.  (Exclusion of the current text is applied only to the selection
    within the pinned category.) *)
Theorem C4_any_category_selection (app : App) (random : Z) (supply : list Z) :
  (isPinned app && truthy (currentCategory app)) = false ->
  is_random_value random = true ->
  allPromptsOf (categoryGroups app) <> [] ->
  exists p,
    getRandomPrompt (allPromptsOf (categoryGroups app)) random = Some p
    /\ In p (allPromptsOf (categoryGroups app))
    /\ selectNewPrompt app (random :: supply) = Done tt (shown p (reloading app)) supply
    /\ currentPrompt (shown p (reloading app)) = Some p.
Proof.
  intros Hunpinned Hr Hne.
  destruct (getRandomPrompt_Some _ random Hne Hr) as (p & Hp & Hin).
  exists p. split; [exact Hp|]. split; [exact Hin|]. split.
  - rewrite (selectNewPrompt_unpinned _ _ Hunpinned).
    apply loadRandomPromptFromAnyCategory_run; [destruct app; reflexivity|].
    destruct app; exact Hp.
  - destruct app; reflexivity.
Qed.

(** Not pinned, two prompts in the catalogue, [B1] on show: a draw of
    [oneHalf] shows the other prompt. *)
Lemma C4_witness_other_prompt :
  exists p,
    getRandomPrompt (allPromptsOf (categoryGroups unpinnedApp)) oneHalf = Some p
    /\ In p (allPromptsOf (categoryGroups unpinnedApp))
    /\ selectNewPrompt unpinnedApp [oneHalf] = Done tt (shown p (reloading unpinnedApp)) []
    /\ currentPrompt (shown p (reloading unpinnedApp)) = Some p.
Proof.
  apply (C4_any_category_selection unpinnedApp oneHalf []); [reflexivity | reflexivity |].
  discriminate.
Defined.

(** Not pinned, two prompts in the catalogue, [B1] on show: a draw of zero
    shows [B1] again. *)
Lemma C4_counterexample_same_prompt_again :
  List.length (allPromptsOf (categoryGroups unpinnedApp)) = 2%nat
  /\ currentPrompt unpinnedApp = Some legacyFirst
  /\ is_random_value 0 = true
  /\ exists app',
       selectNewPrompt unpinnedApp [0%Z] = Done tt app' []
       /\ currentPrompt app' = Some legacyFirst.
Proof.
  repeat split. eexists. split; vm_compute; reflexivity.
Qed.


(** ** Deep links *)

(** C5 (amended).  When the query holds a non-empty [id] that
    [findPromptById] finds, [handleDeepLink] shows that prompt under its
    category and reports success, whatever other parameters the query holds;
    the address is rewritten to carry that id alone.  The pinned flag is left
    as it was: the id path does not pin. *)
Theorem C5_id_parameter_resolves
    (decodeURIComponent : string -> Outcome string)
    (app : App) (supply : list Z) (wanted : string) (found : Prompt) :
  params_get (search app) "id" = Some wanted ->
  wanted <> "" ->
  findPromptById (categoryGroups app) wanted = Some found ->
  handleDeepLink decodeURIComponent app supply = Done true (linked found app) supply
  /\ isPinned (linked found app) = isPinned app.
Proof.
  intros Hid Hne Hfound. split; [|reflexivity].
  apply String.eqb_neq in Hne.
  destruct app as [groups cat cur pinned pv opened query]. simpl in *.
  unfold handleDeepLink.
  cbn -[findPromptById params_get truthy lookupCategory].
  rewrite Hid. unfold truthy. rewrite Hne. simpl negb. cbv iota.
  rewrite Hfound. reflexivity.
Qed.

(** A fresh application opened on [?id=B1&category=Biography&prompt=Why]. *)
Lemma C5_witness_id_first :
  handleDeepLink plainDecode
    (initialApp legacyCatalogue [("id", "B1"); ("category", "Biography"); ("prompt", "Why")])
    []
  = Done true
      (linked legacyFirst
         (initialApp legacyCatalogue
            [("id", "B1"); ("category", "Biography"); ("prompt", "Why")]))
      [].
Proof.
  apply (C5_id_parameter_resolves plainDecode
           (initialApp legacyCatalogue
              [("id", "B1"); ("category", "Biography"); ("prompt", "Why")])
           [] "B1" legacyFirst); [reflexivity | discriminate | reflexivity].
Defined.

(** A fresh application opened on [?id=B1]: the prompt is shown and the
    application is not pinned.  And one opened on [?id=] over a catalogue
    whose prompt has the empty id: [findPromptById] finds it, the resolver
    does not look. *)
Lemma C5_counterexample_not_pinned :
  (findPromptById legacyCatalogue "B1" = Some legacyFirst
   /\ exists app',
        handleDeepLink plainDecode (initialApp legacyCatalogue [("id", "B1")]) []
        = Done true app' []
        /\ currentPrompt app' = Some legacyFirst
        /\ isPinned app' = false)
  /\ (findPromptById anonymousCatalogue "" = Some anonymous
      /\ handleDeepLink plainDecode (initialApp anonymousCatalogue [("id", "")]) []
         = Done false (initialApp anonymousCatalogue [("id", "")]) []).
Proof.
  split; split; try reflexivity.
  eexists. split; [vm_compute; reflexivity|]. split; reflexivity.
Qed.


(** * Further properties of the loaders *)

(** ** Reading back what was written *)

Lemma obj_get_create {V : Type} (o : JsObject V) k v k' :
  obj_get o k = None ->
  obj_get (obj_create o k v) k' = if k =? k' then Some v else obj_get o k'.
Proof.
  induction o as [| [k0 v0] o IH]; simpl; intros Hnone.
  - reflexivity.
  - destruct (k0 =? k) eqn:E0; [discriminate|].
    assert (Hhere : obj_get ((k, v) :: (k0, v0) :: o) k'
                    = if k =? k' then Some v else obj_get ((k0, v0) :: o) k')
      by reflexivity.
    assert (Hlater : obj_get ((k0, v0) :: obj_create o k v) k'
                     = if k =? k' then Some v else obj_get ((k0, v0) :: o) k').
    { simpl. rewrite (IH Hnone).
      destruct (k0 =? k') eqn:E1; [|reflexivity].
      apply String.eqb_eq in E1. subst k'. rewrite String.eqb_sym, E0. reflexivity. }
    destruct (array_index k) as [n|]; [destruct (array_index k0) as [n0|]|];
      [destruct (n <? n0)%Z | |]; assumption.
Qed.

Lemma obj_get_replace {V : Type} (o : JsObject V) k v k' :
  obj_get (obj_replace o k v) k'
  = if k =? k' then option_map (fun _ => v) (obj_get o k) else obj_get o k'.
Proof.
  induction o as [| [k0 v0] o IH]; simpl.
  - now destruct (k =? k').
  - destruct (k0 =? k) eqn:E0; simpl.
    + apply String.eqb_eq in E0. subst k0. now destruct (k =? k').
    + rewrite IH. destruct (k0 =? k') eqn:E1; [|reflexivity].
      apply String.eqb_eq in E1. subst k'. rewrite String.eqb_sym, E0. reflexivity.
Qed.

(** [o[k] = v; o[k']] *)
Lemma obj_get_set {V : Type} (o : JsObject V) k v k' :
  obj_get (obj_set o k v) k' = if k =? k' then Some v else obj_get o k'.
Proof.
  unfold obj_set. destruct (obj_get o k) eqn:E.
  - rewrite obj_get_replace, E. reflexivity.
  - now apply obj_get_create.
Qed.

Lemma find_app {A : Type} (f : A -> bool) (l l' : list A) :
  find f (l ++ l') = match find f l with Some a => Some a | None => find f l' end.
Proof.
  induction l as [| a l IH]; simpl; [reflexivity|]. now destruct (f a).
Qed.

(** ** Looking a prompt up by its id *)

Lemma findPromptById_find (g : CategoryGroup) (wanted : string) :
  findPromptById g wanted = find (fun p => id p =? wanted) (allPromptsOf g).
Proof.
  induction g as [| [k prompts] g IH]; [reflexivity|].
  unfold allPromptsOf in *. simpl. rewrite find_app, IH. reflexivity.
Qed.

(** [findPromptById] returns the first prompt with the wanted id in the order
    in which [Object.values] lists the prompts of the catalogue, category
    after category, and [null] exactly when no prompt of the catalogue has
    that id. *)
Theorem findPromptById_first_match (g : CategoryGroup) (wanted : string) :
  findPromptById g wanted = find (fun p => id p =? wanted) (allPromptsOf g)
  /\ (findPromptById g wanted = None <-> ~ In wanted (map id (allPromptsOf g))).
Proof.
  split; [apply findPromptById_find|]. rewrite findPromptById_find. split.
  - intros Hnone Hin. apply in_map_iff in Hin. destruct Hin as (p & Hid & Hin).
    apply (find_none _ _ Hnone) in Hin. simpl in Hin.
    apply String.eqb_neq in Hin. contradiction.
  - intros Hnot. destruct (find _ _) as [p|] eqn:E; [|reflexivity].
    apply find_some in E. destruct E as [Hin Hid]. apply String.eqb_eq in Hid.
    exfalso. apply Hnot. rewrite <- Hid. now apply in_map.
Qed.

(** ** What the grouping does *)

Lemma groupStep_get grouped p g k :
  groupStep grouped p = Return g ->
  obj_get g k
  = if category p =? k
    then Some (match obj_get grouped k with Some existing => existing | None => [] end ++ [p])
    else obj_get grouped k.
Proof.
  unfold groupStep. destruct (obj_get grouped (category p)) as [existing|] eqn:E.
  - intros [= <-]. rewrite obj_get_set.
    destruct (category p =? k) eqn:Ek; [|reflexivity].
    apply String.eqb_eq in Ek. subst k. now rewrite E.
  - destruct (inherited (category p)); [discriminate|].
    intros [= <-]. rewrite obj_get_set.
    destruct (category p =? k) eqn:Ek; [|reflexivity].
    apply String.eqb_eq in Ek. subst k. now rewrite E.
Qed.

Lemma groupInto_get prompts : forall grouped g k,
  groupInto grouped prompts = Return g ->
  obj_get g k
  = match obj_get grouped k, filter (fun p => category p =? k) prompts with
    | Some existing, added => Some (existing ++ added)
    | None, [] => None
    | None, added => Some added
    end.
Proof.
  induction prompts as [| p prompts IH]; intros grouped g k Hrun; simpl in Hrun.
  - injection Hrun as <-. simpl. destruct (obj_get grouped k); [now rewrite app_nil_r | reflexivity].
  - apply bind_Return in Hrun. destruct Hrun as (grouped' & Hstep & Hrun).
    rewrite (IH _ _ k Hrun), (groupStep_get _ _ _ k Hstep). simpl.
    destruct (category p =? k).
    + destruct (obj_get grouped k) as [existing|]; simpl.
      * now rewrite <- app_assoc.
      * reflexivity.
    + destruct (obj_get grouped k); reflexivity.
Qed.

(** The grouping the three loaders end with is stable: under each category
    name the catalogue holds exactly the loaded prompts of that category, in
    the order in which they were loaded, and it has no entry for any other
    name. *)
Theorem grouping_keeps_document_order (prompts : list Prompt) (g : CategoryGroup) (k : string) :
  groupPrompts prompts = Return g ->
  obj_get g k
  = match filter (fun p => category p =? k) prompts with
    | [] => None
    | listed => Some listed
    end.
Proof.
  intros Hrun. apply (groupInto_get prompts [] g k Hrun).
Qed.

Lemma grouping_keeps_document_order_witness :
  groupPrompts [legacyFirst; twinFirst; legacySecond]
  = Return [("Biography", [legacyFirst; legacySecond]); ("Twins", [twinFirst])]
  /\ obj_get [("Biography", [legacyFirst; legacySecond]); ("Twins", [twinFirst])] "Biography"
     = Some [legacyFirst; legacySecond].
Proof.
  split; [reflexivity|].
  apply (grouping_keeps_document_order [legacyFirst; twinFirst; legacySecond]
           [("Biography", [legacyFirst; legacySecond]); ("Twins", [twinFirst])] "Biography").
  reflexivity.
Defined.

Lemma groupInto_outcome prompts : forall grouped,
  (forall k, In k (obj_keys grouped) -> inherited k = false) ->
  match groupInto grouped prompts with
  | Return _ => Forall (fun p => inherited (category p) = false) prompts
  | Throw e => e = TypeError /\ Exists (fun p => inherited (category p) = true) prompts
  end.
Proof.
  induction prompts as [| p prompts IH]; intros grouped Hown; simpl; [constructor|].
  unfold groupStep at 1.
  destruct (obj_get grouped (category p)) as [existing|] eqn:E.
  - assert (Hp : inherited (category p) = false).
    { apply Hown. apply obj_get_In in E. unfold obj_keys.
      change (category p) with (fst (category p, existing)). now apply in_map. }
    simpl. specialize (IH (obj_set grouped (category p) (existing ++ [p]))).
    destruct (groupInto _ prompts).
    + constructor; [exact Hp|]. apply IH.
      intros k Hk. unfold obj_set in Hk. rewrite E, obj_replace_keys in Hk. now apply Hown.
    + destruct IH as [-> Hex].
      * intros k Hk. unfold obj_set in Hk. rewrite E, obj_replace_keys in Hk. now apply Hown.
      * split; [reflexivity | now apply Exists_cons_tl].
  - destruct (inherited (category p)) eqn:Hp; simpl.
    + split; [reflexivity | now apply Exists_cons_hd].
    + assert (Hown' : forall k, In k (obj_keys (obj_set grouped (category p) [p])) ->
                                inherited k = false).
      { intros k Hk. unfold obj_keys in Hk. apply in_map_iff in Hk.
        destruct Hk as ([k0 v0] & <- & Hin). simpl.
        apply obj_set_In in Hin. destruct Hin as [[-> _] | Hin]; [exact Hp|].
        apply Hown. unfold obj_keys. change k0 with (fst (k0, v0)). now apply in_map. }
      specialize (IH _ Hown').
      destruct (groupInto _ prompts).
      * constructor; assumption.
      * destruct IH as [-> Hex]. split; [reflexivity | now apply Exists_cons_tl].
Qed.

(** The grouping fails exactly when a prompt's category is named like a
    member of [Object.prototype] ([constructor], [toString], ...): the
    catalogue starts as [{}], reads that member under the name, and the member
    has no [push], which is a [TypeError].  For any other prompts it
    returns. *)
Theorem grouping_fails_on_prototype_names (prompts : list Prompt) :
  match groupPrompts prompts with
  | Return _ => Forall (fun p => inherited (category p) = false) prompts
  | Throw e => e = TypeError /\ Exists (fun p => inherited (category p) = true) prompts
  end.
Proof.
  apply groupInto_outcome. intros k [].
Qed.

(** ** The texts of a catalogue are trimmed *)

Lemma trimEnd_keeps c s :
  is_white_space c = false -> trimEnd (String c s) = String c (trimEnd s).
Proof.
  intros Hc. simpl. rewrite Hc. now destruct (trimEnd s).
Qed.

Lemma trimEnd_idempotent s : trimEnd (trimEnd s) = trimEnd s.
Proof.
  induction s as [| c s IH]; [reflexivity|]. simpl.
  destruct (trimEnd s) as [| c' kept] eqn:E.
  - destruct (is_white_space c) eqn:Hc; [reflexivity|]. simpl. now rewrite Hc.
  - change (trimEnd (String c (String c' kept)) = String c (String c' kept)).
    simpl trimEnd at 1. simpl in IH. rewrite IH. reflexivity.
Qed.

Lemma trimStart_starts s :
  trimStart s = "" \/ exists c rest, trimStart s = String c rest /\ is_white_space c = false.
Proof.
  induction s as [| c s IH]; [now left|]. simpl.
  destruct (is_white_space c) eqn:Hc; [exact IH|]. right. eauto.
Qed.

(** [s.trim().trim() === s.trim()] *)
Lemma trim_idempotent s : trim (trim s) = trim s.
Proof.
  unfold trim. destruct (trimStart_starts s) as [-> | (c & rest & -> & Hc)]; [reflexivity|].
  rewrite (trimEnd_keeps _ _ Hc). simpl trimStart. rewrite Hc.
  rewrite <- (trimEnd_keeps _ _ Hc). apply trimEnd_idempotent.
Qed.

Lemma trimEnd_last s :
  match last_char (trimEnd s) with
  | Some c => is_white_space c = false
  | None => True
  end.
Proof.
  induction s as [| c s IH]; [exact I|]. simpl.
  destruct (trimEnd s) as [| c' kept] eqn:E.
  - destruct (is_white_space c) eqn:Hc; simpl; auto.
  - change (last_char (String c (String c' kept)))
      with (match last_char (String c' kept) with Some l => Some l | None => Some c end).
    destruct (last_char (String c' kept)) as [l|] eqn:El; [exact IH|].
    simpl in El. destruct (last_char kept); discriminate.
Qed.

(** What [trim] returns neither starts nor ends with white space. *)
Lemma trim_bare s : no_outer_white_space (trim s) = true.
Proof.
  unfold no_outer_white_space, trim.
  pose proof (trimEnd_last (trimStart s)) as Hlast.
  destruct (trimStart_starts s) as [E | (c & rest & E & Hc)]; rewrite E in *.
  - reflexivity.
  - rewrite (trimEnd_keeps _ _ Hc) in *. simpl first_char.
    destruct (last_char (String c (trimEnd rest))) as [l|]; [|reflexivity].
    now rewrite Hc, Hlast.
Qed.

(** X4.  Whichever loader made the catalogue, the text and the purpose of
    every prompt in it are trimmed: neither starts nor ends with white space
    or a line terminator, and trimming them again changes nothing. *)
Theorem loaded_texts_are_trimmed
    (fetch : string -> Outcome Response) (yaml_load : string -> Outcome YamlDocument)
    (yamlText language : string) (g : CategoryGroup) (p : Prompt) :
  produced_by_a_loader fetch yaml_load yamlText language g ->
  In p (allPromptsOf g) ->
  no_outer_white_space (prompt p) = true
  /\ no_outer_white_space (purpose p) = true
  /\ trim (prompt p) = prompt p
  /\ trim (purpose p) = purpose p.
Proof.
  assert (Htrimmed : forall a b, no_outer_white_space (trim a) = true
                                 /\ no_outer_white_space (trim b) = true
                                 /\ trim (trim a) = trim a
                                 /\ trim (trim b) = trim b).
  { intros a b. now rewrite !trim_bare, !trim_idempotent. }
  intros [Hclean | [Hnested | Hlegacy]] Hin.
  - destruct (loadPromptsFromCleanStructure_Return _ _ _ _ Hclean)
      as [(entries & rest & Hload & _) | (items & rest & Hload & ->)]; [|destruct Hin].
    apply (clean_catalogue _ _ _ _ _ _ Hload Hclean) in Hin.
    destruct Hin as (s & _ & Hp). rewrite cleanPromptToPrompt_resolve in Hp.
    destruct (resolveTranslation _ _) as [t|]; [|discriminate].
    injection Hp as <-. apply Htrimmed.
  - destruct (loadPromptsFromNestedStructure_Return _ _ _ _ Hnested)
      as (categories & multiPrompts & Hload & _).
    apply (nested_catalogue _ _ _ _ _ _ Hload Hnested) in Hin.
    destruct Hin as (multiPrompt & _ & Hp). rewrite nestedPromptToPrompt_resolve in Hp.
    destruct (obj_get _ _) as [c|]; [|discriminate].
    destruct (resolveTranslation _ _) as [t|]; [|discriminate].
    injection Hp as <-. apply Htrimmed.
  - destruct (legacy_catalogue _ _ _ _ Hlegacy p Hin) as (doc & parsed & _ & ->).
    apply Htrimmed.
Qed.

(** The padded sample file: its prompt text ends in a line feed and its
    purpose starts with a no-break space and ends with a tab and a space;
    the catalogue holds both without them. *)
Lemma loaded_texts_are_trimmed_witness :
  loadPromptsFromCleanStructure paddedParser paddedText "EN" = Return paddedCatalogue
  /\ no_outer_white_space paddedPurpose = false
  /\ no_outer_white_space "Describe a turning point." = true
  /\ no_outer_white_space "Reflect on change." = true
  /\ trim "Describe a turning point." = "Describe a turning point."
  /\ trim "Reflect on change." = "Reflect on change.".
Proof.
  assert (Hrun : loadPromptsFromCleanStructure paddedParser paddedText "EN"
                 = Return paddedCatalogue) by (vm_compute; reflexivity).
  split; [exact Hrun|]. split; [reflexivity|].
  apply (loaded_texts_are_trimmed deadSite paddedParser paddedText "EN" paddedCatalogue
           {| id := "B1"; category := "Biography";
              prompt := "Describe a turning point."; purpose := "Reflect on change." |}).
  - left. exact Hrun.
  - simpl. auto.
Defined.

(** ** Ids do not depend on the language *)

Lemma cleanSourcePrompt_id languageCode source p :
  cleanSourcePrompt languageCode source = Some p -> id p = cleanSourceId source.
Proof.
  intros H. now apply cleanPromptToPrompt_id in H.
Qed.

Lemma cleanSourcePrompt_english languageCode source :
  completeTranslation (snd source) "en" <> None ->
  exists p, cleanSourcePrompt languageCode source = Some p.
Proof.
  intros Hen. unfold cleanSourcePrompt. rewrite cleanPromptToPrompt_resolve.
  unfold resolveTranslation.
  destruct (completeTranslation (snd source) languageCode); simpl; [eauto|].
  destruct (completeTranslation (snd source) "en"); [simpl; eauto | contradiction].
Qed.

(** A link made in one language opens in every other.  For a clean document
    in which every prompt has a complete English translation, an id that
    [findPromptById] finds in the catalogue of one language it finds in the
    catalogue of any other; and where the ids reconstructed for the document
    are pairwise distinct, the two prompts found are made of the same prompt
    of the document. *)
Theorem links_resolve_in_every_language
    (yaml_load : string -> Outcome YamlDocument) (yamlText : string)
    (entries : JsObject CleanCategory.t) (rest : option (list MultilingualPrompt.t))
    (language language' : string) (g g' : CategoryGroup) (wanted : string) (p : Prompt) :
  ordinary_language (toLowerCase language) = true ->
  ordinary_language (toLowerCase language') = true ->
  yaml_load yamlText = Return (YamlUnified (CategoriesObject entries) rest) ->
  (forall source, In source (cleanSources entries) ->
                  completeTranslation (snd source) "en" <> None) ->
  loadPromptsFromCleanStructure yaml_load yamlText language = Return g ->
  loadPromptsFromCleanStructure yaml_load yamlText language' = Return g' ->
  findPromptById g wanted = Some p ->
  exists p',
    findPromptById g' wanted = Some p'
    /\ id p' = id p
    /\ (NoDup (map cleanSourceId (cleanSources entries)) ->
        exists source,
          In source (cleanSources entries)
          /\ cleanSourcePrompt (toLowerCase language) source = Some p
          /\ cleanSourcePrompt (toLowerCase language') source = Some p').
Proof.
  intros _ _ Hload Hen Hg Hg' Hfound.
  pose proof (clean_catalogue _ _ _ _ _ _ Hload Hg) as Hcat.
  pose proof (clean_catalogue _ _ _ _ _ _ Hload Hg') as Hcat'.
  destruct (findPromptById_Some _ _ _ Hfound) as [Hin Hid].
  apply Hcat in Hin. destruct Hin as (source & Hsource & Hmade).
  fold (cleanSourcePrompt (toLowerCase language) source) in Hmade.
  destruct (cleanSourcePrompt_english (toLowerCase language') source (Hen _ Hsource))
    as (q & Hq).
  assert (Hwanted : cleanSourceId source = wanted)
    by (rewrite <- Hid; symmetry; now apply (cleanSourcePrompt_id (toLowerCase language))).
  destruct (findPromptById g' wanted) as [p'|] eqn:Hfound'.
  - exists p'. split; [reflexivity|]. split.
    + apply findPromptById_Some in Hfound'. destruct Hfound' as [_ ->]. now symmetry.
    + intros Hnd. exists source. split; [exact Hsource|]. split; [exact Hmade|].
      rewrite <- Hfound', <- Hwanted.
      symmetry.
      apply (findPromptById_of_source (cleanSources entries) cleanSourceId
               (cleanSourcePrompt (toLowerCase language')) g' source); auto.
      intros s r. apply cleanSourcePrompt_id.
  - exfalso. rewrite findPromptById_None in Hfound'.
    apply (Hfound' q).
    + apply Hcat'. exists source. split; [exact Hsource | exact Hq].
    + rewrite <- Hwanted. now apply (cleanSourcePrompt_id (toLowerCase language')).
Qed.

(** The id [B1], found in the English catalogue of a file whose German
    translation is incomplete, is found in its German catalogue. *)
Lemma links_resolve_in_every_language_witness :
  exists p',
    findPromptById [("Biografie", [incompleteGerman])] "B1" = Some p'
    /\ id p' = id incompleteEnglish
    /\ (NoDup (map cleanSourceId (cleanSources incompleteEntries)) ->
        exists source,
          In source (cleanSources incompleteEntries)
          /\ cleanSourcePrompt (toLowerCase "EN") source = Some incompleteEnglish
          /\ cleanSourcePrompt (toLowerCase "DE") source = Some p').
Proof.
  apply (links_resolve_in_every_language sampleParser incompleteText incompleteEntries None
           "EN" "DE" [("Biography", [incompleteEnglish])] [("Biografie", [incompleteGerman])]
           "B1" incompleteEnglish); try reflexivity.
  intros source [<- | []]. discriminate.
Defined.

(** ** Categories listed twice *)

Lemma obj_get_map_set {V : Type} (m : list (string * V)) k v k' :
  obj_get (map_set m k v) k' = if k =? k' then Some v else obj_get m k'.
Proof.
  induction m as [| [k0 v0] m IH]; simpl; [reflexivity|].
  destruct (k0 =? k) eqn:E0; simpl.
  - apply String.eqb_eq in E0. subst k0. now destruct (k =? k').
  - rewrite IH. destruct (k0 =? k') eqn:E1; [|reflexivity].
    apply String.eqb_eq in E1. subst k'. rewrite String.eqb_sym, E0. reflexivity.
Qed.

(** When the [categories] array of a nested document lists an id more than
    once, the category the prompts of that id are named after is the last
    one listed: each [categoryMap.set] replaces what an earlier one put
    there. *)
Theorem later_category_replaces_earlier (categories : list Category.t) (k : string) :
  obj_get (categoryMapOf categories) k
  = find (fun c => Category.id c =? k) (rev categories).
Proof.
  unfold categoryMapOf.
  assert (H : forall categoryMap,
             obj_get (fold_left (fun categoryMap c => map_set categoryMap (Category.id c) c)
                        categories categoryMap) k
             = match find (fun c => Category.id c =? k) (rev categories) with
               | Some c => Some c
               | None => obj_get categoryMap k
               end).
  { induction categories as [| c categories IH]; intros categoryMap; [reflexivity|].
    simpl. rewrite IH, find_app, obj_get_map_set. simpl.
    destruct (find _ (rev categories)); [reflexivity|].
    now destruct (Category.id c =? k). }
  rewrite H. now destruct (find _ _).
Qed.

(** ** Legacy files are loaded whole *)

Lemma map_outcome_length {A B : Type} (f : A -> Outcome B) (l : list A) : forall bs,
  map_outcome f l = Return bs -> List.length bs = List.length l.
Proof.
  induction l as [| a l IH]; intros bs H; simpl in H.
  - now injection H as <-.
  - apply bind_Return in H. destruct H as (b & _ & H).
    apply bind_Return in H. destruct H as (bs' & Hbs' & H).
    injection H as <-. simpl. f_equal. now apply IH.
Qed.

(** The legacy loader skips nothing.  When it returns, the catalogue holds
    exactly one prompt for each piece of the file between [---] separators
    that is not blank, and each of these pieces, trimmed, was parsed as a
    prompt; a piece that does not parse makes the loader throw instead. *)
Theorem legacy_loads_every_document
    (fetch : string -> Outcome Response) (yaml_load : string -> Outcome YamlDocument)
    (language : string) (g : CategoryGroup) :
  loadPromptsLegacy fetch yaml_load language = Return g ->
  exists response yamlText,
    fetch ("./prompts_" ++ language ++ ".yaml")%string = Return response
    /\ text response = Return yamlText
    /\ List.length (allPromptsOf g) = List.length (legacyDocuments yamlText)
    /\ Forall (fun doc => trim doc <> ""
                          /\ exists parsed,
                               yaml_load (trim doc) = Return (YamlPrompt parsed)
                               /\ In {| id := id parsed; category := category parsed;
                                        prompt := trim (prompt parsed);
                                        purpose := trim (purpose parsed) |}
                                     (allPromptsOf g))
         (legacyDocuments yamlText).
Proof.
  intros Hrun.
  destruct (loadPromptsLegacy_Return _ _ _ _ Hrun)
    as (response & yamlText & emitted & Hfetch & _ & Htext & Hmap & Hgroup).
  exists response, yamlText. split; [exact Hfetch|]. split; [exact Htext|].
  destruct (groupPrompts_spec _ _ Hgroup) as [_ Hperm]. split.
  - rewrite (Permutation_length Hperm). now apply map_outcome_length in Hmap.
  - apply Forall_forall. intros doc Hdoc. split.
    + unfold legacyDocuments in Hdoc. apply filter_In in Hdoc.
      destruct Hdoc as [_ Htruthy]. unfold truthy in Htruthy.
      apply negb_true_iff, String.eqb_neq in Htruthy. exact Htruthy.
    + destruct (map_outcome_forward _ _ _ _ Hmap Hdoc) as (p & Hp & Hin).
      destruct (legacyDocumentToPrompt_Return _ _ _ Hp) as (parsed & Hparsed & ->).
      exists parsed. split; [exact Hparsed|].
      apply (Permutation_in _ (Permutation_sym Hperm) Hin).
Qed.

(** The sample legacy file of two documents. *)
Lemma legacy_loads_every_document_witness :
  exists response yamlText,
    legacySite ("./prompts_" ++ "EN" ++ ".yaml")%string = Return response
    /\ text response = Return yamlText
    /\ List.length (allPromptsOf legacyCatalogue) = List.length (legacyDocuments yamlText)
    /\ Forall (fun doc => trim doc <> ""
                          /\ exists parsed,
                               sampleParser (trim doc) = Return (YamlPrompt parsed)
                               /\ In {| id := id parsed; category := category parsed;
                                        prompt := trim (prompt parsed);
                                        purpose := trim (purpose parsed) |}
                                     (allPromptsOf legacyCatalogue))
         (legacyDocuments yamlText).
Proof.
  apply (legacy_loads_every_document legacySite sampleParser "EN" legacyCatalogue).
  reflexivity.
Defined.

(** * Further properties of the application *)

Lemma in_allPromptsOf (g : CategoryGroup) k prompts p :
  In (k, prompts) g -> In p prompts -> In p (allPromptsOf g).
Proof.
  intros Hg Hp. unfold allPromptsOf, obj_values. apply in_concat.
  exists prompts. split; [|exact Hp].
  change prompts with (snd (k, prompts)). now apply in_map.
Qed.

Lemma displayPrompt_displayed p app supply :
  displayPrompt (Some p) app supply = Done tt (displayed p app) supply.
Proof.
  destruct app as [groups cat cur pinned pv opened query]. destruct opened; reflexivity.
Qed.

Lemma lookupCategory_Own groups name prompts :
  lookupCategory groups name = Own prompts -> In (name, prompts) groups.
Proof.
  unfold lookupCategory. destruct (obj_get groups name) eqn:E.
  - intros [= ->]. now apply obj_get_In.
  - destruct (inherited name); discriminate.
Qed.

Ltac simpl_handler :=
  cbv beta iota zeta delta
    [and_then assign this ret raise lift Math_random updateUrl clearUrl setPinned
     displayPrompt getRandomPromptOf selectCategory
     set_currentCategory set_currentPrompt set_isPinned set_purposeVisible
     set_wasOpenedWithDeepLink set_search set_categoryGroups
     categoryGroups currentCategory currentPrompt isPinned purposeVisible
     wasOpenedWithDeepLink search present orb andb negb].

Ltac step_handler :=
  simpl_handler;
  match goal with
  | H : truthy ?x = _ |- context [truthy ?x] => rewrite H
  | H : lookupCategory ?g ?n = _ |- context [lookupCategory ?g ?n] => rewrite H
  | |- context [match params_get ?q ?n with _ => _ end] => destruct (params_get q n) eqn:?
  | |- context [truthy ?x] => destruct (truthy x) eqn:?
  | |- context [match findPromptById ?g ?w with _ => _ end] =>
      destruct (findPromptById g w) eqn:?
  | |- context [match lookupCategory ?g ?n with _ => _ end] =>
      destruct (lookupCategory g n) eqn:?
  | |- context [match find ?f ?l with _ => _ end] => destruct (find f l) eqn:?
  | |- context [match getRandomPrompt ?l ?r with _ => _ end] =>
      destruct (getRandomPrompt l r) eqn:?
  | |- context [match ?c with Return _ => _ | Throw _ => _ end] => destruct c eqn:?
  | |- context [match ?s with [] => Starved | _ => _ end] => destruct s
  end.

Lemma handleDeepLink_Done decodeURIComponent app supply b app' supply' :
  handleDeepLink decodeURIComponent app supply = Done b app' supply' ->
  if b
  then exists p,
         In p (allPromptsOf (categoryGroups app))
         /\ ((app' = linked p app /\ supply' = supply)
             \/ (app' = set_isPinned true (linked p app)
                 /\ exists random, supply = random :: supply'))
  else supply' = supply
       /\ app' = if present (params_get (search app) "id")
                    || present (params_get (search app) "category")
                 then set_search [] app else app.
Proof.
  destruct app as [groups cat cur pinned pv opened query].
  unfold handleDeepLink.
  repeat step_handler.
  all: simpl_handler.
  all: try discriminate.
  all: intros Hrun; inversion Hrun; subst; clear Hrun.
  all: try (split; reflexivity).
  all: try match goal with
       | H : findPromptById _ _ = Some ?p |- _ =>
           exists p; split;
           [apply (findPromptById_Some _ _ _ H) | left; split; reflexivity]
       | H : find _ _ = Some ?p, L : lookupCategory _ _ = Own _ |- _ =>
           exists p; split;
           [apply (in_allPromptsOf _ _ _ _ (lookupCategory_Own _ _ _ L)),
              (find_some _ _ H)
           | left; split; reflexivity]
       | H : getRandomPrompt _ _ = Some ?p, L : lookupCategory _ _ = Own _ |- _ =>
           exists p; split;
           [apply (in_allPromptsOf _ _ _ _ (lookupCategory_Own _ _ _ L)),
              (getRandomPrompt_In _ _ _ H)
           | right; split; [reflexivity | eexists; reflexivity]]
       end.
Qed.

(** ** What a deep link can do *)

(** Whenever [handleDeepLink] returns, it has done one of three things.  It
    reports success having shown a prompt of the catalogue, with the address
    rewritten to that prompt's id, either without a call of [Math.random] and
    without touching the pin (the id and the prefix path) or after one call
    and pinned (the category path).  Or it reports failure, having called
    [Math.random] not at all and changed nothing but the address, which it
    clears when it held an [id] or a [category]. *)
Theorem deep_link_outcomes
    (decodeURIComponent : string -> Outcome string)
    (app : App) (supply : list Z) (b : bool) (app' : App) (supply' : list Z) :
  handleDeepLink decodeURIComponent app supply = Done b app' supply' ->
  if b
  then exists p,
         In p (allPromptsOf (categoryGroups app))
         /\ ((app' = linked p app /\ supply' = supply)
             \/ (app' = set_isPinned true (linked p app)
                 /\ exists random, supply = random :: supply'))
  else supply' = supply
       /\ app' = if present (params_get (search app) "id")
                    || present (params_get (search app) "category")
                 then set_search [] app else app.
Proof.
  apply handleDeepLink_Done.
Qed.

Lemma deep_link_outcomes_witness :
  exists p,
    In p (allPromptsOf (categoryGroups categoryLink))
    /\ ((set_isPinned true (linked legacySecond categoryLink) = linked p categoryLink
         /\ [] = [oneHalf])
        \/ (set_isPinned true (linked legacySecond categoryLink)
            = set_isPinned true (linked p categoryLink)
            /\ exists random, [oneHalf] = [random])).
Proof.
  apply (deep_link_outcomes plainDecode categoryLink [oneHalf] true
           (set_isPinned true (linked legacySecond categoryLink)) []).
  vm_compute. reflexivity.
Defined.

Lemma truthy_true s : truthy s = true <-> s <> "".
Proof.
  unfold truthy. destruct (s =? "") eqn:E; simpl.
  - apply String.eqb_eq in E. split; [discriminate | contradiction].
  - apply String.eqb_neq in E. split; [auto | reflexivity].
Qed.

Lemma unresolved_id_byId app :
  unresolved_id app ->
  match params_get (search app) "id" with
  | Some wanted => if truthy wanted then findPromptById (categoryGroups app) wanted else None
  | None => None
  end = None.
Proof.
  intros H. destruct (params_get (search app) "id") as [wanted|] eqn:E; [|reflexivity].
  destruct (truthy wanted) eqn:Ht; [|reflexivity].
  apply H; [exact E | now apply truthy_true].
Qed.

Lemma find_all_false {A : Type} (f : A -> bool) (l : list A) :
  (forall a, In a l -> f a = false) -> find f l = None.
Proof.
  induction l as [| a l IH]; intros H; simpl; [reflexivity|].
  rewrite (H a (or_introl eq_refl)). apply IH. intros b Hb. apply H. now right.
Qed.

Lemma lookupCategory_get groups name prompts :
  obj_get groups name = Some prompts -> lookupCategory groups name = Own prompts.
Proof.
  unfold lookupCategory. now intros ->.
Qed.

Ltac use_facts :=
  repeat match goal with
         | H : ?x = _ |- context [match ?x with _ => _ end] => rewrite H
         | H : truthy ?x = _ |- context [truthy ?x] => rewrite H
         | H : lookupCategory ?g ?n = _ |- context [lookupCategory ?g ?n] => rewrite H
         end.

(** A link that names a category of the catalogue, and no prompt that is
    found, shows a prompt drawn from that category and pins the category:
    one call of [Math.random], success reported, the address rewritten to the
    id of the prompt shown. *)
Theorem category_link_pins
    (decodeURIComponent : string -> Outcome string)
    (app : App) (name : string) (prompts : list Prompt) (random : Z) (supply : list Z) :
  unresolved_id app ->
  params_get (search app) "category" = Some name ->
  name <> "" ->
  obj_get (categoryGroups app) name = Some prompts ->
  prompts <> [] ->
  unmatched_prefix decodeURIComponent app prompts ->
  is_random_value random = true ->
  exists p,
    getRandomPrompt prompts random = Some p
    /\ In p prompts
    /\ handleDeepLink decodeURIComponent app (random :: supply)
       = Done true (set_isPinned true (linked p app)) supply
    /\ isPinned (set_isPinned true (linked p app)) = true.
Proof.
  intros Hid Hcat Hname Hget Hne Hprefix Hr.
  destruct (getRandomPrompt_Some prompts random Hne Hr) as (p & Hp & Hin).
  exists p. split; [exact Hp|]. split; [exact Hin|]. split; [|reflexivity].
  apply unresolved_id_byId in Hid. apply truthy_true in Hname.
  apply lookupCategory_get in Hget.
  unfold unmatched_prefix in Hprefix.
  destruct app as [groups cat cur pinned pv opened query]. simpl in *.
  unfold handleDeepLink. simpl_handler. rewrite Hid, Hcat.
  destruct (params_get query "prompt") as [encoded|] eqn:Hprompt.
  - rewrite Hname. simpl_handler.
    destruct (truthy encoded) eqn:Hencoded; simpl_handler; use_facts; simpl_handler.
    + destruct (Hprefix encoded eq_refl (proj1 (truthy_true _) Hencoded))
        as (decodedPrefix & Hdecoded & Hnone).
      rewrite Hdecoded, (find_all_false _ _ Hnone). simpl_handler.
      use_facts. reflexivity.
    + use_facts. reflexivity.
  - simpl_handler. use_facts. simpl_handler. use_facts. reflexivity.
Qed.

Lemma category_link_pins_witness :
  exists p,
    getRandomPrompt [legacyFirst; legacySecond] oneHalf = Some p
    /\ In p [legacyFirst; legacySecond]
    /\ handleDeepLink plainDecode categoryLink [oneHalf]
       = Done true (set_isPinned true (linked p categoryLink)) []
    /\ isPinned (set_isPinned true (linked p categoryLink)) = true.
Proof.
  apply (category_link_pins plainDecode categoryLink "Biography" [legacyFirst; legacySecond]
           oneHalf []); try reflexivity; discriminate.
Defined.

(** A link in the old form, [?category=...&prompt=...], shows the first
    prompt of the category whose text starts with the decoded prefix: no call
    of [Math.random], the pin left as it was, the address rewritten to the id
    of the prompt. *)
Theorem prefix_link_shows_first_match
    (decodeURIComponent : string -> Outcome string)
    (app : App) (name encoded decodedPrefix : string) (prompts : list Prompt)
    (matchingPrompt : Prompt) (supply : list Z) :
  unresolved_id app ->
  params_get (search app) "category" = Some name ->
  name <> "" ->
  params_get (search app) "prompt" = Some encoded ->
  encoded <> "" ->
  obj_get (categoryGroups app) name = Some prompts ->
  decodeURIComponent encoded = Return decodedPrefix ->
  find (fun p => startsWith (prompt p) decodedPrefix) prompts = Some matchingPrompt ->
  handleDeepLink decodeURIComponent app supply = Done true (linked matchingPrompt app) supply
  /\ isPinned (linked matchingPrompt app) = isPinned app.
Proof.
  intros Hid Hcat Hname Hprompt Hencoded Hget Hdecoded Hfind. split; [|reflexivity].
  apply unresolved_id_byId in Hid. apply truthy_true in Hname, Hencoded.
  apply lookupCategory_get in Hget.
  destruct app as [groups cat cur pinned pv opened query]. simpl in *.
  unfold handleDeepLink. simpl_handler. rewrite Hid, Hcat, Hprompt, Hname, Hencoded.
  simpl_handler. rewrite Hget, Hdecoded, Hfind. reflexivity.
Qed.

Lemma prefix_link_shows_first_match_witness :
  handleDeepLink plainDecode prefixLink [] = Done true (linked legacySecond prefixLink) []
  /\ isPinned (linked legacySecond prefixLink) = isPinned prefixLink.
Proof.
  apply (prefix_link_shows_first_match plainDecode prefixLink "Biography" "Why" "Why"
           [legacyFirst; legacySecond] legacySecond []); try reflexivity; discriminate.
Defined.

Lemma inherited_truthy name : inherited name = true -> truthy name = true.
Proof.
  unfold inherited, object_prototype_names. cbn [existsb].
  repeat match goal with
         | |- context [name =? ?k] =>
             destruct (name =? k) eqn:E;
             [apply String.eqb_eq in E; subst; reflexivity | clear E; cbn [orb]]
         end.
  discriminate.
Qed.

(** A link whose [category] is the name of a member of [Object.prototype]
    ([?category=constructor]) makes [handleDeepLink] throw, unless the
    catalogue has a category of that name: the inherited member passes for a
    list of prompts, and nothing can be selected from it. *)
Theorem prototype_category_link_raises
    (decodeURIComponent : string -> Outcome string)
    (app : App) (name : string) (random : Z) (supply : list Z) :
  unresolved_id app ->
  params_get (search app) "category" = Some name ->
  inherited name = true ->
  obj_get (categoryGroups app) name = None ->
  exists e, handleDeepLink decodeURIComponent app (random :: supply) = Raised e.
Proof.
  intros Hid Hcat Hinherited Hget.
  apply unresolved_id_byId in Hid.
  assert (Hlook : lookupCategory (categoryGroups app) name = Inherited)
    by (unfold lookupCategory; now rewrite Hget, Hinherited).
  apply inherited_truthy in Hinherited.
  destruct app as [groups cat cur pinned pv opened query]. simpl in *.
  unfold handleDeepLink. simpl_handler. rewrite Hid, Hcat, Hinherited.
  destruct (params_get query "prompt") as [encoded|] eqn:Hprompt.
  - simpl_handler.
    destruct (truthy encoded) eqn:Hencoded; simpl_handler; rewrite Hlook.
    + destruct (decodeURIComponent encoded); eauto.
    + simpl_handler. rewrite Hlook. eauto.
  - simpl_handler. rewrite Hlook. simpl_handler. rewrite Hlook. eauto.
Qed.

Lemma prototype_category_link_raises_witness :
  exists e, handleDeepLink plainDecode prototypeLink [oneHalf] = Raised e.
Proof.
  apply (prototype_category_link_raises plainDecode prototypeLink "constructor" oneHalf []);
    try reflexivity.
  discriminate.
Defined.

(** A link in the old form whose [prompt] cannot be decoded makes
    [handleDeepLink] throw what [decodeURIComponent] throws: the category it
    names, though it is one of the catalogue, is not fallen back to. *)
Theorem malformed_prefix_link_raises
    (decodeURIComponent : string -> Outcome string)
    (app : App) (name encoded : string) (prompts : list Prompt) (e : Exception)
    (supply : list Z) :
  unresolved_id app ->
  params_get (search app) "category" = Some name ->
  name <> "" ->
  params_get (search app) "prompt" = Some encoded ->
  encoded <> "" ->
  obj_get (categoryGroups app) name = Some prompts ->
  decodeURIComponent encoded = Throw e ->
  handleDeepLink decodeURIComponent app supply = Raised e.
Proof.
  intros Hid Hcat Hname Hprompt Hencoded Hget Hdecoded.
  apply unresolved_id_byId in Hid. apply truthy_true in Hname, Hencoded.
  apply lookupCategory_get in Hget.
  destruct app as [groups cat cur pinned pv opened query]. simpl in *.
  unfold handleDeepLink. simpl_handler. rewrite Hid, Hcat, Hprompt, Hname, Hencoded.
  simpl_handler. rewrite Hget, Hdecoded. reflexivity.
Qed.

Lemma malformed_prefix_link_raises_witness :
  handleDeepLink strictDecode malformedLink [oneHalf] = Raised (ForeignError "URIError").
Proof.
  apply (malformed_prefix_link_raises strictDecode malformedLink "Biography" "%"
           [legacyFirst; legacySecond]); try reflexivity; discriminate.
Defined.

(** ** The controls *)

Lemma grouped_lookup (g : CategoryGroup) p :
  grouped_by_category g -> In p (allPromptsOf g) ->
  exists prompts, obj_get g (category p) = Some prompts /\ In p prompts.
Proof.
  intros (Hcat & Hnd & _) Hin.
  unfold allPromptsOf, obj_values in Hin. apply in_concat in Hin.
  destruct Hin as (prompts & Hprompts & Hp).
  apply in_map_iff in Hprompts. destruct Hprompts as ([k prompts'] & <- & Hentry).
  simpl in Hp. exists prompts'. split; [|exact Hp].
  rewrite (Hcat _ _ _ Hentry Hp). now apply obj_get_NoDup.
Qed.

Lemma key_lookup (g : CategoryGroup) k :
  grouped_by_category g -> In k (obj_keys g) ->
  exists prompts, obj_get g k = Some prompts /\ prompts <> [] /\ In (k, prompts) g.
Proof.
  intros (_ & _ & Hne) Hk.
  destruct (obj_get g k) as [prompts|] eqn:E.
  - exists prompts. apply obj_get_In in E. split; [reflexivity|]. split; [|exact E].
    now apply (Hne k).
  - apply obj_get_None in E. contradiction.
Qed.

Lemma coherent_displayed p app :
  In p (allPromptsOf (categoryGroups app)) -> coherent (displayed p app).
Proof.
  intros Hin. unfold coherent, displayed. simpl.
  split; [exact Hin|]. split; [reflexivity|]. now intros ->.
Qed.

Lemma coherent_shown p app :
  In p (allPromptsOf (categoryGroups app)) ->
  wasOpenedWithDeepLink app = false ->
  coherent (shown p app).
Proof.
  intros Hin Hflag. unfold coherent, shown. destruct app. simpl in *.
  split; [exact Hin|]. split; [reflexivity|]. rewrite Hflag. discriminate.
Qed.

Lemma selectCategory_run name prompts random p app supply :
  obj_get (categoryGroups app) name = Some prompts ->
  getRandomPrompt prompts random = Some p ->
  selectCategory name app (random :: supply)
  = Done tt (displayed p (set_currentCategory name app)) supply.
Proof.
  intros Hget Hp. apply lookupCategory_get in Hget.
  destruct app as [groups cat cur pinned pv opened query]. simpl in *.
  unfold selectCategory. simpl_handler. rewrite Hget, Hp. now destruct opened.
Qed.

Lemma selectCategory_starved name app :
  selectCategory name app [] = Starved.
Proof.
  reflexivity.
Qed.

Lemma resample_kept prompts current supply : forall candidate app,
  prompts <> [] ->
  random_values supply ->
  In candidate prompts ->
  match resample prompts current (Some candidate) app supply with
  | Done (Some p) app' rest => app' = app /\ In p prompts /\ random_values rest
  | Done None _ _ => False
  | Raised _ => False
  | Starved => True
  end.
Proof.
  induction supply as [| random supply IH]; intros candidate app Hne Hvalid Hin; simpl.
  - destruct (prompt candidate =? prompt current); [exact I | auto].
  - destruct (prompt candidate =? prompt current); [|auto].
    inversion Hvalid as [| ? ? Hr Hvalid']; subst.
    destruct (getRandomPrompt_Some prompts random Hne Hr) as (q & -> & Hq).
    now apply IH.
Qed.

Lemma selectNewPrompt_starved app :
  (isPinned app && truthy (currentCategory app)) = true ->
  selectNewPrompt app [] = Starved.
Proof.
  destruct app as [groups cat cur pinned pv opened query]. simpl.
  intros Hpinned. unfold selectNewPrompt. simpl_handler.
  change (match pinned with true => truthy cat | false => false end)
    with (pinned && truthy cat). now rewrite Hpinned.
Qed.

Lemma loadRandomPromptFromAnyCategory_starved app :
  allPromptsOf (categoryGroups app) <> [] ->
  loadRandomPromptFromAnyCategory app [] = Starved.
Proof.
  destruct app as [groups cat cur pinned pv opened query]. simpl. intros H.
  unfold loadRandomPromptFromAnyCategory. simpl_handler.
  destruct (allPromptsOf groups); [contradiction | reflexivity].
Qed.

Lemma loadRandomPromptFromAnyCategory_empty app supply :
  allPromptsOf (categoryGroups app) = [] ->
  loadRandomPromptFromAnyCategory app supply = Done tt app supply.
Proof.
  destruct app as [groups cat cur pinned pv opened query]. simpl. intros H.
  unfold loadRandomPromptFromAnyCategory. simpl_handler. now rewrite H.
Qed.

Lemma coherent_untouched app app' :
  currentPrompt app' = currentPrompt app ->
  categoryGroups app' = categoryGroups app ->
  currentCategory app' = currentCategory app ->
  wasOpenedWithDeepLink app' = wasOpenedWithDeepLink app ->
  search app' = search app ->
  coherent app -> coherent app'.
Proof.
  unfold coherent. intros -> -> -> -> ->. auto.
Qed.

Lemma selectNewPrompt_kept app supply :
  grouped_by_category (categoryGroups app) -> coherent app -> random_values supply ->
  kept app (selectNewPrompt app supply).
Proof.
  intros Hgrouped Hcoherent Hvalid.
  assert (Hreload : wasOpenedWithDeepLink (reloading app) = false) by (destruct app; reflexivity).
  assert (Hgroups : categoryGroups (reloading app) = categoryGroups app)
    by (destruct app; reflexivity).
  destruct (isPinned app && truthy (currentCategory app)) eqn:Hpinned.
  - apply andb_prop in Hpinned. destruct Hpinned as [Hpinned Hcat].
    unfold coherent in Hcoherent.
    destruct (currentPrompt app) as [current|] eqn:Hcur.
    2:{ destruct Hcoherent as [Hnone _]. rewrite Hnone in Hcat. discriminate. }
    destruct Hcoherent as (Hin & Hcategory & _).
    destruct (grouped_lookup _ _ Hgrouped Hin) as (prompts & Hget & Hcurrent).
    rewrite <- Hcategory in Hget.
    assert (Hne : prompts <> []) by (intros ->; destruct Hcurrent).
    assert (Hall : forall q, In q prompts -> In q (allPromptsOf (categoryGroups app)))
      by (intros q; apply in_allPromptsOf with (k := currentCategory app);
          now apply obj_get_In).
    destruct supply as [| random supply].
    { rewrite selectNewPrompt_starved; [exact I | now rewrite Hpinned, Hcat]. }
    inversion Hvalid as [| ? ? Hr Hvalid']; subst.
    rewrite (selectNewPrompt_pinned _ _ _ _ _ Hpinned Hcat Hget Hcur).
    destruct (getRandomPrompt_Some prompts random Hne Hr) as (q & Hq & Hqin).
    rewrite Hq.
    destruct (1 <? List.length prompts)%nat.
    + pose proof (resample_kept prompts current supply q (reloading app) Hne Hvalid' Hqin)
        as Hloop.
      destruct (resample _ _ _ _ _) as [[r|] app2 rest | e |]; try contradiction; [|exact I].
      destruct Hloop as (-> & Hr' & Hrest).
      rewrite (displayPrompt_Some _ _ _ Hreload). simpl.
      split; [|split; [destruct app; reflexivity | exact Hrest]].
      apply coherent_shown; [rewrite Hgroups; auto | exact Hreload].
    + rewrite (displayPrompt_Some _ _ _ Hreload). simpl.
      split; [|split; [destruct app; reflexivity | exact Hvalid']].
      apply coherent_shown; [rewrite Hgroups; auto | exact Hreload].
  - rewrite (selectNewPrompt_unpinned _ _ Hpinned).
    destruct (allPromptsOf (categoryGroups app)) as [| first others] eqn:Hall.
    + rewrite loadRandomPromptFromAnyCategory_empty by (now rewrite Hgroups).
      simpl. split; [|split; [exact Hgroups | exact Hvalid]].
      unfold coherent in *. destruct app as [groups cat cur pinned pv opened query].
      simpl in *. destruct cur as [p|].
      * destruct Hcoherent as [Hin _]. rewrite Hall in Hin. destruct Hin.
      * destruct Hcoherent as [-> _]. auto.
    + destruct supply as [| random supply].
      { rewrite loadRandomPromptFromAnyCategory_starved; [exact I|].
        rewrite Hgroups, Hall. discriminate. }
      inversion Hvalid as [| ? ? Hr Hvalid']; subst.
      destruct (getRandomPrompt_Some (allPromptsOf (categoryGroups app)) random
                  ltac:(rewrite Hall; discriminate) Hr) as (p & Hp & Hin).
      rewrite <- Hgroups in Hp.
      rewrite (loadRandomPromptFromAnyCategory_run _ _ _ _ Hreload Hp). simpl.
      split; [|split; [destruct app; reflexivity | exact Hvalid']].
      apply coherent_shown; [rewrite Hgroups; auto | exact Hreload].
Qed.

Lemma onCategoryChange_kept placeholder value app supply :
  grouped_by_category (categoryGroups app) -> coherent app -> random_values supply ->
  In value (populateSelect placeholder (categoryGroups app)) ->
  kept app (onCategoryChange value app supply).
Proof.
  intros Hgrouped Hcoherent Hvalid Hvalue. unfold onCategoryChange.
  destruct (truthy value) eqn:Htruthy.
  2:{ simpl. auto. }
  assert (Hkey : In value (obj_keys (categoryGroups app))).
  { unfold populateSelect in Hvalue. apply in_app_or in Hvalue.
    destruct Hvalue as [Hvalue | Hvalue]; [|exact Hvalue].
    destruct placeholder; [|destruct Hvalue].
    destruct Hvalue as [<- | []]. discriminate. }
  destruct (key_lookup _ _ Hgrouped Hkey) as (prompts & Hget & Hne & Hentry).
  destruct supply as [| random supply]; [exact I|].
  inversion Hvalid as [| ? ? Hr Hvalid']; subst.
  destruct (getRandomPrompt_Some prompts random Hne Hr) as (p & Hp & Hin).
  unfold and_then. rewrite (selectCategory_run _ _ _ _ _ _ Hget Hp).
  simpl. split; [|split; [destruct app; reflexivity | exact Hvalid']].
  apply (coherent_untouched (displayed p (set_currentCategory value app)));
    try (destruct app; reflexivity).
  apply coherent_displayed. destruct app; simpl in *. now apply (in_allPromptsOf _ value prompts).
Qed.

Lemma copyCurrentLink_run clipboard_writeText app supply :
  exists copied,
    copyCurrentLink clipboard_writeText app supply
    = Done copied
        (match currentPrompt app with
         | Some p => if wasOpenedWithDeepLink app then app else set_search [("id", id p)] app
         | None => app
         end)
        supply
    /\ copiedQuery copied
       = match currentPrompt app with
         | Some p => if wasOpenedWithDeepLink app then search app else [("id", id p)]
         | None => search app
         end.
Proof.
  destruct app as [groups cat cur pinned pv opened query].
  unfold copyCurrentLink, fallbackCopyLink, putPromptIntoUrl. simpl_handler.
  destruct opened, cur as [p|]; simpl_handler;
    match goal with
    | |- context [clipboard_writeText ?q] => destruct (clipboard_writeText q)
    end; eexists; split; reflexivity.
Qed.

Lemma listener_kept clipboard_writeText placeholder event app supply :
  grouped_by_category (categoryGroups app) -> coherent app -> random_values supply ->
  (forall value, event = CategoryChange value ->
                 In value (populateSelect placeholder (categoryGroups app))) ->
  kept app (setupEventListeners clipboard_writeText event app supply).
Proof.
  intros Hgrouped Hcoherent Hvalid Hvalue.
  destruct event as [value | | | |]; simpl.
  - apply (onCategoryChange_kept placeholder); auto.
  - split; [|split; [destruct app; reflexivity | exact Hvalid]].
    revert Hcoherent. apply coherent_untouched; destruct app; reflexivity.
  - now apply selectNewPrompt_kept.
  - unfold and_then.
    destruct (copyCurrentLink_run clipboard_writeText app supply) as (copied & -> & _).
    simpl. split; [|split; [|exact Hvalid]].
    + unfold coherent in *. destruct app as [groups cat cur pinned pv opened query].
      simpl in *. destruct cur as [p|]; [|exact Hcoherent].
      destruct opened; [exact Hcoherent|]. simpl.
      destruct Hcoherent as (Hin & Hcat & _). repeat split; auto; discriminate.
    + destruct app as [groups cat cur pinned pv opened query]. simpl.
      destruct cur; [destruct opened|]; reflexivity.
  - split; [|split; [destruct app; reflexivity | exact Hvalid]].
    revert Hcoherent. apply coherent_untouched; destruct app; reflexivity.
Qed.

(** The listeners never throw, and they keep the application coherent.
    Started over a catalogue as the loaders make it, in a coherent state,
    and fed events of the page (a change of the category select to one of its
    options, clicks on the buttons) in any order, the listeners each return
    or are still drawing; whenever all of them have returned the prompt on
    show is one of the catalogue, the current category is its category, an
    address kept in step with the prompt names it, and the catalogue is the
    one they started with. *)
Theorem listeners_keep_the_application_coherent
    (clipboard_writeText : list (string * string) -> Outcome unit) (placeholder : bool)
    (events : list Event) (app : App) (supply : list Z) :
  grouped_by_category (categoryGroups app) ->
  coherent app ->
  random_values supply ->
  (forall value, In (CategoryChange value) events ->
                 In value (populateSelect placeholder (categoryGroups app))) ->
  match listen clipboard_writeText events app supply with
  | Done _ app' _ => coherent app' /\ categoryGroups app' = categoryGroups app
  | Raised _ => False
  | Starved => True
  end.
Proof.
  revert app supply.
  induction events as [| event events IH]; intros app supply Hgrouped Hcoherent Hvalid Hvalues.
  - simpl. auto.
  - simpl. unfold and_then.
    pose proof (listener_kept clipboard_writeText placeholder event app supply
                  Hgrouped Hcoherent Hvalid) as Hstep.
    destruct (setupEventListeners clipboard_writeText event app supply)
      as [[] app1 supply1 | e |].
    + destruct Hstep as (Hcoherent1 & Hgroups1 & Hvalid1).
      { intros value ->. apply Hvalues. now left. }
      assert (Hvalues1 : forall value, In (CategoryChange value) events ->
                In value (populateSelect placeholder (categoryGroups app1))).
      { intros value Hin. rewrite Hgroups1. apply Hvalues. now right. }
      rewrite <- Hgroups1 in Hgrouped.
      specialize (IH app1 supply1 Hgrouped Hcoherent1 Hvalid1 Hvalues1).
      destruct (listen clipboard_writeText events app1 supply1) as [[] app2 supply2 | e |].
      * destruct IH as [Hc Hg]. split; [exact Hc | congruence].
      * exact IH.
      * exact I.
    + apply Hstep. intros value ->. apply Hvalues. now left.
    + exact I.
Qed.

(** A fresh application over the sample legacy catalogue: pick [Biography],
    ask for a new prompt, copy the link, unpin, ask again. *)
Lemma listeners_keep_the_application_coherent_witness :
  match listen clipboardRefuses
          [CategoryChange "Biography"; NewPromptClick; CopyLinkClick; PinClick; NewPromptClick]
          (initialApp legacyCatalogue []) [0%Z; 0%Z; oneHalf; oneHalf] with
  | Done _ app' _ => coherent app' /\ categoryGroups app' = legacyCatalogue
  | Raised _ => False
  | Starved => True
  end.
Proof.
  apply (listeners_keep_the_application_coherent clipboardRefuses true
           [CategoryChange "Biography"; NewPromptClick; CopyLinkClick; PinClick; NewPromptClick]
           (initialApp legacyCatalogue []) [0%Z; 0%Z; oneHalf; oneHalf]).
  - repeat split.
    + intros k prompts p [[= <- <-] | []] [<- | [<- | []]]; reflexivity.
    + repeat constructor. simpl. tauto.
    + intros k prompts [[= <- <-] | []]. discriminate.
  - split; reflexivity.
  - repeat constructor.
  - intros value [[= <-] | [H | [H | [H | [H | []]]]]]; try discriminate. simpl. auto.
Defined.

Ltac step_selection :=
  simpl_handler;
  match goal with
  | H : ?x = _ |- context [match ?x with _ => _ end] => rewrite H
  | |- context [match lookupCategory ?g ?n with _ => _ end] =>
      destruct (lookupCategory g n) eqn:?
  | |- context [match getRandomPrompt ?l ?r with _ => _ end] =>
      destruct (getRandomPrompt l r) eqn:?
  | |- context [match resample ?l ?c ?n ?a ?s with _ => _ end] =>
      destruct (resample l c n a s) as [[?|] ? ?| ? |] eqn:?
  | |- context [if (?n <? ?m)%nat then _ else _] => destruct (n <? m)%nat eqn:?
  | |- context [if truthy ?x then _ else _] => destruct (truthy x) eqn:?
  | |- context [match ?s with [] => Starved | _ => _ end] => destruct s
  | |- context [match ?b with true => _ | false => _ end] => is_var b; destruct b
  | |- context [match ?c with Some _ => _ | None => _ end] => is_var c; destruct c
  end.

Lemma selectNewPrompt_Done app supply app' rest :
  selectNewPrompt app supply = Done tt app' rest ->
  (app' = reloading app /\ allPromptsOf (categoryGroups app) = [])
  \/ exists p, app' = shown p (reloading app).
Proof.
  destruct app as [groups cat cur pinned pv opened query].
  unfold selectNewPrompt, loadRandomPromptFromAnyCategory.
  repeat step_selection.
  all: try match goal with
           | H : resample _ _ _ _ _ = Done _ _ _ |- _ =>
               apply resample_Done in H; destruct H as (-> & _)
           end.
  all: simpl_handler.
  all: try discriminate.
  all: intros Hrun; inversion Hrun; subst; clear Hrun.
  all: try (right; eexists; reflexivity).
  all: left; split; [reflexivity|].
  all: match goal with
       | H : (0 <? List.length ?l)%nat = false |- _ =>
           destruct l; [reflexivity | discriminate]
       end.
Qed.

(** The reload button leaves a clean address.  Whenever [selectNewPrompt]
    returns, the address has no query string and is no longer kept in step
    with the prompt, whatever it was before; the pin and the catalogue are as
    they were. *)
Theorem new_prompt_cleans_the_address (app : App) (supply : list Z) (app' : App) (rest : list Z) :
  selectNewPrompt app supply = Done tt app' rest ->
  search app' = []
  /\ wasOpenedWithDeepLink app' = false
  /\ isPinned app' = isPinned app
  /\ categoryGroups app' = categoryGroups app.
Proof.
  intros Hrun. apply selectNewPrompt_Done in Hrun.
  destruct Hrun as [[-> _] | (p & ->)]; destruct app; repeat split.
Qed.

Lemma new_prompt_cleans_the_address_witness :
  search (shown legacySecond (reloading linkedApp)) = []
  /\ wasOpenedWithDeepLink (shown legacySecond (reloading linkedApp)) = false
  /\ isPinned (shown legacySecond (reloading linkedApp)) = isPinned linkedApp
  /\ categoryGroups (shown legacySecond (reloading linkedApp)) = categoryGroups linkedApp.
Proof.
  apply (new_prompt_cleans_the_address linkedApp [oneHalf]
           (shown legacySecond (reloading linkedApp)) []).
  vm_compute. reflexivity.
Defined.

Lemma pinned_listener_kept clipboard_writeText name prompts event app supply :
  (forall p, In p prompts -> category p = name) ->
  obj_get (categoryGroups app) name = Some prompts ->
  name <> "" ->
  keeps_pin event = true ->
  pinned_to name prompts app ->
  random_values supply ->
  match setupEventListeners clipboard_writeText event app supply with
  | Done _ app' supply' =>
      pinned_to name prompts app'
      /\ categoryGroups app' = categoryGroups app
      /\ random_values supply'
  | Raised _ => False
  | Starved => True
  end.
Proof.
  intros Hcategory Hget Hname Hevent (Hpinned & Hcat & current & Hcur & Hcurrent) Hvalid.
  destruct event as [value | | | |]; try discriminate; simpl.
  - destruct app as [groups cat cur pinned pv opened query]. simpl in *.
    split; [|split; [reflexivity | exact Hvalid]].
    split; [exact Hpinned | split; [exact Hcat | eauto]].
  - subst name.
    assert (Hne : prompts <> []) by (intros ->; destruct Hcurrent).
    assert (Hreload : wasOpenedWithDeepLink (reloading app) = false)
      by (destruct app; reflexivity).
    apply truthy_true in Hname.
    destruct supply as [| random supply].
    { rewrite selectNewPrompt_starved; [exact I | now rewrite Hpinned, Hname]. }
    inversion Hvalid as [| ? ? Hr Hvalid']; subst.
    rewrite (selectNewPrompt_pinned _ _ _ _ _ Hpinned Hname Hget Hcur).
    destruct (getRandomPrompt_Some prompts random Hne Hr) as (q & -> & Hq).
    assert (Hshown : forall r rest, In r prompts -> random_values rest ->
              pinned_to (currentCategory app) prompts (shown r (reloading app))
              /\ categoryGroups (shown r (reloading app)) = categoryGroups app
              /\ random_values rest).
    { intros r rest Hr' Hrest. split; [|split; [destruct app; reflexivity | exact Hrest]].
      destruct app as [groups cat cur pinned pv opened query]. simpl in *.
      split; [exact Hpinned | split; [simpl; now apply Hcategory | simpl; eauto]]. }
    destruct (1 <? List.length prompts)%nat.
    + pose proof (resample_kept prompts current supply q (reloading app) Hne Hvalid' Hq)
        as Hloop.
      destruct (resample _ _ _ _ _) as [[r|] app2 rest | e |]; try contradiction; [|exact I].
      destruct Hloop as (-> & Hr' & Hrest).
      rewrite (displayPrompt_Some _ _ _ Hreload). now apply Hshown.
    + rewrite (displayPrompt_Some _ _ _ Hreload). now apply Hshown.
  - unfold and_then.
    destruct (copyCurrentLink_run clipboard_writeText app supply) as (copied & -> & _).
    destruct app as [groups cat cur pinned pv opened query]. simpl in *. subst cur.
    destruct opened; simpl;
      (split; [|split; [reflexivity | exact Hvalid]]);
      (split; [exact Hpinned | split; [exact Hcat | exists current; split; [reflexivity | exact Hcurrent]]]).
Qed.

Lemma pinned_listeners_kept clipboard_writeText name prompts events :
  (forall p, In p prompts -> category p = name) ->
  name <> "" ->
  forall app supply,
    obj_get (categoryGroups app) name = Some prompts ->
    forallb keeps_pin events = true ->
    pinned_to name prompts app ->
    random_values supply ->
    match listen clipboard_writeText events app supply with
    | Done _ app' _ => pinned_to name prompts app'
    | Raised _ => False
    | Starved => True
    end.
Proof.
  intros Hcategory Hname.
  induction events as [| event events IH]; intros app supply Hget Hevents Hpinned Hvalid.
  - exact Hpinned.
  - simpl in Hevents. apply andb_prop in Hevents. destruct Hevents as [Hevent Hevents].
    simpl. unfold and_then.
    pose proof (pinned_listener_kept clipboard_writeText name prompts event app supply
                  Hcategory Hget Hname Hevent Hpinned Hvalid) as Hstep.
    destruct (setupEventListeners clipboard_writeText event app supply)
      as [[] app1 supply1 | e |]; [|exact Hstep | exact I].
    destruct Hstep as (Hpinned1 & Hgroups1 & Hvalid1).
    apply IH; auto. now rewrite Hgroups1.
Qed.

(** The pin holds.  Once a category has been chosen from the select, every
    prompt shown afterwards is one of that category and the application stays
    pinned to it, however often a new prompt is asked for, the purpose
    toggled or the link copied, until the pin is clicked or another category
    chosen; and none of these listeners throws. *)
Theorem pin_keeps_the_category
    (clipboard_writeText : list (string * string) -> Outcome unit)
    (events : list Event) (app : App) (name : string) (prompts : list Prompt)
    (supply : list Z) :
  grouped_by_category (categoryGroups app) ->
  obj_get (categoryGroups app) name = Some prompts ->
  name <> "" ->
  forallb keeps_pin events = true ->
  random_values supply ->
  match listen clipboard_writeText (CategoryChange name :: events) app supply with
  | Done _ app' _ => pinned_to name prompts app'
  | Raised _ => False
  | Starved => True
  end.
Proof.
  intros (Hcategory & _ & Hne) Hget Hname Hevents Hvalid.
  assert (Hentry : In (name, prompts) (categoryGroups app)) by now apply obj_get_In.
  specialize (Hne _ _ Hentry).
  assert (Hcategory' : forall p, In p prompts -> category p = name)
    by (intros p; now apply Hcategory).
  change (listen clipboard_writeText (CategoryChange name :: events) app supply)
    with (and_then (onCategoryChange name) (fun _ => listen clipboard_writeText events)
            app supply).
  unfold and_then at 1, onCategoryChange.
  rewrite (proj2 (truthy_true name) Hname).
  destruct supply as [| random supply]; [exact I|].
  inversion Hvalid as [| ? ? Hr Hvalid']; subst.
  destruct (getRandomPrompt_Some prompts random Hne Hr) as (p & Hp & Hin).
  unfold and_then at 1. rewrite (selectCategory_run _ _ _ _ _ _ Hget Hp).
  cbv beta iota delta [setPinned assign].
  apply pinned_listeners_kept; auto;
    destruct app as [groups cat cur pinned pv opened query]; simpl in *; try exact Hget.
  split; [reflexivity | split; [simpl; now apply Hcategory' | simpl; eauto]].
Qed.

(** Over the sample legacy catalogue: choose [Biography], then ask for a new
    prompt twice, copying the link in between. *)
Lemma pin_keeps_the_category_witness :
  match listen clipboardWorks
          [CategoryChange "Biography"; NewPromptClick; CopyLinkClick; NewPromptClick]
          (initialApp legacyCatalogue []) [0%Z; 0%Z; oneHalf; 0%Z] with
  | Done _ app' _ => pinned_to "Biography" [legacyFirst; legacySecond] app'
  | Raised _ => False
  | Starved => True
  end.
Proof.
  apply (pin_keeps_the_category clipboardWorks [NewPromptClick; CopyLinkClick; NewPromptClick]
           (initialApp legacyCatalogue []) "Biography" [legacyFirst; legacySecond]
           [0%Z; 0%Z; oneHalf; 0%Z]).
  - repeat split.
    + intros k prompts p [[= <- <-] | []] [<- | [<- | []]]; reflexivity.
    + repeat constructor. simpl. tauto.
    + intros k prompts [[= <- <-] | []]. discriminate.
  - reflexivity.
  - discriminate.
  - reflexivity.
  - repeat constructor.
Defined.

(** ** Copying the link and opening it *)

Lemma findPromptById_unique (g : CategoryGroup) (p : Prompt) :
  NoDup (map id (allPromptsOf g)) -> In p (allPromptsOf g) ->
  findPromptById g (id p) = Some p.
Proof.
  intros Hnd Hin.
  destruct (findPromptById g (id p)) as [q|] eqn:E.
  - apply findPromptById_Some in E. destruct E as [Hq Hid].
    f_equal. now apply (NoDup_map_injective id (allPromptsOf g)).
  - rewrite findPromptById_None in E. now destruct (E p Hin).
Qed.

Lemma handleDeepLink_by_id decodeURIComponent app supply wanted found :
  params_get (search app) "id" = Some wanted ->
  wanted <> "" ->
  findPromptById (categoryGroups app) wanted = Some found ->
  handleDeepLink decodeURIComponent app supply = Done true (linked found app) supply.
Proof.
  intros Hid Hne Hfound. apply truthy_true in Hne.
  destruct app as [groups cat cur pinned pv opened query]. simpl in *.
  unfold handleDeepLink. simpl_handler. rewrite Hid, Hne, Hfound. reflexivity.
Qed.

(** The link that is copied opens the prompt on show.  In a coherent state
    with a prompt on show, [copyCurrentLink] hands over the address
    [?id=<id of that prompt>], whether it goes to the clipboard or, when the
    clipboard refuses, to the text area, and leaves the address of the page
    at that; and where the ids of the catalogue are pairwise distinct and the
    id is not empty, a fresh application over the same catalogue opened on
    the copied address shows that very prompt. *)
Theorem copied_link_opens_the_prompt
    (clipboard_writeText : list (string * string) -> Outcome unit)
    (decodeURIComponent : string -> Outcome string)
    (app : App) (p : Prompt) (supply supply' : list Z) :
  coherent app ->
  currentPrompt app = Some p ->
  id p <> "" ->
  NoDup (map id (allPromptsOf (categoryGroups app))) ->
  exists copied app',
    copyCurrentLink clipboard_writeText app supply = Done copied app' supply
    /\ copiedQuery copied = [("id", id p)]
    /\ search app' = [("id", id p)]
    /\ handleDeepLink decodeURIComponent
         (initialApp (categoryGroups app) (copiedQuery copied)) supply'
       = Done true (linked p (initialApp (categoryGroups app) (copiedQuery copied))) supply'.
Proof.
  intros Hcoherent Hcur Hid Hnd.
  destruct (copyCurrentLink_run clipboard_writeText app supply) as (copied & Hrun & Hquery).
  unfold coherent in Hcoherent. rewrite Hcur in *.
  destruct Hcoherent as (Hin & _ & Hlink).
  assert (Hcopied : copiedQuery copied = [("id", id p)]).
  { rewrite Hquery. destruct (wasOpenedWithDeepLink app); [now apply Hlink | reflexivity]. }
  eexists copied, _. split; [exact Hrun|]. split; [exact Hcopied|]. split.
  - destruct (wasOpenedWithDeepLink app); [now apply Hlink | destruct app; reflexivity].
  - rewrite Hcopied.
    apply (handleDeepLink_by_id _ _ _ (id p)); [reflexivity | exact Hid |].
    now apply findPromptById_unique.
Qed.

(** Showing [B1] of the sample legacy catalogue, with a clipboard that
    refuses. *)
Lemma copied_link_opens_the_prompt_witness :
  exists copied app',
    copyCurrentLink clipboardRefuses unpinnedApp [] = Done copied app' []
    /\ copiedQuery copied = [("id", "B1")]
    /\ search app' = [("id", "B1")]
    /\ handleDeepLink plainDecode (initialApp legacyCatalogue (copiedQuery copied)) []
       = Done true (linked legacyFirst (initialApp legacyCatalogue (copiedQuery copied))) [].
Proof.
  apply (copied_link_opens_the_prompt clipboardRefuses plainDecode unpinnedApp legacyFirst [] []).
  - repeat split; simpl; auto. discriminate.
  - reflexivity.
  - discriminate.
  - repeat constructor; simpl; intuition discriminate.
Defined.

(** ** Start-up *)

Lemma includes_In (array : list string) (s : string) :
  includes array s = true <-> In s array.
Proof.
  unfold includes. rewrite existsb_exists. split.
  - intros (x & Hin & Heq). apply String.eqb_eq in Heq. now subst.
  - intros Hin. exists s. split; [exact Hin | apply String.eqb_refl].
Qed.

Lemma getCurrentLanguage_available browser :
  In (LanguageManager.getCurrentLanguage browser) LanguageManager.AVAILABLE_LANGUAGES.
Proof.
  unfold LanguageManager.getCurrentLanguage.
  destruct (localStorage_getItem browser _) as [[stored|] | e]; try (simpl; now auto).
  destruct (truthy stored && includes LanguageManager.AVAILABLE_LANGUAGES stored) eqn:E;
    [|simpl; now auto].
  apply andb_prop in E. now apply includes_In.
Qed.

Lemma getCurrentTheme_available browser :
  In (ThemeManager.getCurrentTheme browser) ThemeManager.AVAILABLE_THEMES.
Proof.
  unfold ThemeManager.getCurrentTheme.
  destruct (localStorage_getItem browser _) as [[stored|] | e]; try (simpl; now auto).
  destruct (truthy stored && includes ThemeManager.AVAILABLE_THEMES stored) eqn:E;
    [|simpl; now auto].
  apply andb_prop in E. now apply includes_In.
Qed.

Lemma setTheme_returns theme browser :
  In theme ThemeManager.AVAILABLE_THEMES ->
  exists themed, ThemeManager.setTheme theme browser = Return themed.
Proof.
  intros Hin. apply includes_In in Hin. unfold ThemeManager.setTheme. rewrite Hin. simpl.
  destruct (localStorage_setItem browser _ theme); eauto.
Qed.

Lemma initializeTheme_returns browser :
  exists themed,
    initializeTheme browser = Return (ThemeManager.getCurrentTheme browser, themed).
Proof.
  unfold initializeTheme.
  destruct (setTheme_returns _ browser (getCurrentTheme_available browser)) as (themed & ->).
  simpl. eauto.
Qed.

Lemma loadPrompts_Return fetch yaml_load language g :
  loadPrompts fetch yaml_load language = Return g ->
  exists yamlText,
    produced_by_a_loader fetch yaml_load yamlText (requestedLanguage language) g.
Proof.
  rewrite loadPrompts_unfold, loadPromptsFromUnified_unfold.
  destruct (unifiedText fetch) as [yamlText | e]; simpl.
  - unfold try_catch.
    destruct (loadPromptsFromCleanStructure yaml_load yamlText _) as [g1 | e1] eqn:Hclean.
    + intros [= <-]. exists yamlText. now left.
    + destruct (loadPromptsFromNestedStructure yaml_load yamlText _) as [g2 | e2] eqn:Hnested.
      * intros [= <-]. exists yamlText. right. now left.
      * intros H. exists yamlText. right. now right.
  - intros H. exists "". right. now right.
Qed.

Lemma loadPrompts_grouped fetch yaml_load language g :
  loadPrompts fetch yaml_load language = Return g -> grouped_by_category g.
Proof.
  intros H. apply loadPrompts_Return in H. destruct H as (yamlText & H).
  apply produced_by_a_loader_emitted in H. destruct H as (emitted & H).
  now apply groupPrompts_spec in H.
Qed.

Lemma grouped_nonempty (g : CategoryGroup) :
  grouped_by_category g -> g <> [] -> allPromptsOf g <> [].
Proof.
  intros (_ & _ & Hne) Hg. destruct g as [| [k prompts] g]; [contradiction|].
  specialize (Hne k prompts (or_introl eq_refl)).
  unfold allPromptsOf. simpl. destruct prompts; [contradiction | discriminate].
Qed.

Lemma coherent_linked p app :
  In p (allPromptsOf (categoryGroups app)) -> coherent (linked p app).
Proof.
  intros Hin. unfold coherent, linked. simpl. auto.
Qed.

Lemma handleDeepLink_plain decodeURIComponent app supply :
  params_get (search app) "id" = None ->
  params_get (search app) "category" = None ->
  handleDeepLink decodeURIComponent app supply = Done false app supply.
Proof.
  intros Hid Hcat.
  destruct app as [groups cat cur pinned pv opened query]. simpl in *.
  unfold handleDeepLink. simpl_handler. rewrite Hid, Hcat. reflexivity.
Qed.

Section StartupFacts.

Variable fetch : string -> Outcome Response.
Variable yaml_load : string -> Outcome YamlDocument.
Variable decodeURIComponent : string -> Outcome string.
Variable TranslationManager_initialize : string -> Outcome unit.

Let start := init fetch yaml_load decodeURIComponent TranslationManager_initialize.

Lemma init_unfold browser query supply :
  exists themed,
    start browser (initialApp [] query) supply
    = match TranslationManager_initialize (LanguageManager.getCurrentLanguage browser) with
      | Throw e => Raised e
      | Return _ =>
          match loadPrompts fetch yaml_load (Some (LanguageManager.getCurrentLanguage browser)) with
          | Throw e => Raised e
          | Return g =>
              and_then
                (if (0 <? List.length (obj_keys g))%nat
                 then
                   and_then (handleDeepLink decodeURIComponent)
                     (fun hasDeepLink =>
                        if negb hasDeepLink then loadRandomPromptFromAnyCategory else ret tt)
                 else ret tt)
                (fun _ =>
                   ret {| currentLanguage := LanguageManager.getCurrentLanguage browser;
                          currentTheme := ThemeManager.getCurrentTheme browser;
                          browser := themed |})
                (initialApp g query) supply
          end
      end.
Proof.
  unfold start, init, initializeLanguage.
  destruct (initializeTheme_returns
              (set_documentElement_lang
                 (toLowerCase (LanguageManager.getCurrentLanguage browser)) browser))
    as (themed & Hthemed).
  exists themed. rewrite Hthemed. unfold loadAndDisplayCategories.
  destruct (TranslationManager_initialize _) as [[] | e]; [|reflexivity].
  destruct (loadPrompts fetch yaml_load _) as [g | e]; reflexivity.
Qed.

Lemma init_kept browser query supply :
  random_values supply ->
  match start browser (initialApp [] query) supply with
  | Done preferences app' _ =>
      currentLanguage preferences = LanguageManager.getCurrentLanguage browser
      /\ In (currentLanguage preferences) LanguageManager.AVAILABLE_LANGUAGES
      /\ loadPrompts fetch yaml_load (Some (currentLanguage preferences))
         = Return (categoryGroups app')
      /\ grouped_by_category (categoryGroups app')
      /\ coherent app'
      /\ (categoryGroups app' <> [] -> currentPrompt app' <> None)
  | Raised _ => True
  | Starved => True
  end.
Proof.
  intros Hvalid.
  destruct (init_unfold browser query supply) as (themed & ->).
  destruct (TranslationManager_initialize _) as [[] | e]; [|exact I].
  destruct (loadPrompts fetch yaml_load _) as [g | e] eqn:Hload; [|exact I].
  pose proof (loadPrompts_grouped _ _ _ _ Hload) as Hgrouped.
  pose proof (getCurrentLanguage_available browser) as Hlanguage.
  assert (Hend : forall app' rest,
             categoryGroups app' = g -> coherent app' ->
             (g <> [] -> currentPrompt app' <> None) ->
             match ret {| currentLanguage := LanguageManager.getCurrentLanguage browser;
                          currentTheme := ThemeManager.getCurrentTheme browser;
                          browser := themed |} app' rest with
             | Done preferences app' _ =>
                 currentLanguage preferences = LanguageManager.getCurrentLanguage browser
                 /\ In (currentLanguage preferences) LanguageManager.AVAILABLE_LANGUAGES
                 /\ loadPrompts fetch yaml_load (Some (currentLanguage preferences))
                    = Return (categoryGroups app')
                 /\ grouped_by_category (categoryGroups app')
                 /\ coherent app'
                 /\ (categoryGroups app' <> [] -> currentPrompt app' <> None)
             | Raised _ => True
             | Starved => True
             end).
  { intros app' rest Hgroups Hcoherent Hshown. unfold ret. cbn [currentLanguage].
    rewrite Hgroups. auto 8. }
  unfold and_then at 1.
  destruct (0 <? List.length (obj_keys g))%nat eqn:Hkeys.
  - assert (Hg : g <> []) by (intros ->; discriminate).
    unfold and_then at 1.
    destruct (handleDeepLink decodeURIComponent (initialApp g query) supply)
      as [hasDeepLink app1 supply1 | e |] eqn:Hlink; try exact I.
    apply handleDeepLink_Done in Hlink.
    destruct hasDeepLink; simpl negb; cbv iota.
    + destruct Hlink as (p & Hin & [[-> ->] | [-> _]]); apply Hend;
        try reflexivity; try discriminate.
      * now apply coherent_linked.
      * apply (coherent_untouched (linked p (initialApp g query))); try reflexivity.
        now apply coherent_linked.
    + destruct Hlink as [-> Happ1].
      assert (Hflag : wasOpenedWithDeepLink app1 = false)
        by (rewrite Happ1; now destruct (_ || _)).
      assert (Hgroups : categoryGroups app1 = g)
        by (rewrite Happ1; now destruct (_ || _)).
      destruct supply as [| random supply].
      { rewrite loadRandomPromptFromAnyCategory_starved; [exact I|].
        rewrite Hgroups. now apply grouped_nonempty. }
      apply Forall_inv in Hvalid as Hr.
      destruct (getRandomPrompt_Some (allPromptsOf (categoryGroups app1)) random) as (p & Hp & Hin);
        [rewrite Hgroups; now apply grouped_nonempty | exact Hr |].
      rewrite (loadRandomPromptFromAnyCategory_run _ _ _ _ Hflag Hp).
      apply Hend.
      * rewrite <- Hgroups. destruct app1; reflexivity.
      * now apply coherent_shown.
      * destruct app1; discriminate.
  - apply Hend; [reflexivity | split; reflexivity |].
    intros Hg. exfalso. apply Hg. destruct g; [reflexivity | discriminate].
Qed.

End StartupFacts.

(** Start-up ends coherent.  Whenever the [try] block of [init] returns, the
    language it loaded the prompts for is the stored one if that is an
    available language and [EN] otherwise, the catalogue is what
    [loadPrompts] returned for it and is grouped by category, the state is
    coherent, and unless the catalogue is empty a prompt is on show. *)
Theorem start_up_ends_coherent
    (fetch : string -> Outcome Response) (yaml_load : string -> Outcome YamlDocument)
    (decodeURIComponent : string -> Outcome string)
    (TranslationManager_initialize : string -> Outcome unit)
    (browser : Browser) (query : list (string * string)) (supply : list Z) :
  random_values supply ->
  match init fetch yaml_load decodeURIComponent TranslationManager_initialize browser
          (initialApp [] query) supply with
  | Done preferences app' _ =>
      currentLanguage preferences = LanguageManager.getCurrentLanguage browser
      /\ In (currentLanguage preferences) LanguageManager.AVAILABLE_LANGUAGES
      /\ loadPrompts fetch yaml_load (Some (currentLanguage preferences))
         = Return (categoryGroups app')
      /\ grouped_by_category (categoryGroups app')
      /\ coherent app'
      /\ (categoryGroups app' <> [] -> currentPrompt app' <> None)
  | Raised _ => True
  | Starved => True
  end.
Proof.
  apply init_kept.
Qed.

(** The sample clean file, German stored as the language, the page opened on
    [?id=B1]. *)
Lemma start_up_ends_coherent_witness :
  match init cleanSite sampleParser plainDecode translationsLoad germanBrowser
          (initialApp [] [("id", "B1")]) [] with
  | Done preferences app' _ =>
      currentLanguage preferences = LanguageManager.getCurrentLanguage germanBrowser
      /\ In (currentLanguage preferences) LanguageManager.AVAILABLE_LANGUAGES
      /\ loadPrompts cleanSite sampleParser (Some (currentLanguage preferences))
         = Return (categoryGroups app')
      /\ grouped_by_category (categoryGroups app')
      /\ coherent app'
      /\ (categoryGroups app' <> [] -> currentPrompt app' <> None)
  | Raised _ => True
  | Starved => True
  end.
Proof.
  apply (start_up_ends_coherent cleanSite sampleParser plainDecode translationsLoad
           germanBrowser [("id", "B1")] []).
  constructor.
Defined.

(** An ordinary start.  When the texts of the user interface and a
    catalogue that is not empty load, and the address names neither an id nor
    a category, [init] shows the prompt [Math.random] picks among all prompts
    of the catalogue, with one call of it; the application is not pinned and
    the address stays as it was. *)
Theorem plain_start_draws_from_all_categories
    (fetch : string -> Outcome Response) (yaml_load : string -> Outcome YamlDocument)
    (decodeURIComponent : string -> Outcome string)
    (TranslationManager_initialize : string -> Outcome unit)
    (browser : Browser) (query : list (string * string)) (g : CategoryGroup)
    (random : Z) (supply : list Z) :
  TranslationManager_initialize (LanguageManager.getCurrentLanguage browser) = Return tt ->
  loadPrompts fetch yaml_load (Some (LanguageManager.getCurrentLanguage browser)) = Return g ->
  g <> [] ->
  params_get query "id" = None ->
  params_get query "category" = None ->
  is_random_value random = true ->
  exists p preferences,
    getRandomPrompt (allPromptsOf g) random = Some p
    /\ init fetch yaml_load decodeURIComponent TranslationManager_initialize browser
         (initialApp [] query) (random :: supply)
       = Done preferences (shown p (initialApp g query)) supply
    /\ isPinned (shown p (initialApp g query)) = false
    /\ search (shown p (initialApp g query)) = query.
Proof.
  intros Htexts Hload Hg Hid Hcat Hr.
  pose proof (loadPrompts_grouped _ _ _ _ Hload) as Hgrouped.
  destruct (getRandomPrompt_Some (allPromptsOf g) random (grouped_nonempty _ Hgrouped Hg) Hr)
    as (p & Hp & _).
  destruct (init_unfold fetch yaml_load decodeURIComponent TranslationManager_initialize
              browser query (random :: supply)) as (themed & Hinit).
  exists p. eexists. split; [exact Hp|]. split; [|split; reflexivity].
  rewrite Hinit, Htexts, Hload.
  assert (Hkeys : (0 <? List.length (obj_keys g))%nat = true)
    by (destruct g; [contradiction | reflexivity]).
  rewrite Hkeys. unfold and_then.
  rewrite (handleDeepLink_plain decodeURIComponent (initialApp g query) _ Hid Hcat).
  cbv beta iota delta [negb].
  rewrite (loadRandomPromptFromAnyCategory_run (initialApp g query) random supply p eq_refl Hp).
  reflexivity.
Qed.

(** The sample clean file, nothing stored, the page opened without a query. *)
Lemma plain_start_draws_from_all_categories_witness :
  exists p preferences,
    getRandomPrompt (allPromptsOf englishCatalogue) oneHalf = Some p
    /\ init cleanSite sampleParser plainDecode translationsLoad freshBrowser
         (initialApp [] []) [oneHalf]
       = Done preferences (shown p (initialApp englishCatalogue [])) []
    /\ isPinned (shown p (initialApp englishCatalogue [])) = false
    /\ search (shown p (initialApp englishCatalogue [])) = [].
Proof.
  apply (plain_start_draws_from_all_categories cleanSite sampleParser plainDecode
           translationsLoad freshBrowser [] englishCatalogue); try reflexivity.
  discriminate.
Defined.

(** ** Preferences *)

Lemma getItem_after_setItem browser key value stored key' :
  localStorage_setItem browser key value = Return stored ->
  localStorage_getItem stored key'
  = Return (if key =? key' then Some value else obj_get (localStorage browser) key').
Proof.
  unfold localStorage_setItem, localStorage_getItem.
  destruct (localStorage_blocked browser) eqn:Hblocked; [discriminate|].
  destruct (localStorage_full browser); [discriminate|].
  intros [= <-]. simpl. rewrite Hblocked. now rewrite obj_get_map_set.
Qed.

Lemma setItem_outcome browser key value :
  match localStorage_setItem browser key value with
  | Return _ => localStorage_blocked browser || localStorage_full browser = false
  | Throw _ => localStorage_blocked browser || localStorage_full browser = true
  end.
Proof.
  unfold localStorage_setItem.
  destruct (localStorage_blocked browser), (localStorage_full browser); reflexivity.
Qed.

Lemma available_truthy (array : list string) (s : string) :
  ~ In "" array -> includes array s = true -> truthy s && includes array s = true.
Proof.
  intros Hempty Hin. rewrite Hin, andb_true_r. apply truthy_true.
  intros ->. apply Hempty. now apply includes_In.
Qed.

(** What [LanguageManager.setLanguage] does, in full.  It throws exactly for
    a language that is not available, before anything is written.  For an
    available one it returns: either the storage took the value, and then
    [getCurrentLanguage] reads that language back, the [lang] attribute of
    the page is its lower-cased form and the stored theme is untouched; or
    the storage threw, and then nothing at all has changed. *)
Theorem language_preference_is_read_back (language : string) (browser : Browser) :
  match LanguageManager.setLanguage language browser with
  | Return saved =>
      In language LanguageManager.AVAILABLE_LANGUAGES
      /\ if localStorage_blocked browser || localStorage_full browser
         then saved = browser
         else LanguageManager.getCurrentLanguage saved = language
              /\ documentElement_lang saved = toLowerCase language
              /\ ThemeManager.getCurrentTheme saved = ThemeManager.getCurrentTheme browser
  | Throw e =>
      ~ In language LanguageManager.AVAILABLE_LANGUAGES
      /\ e = JsError ("Unsupported language: " ++ language)
  end.
Proof.
  unfold LanguageManager.setLanguage.
  destruct (includes LanguageManager.AVAILABLE_LANGUAGES language) eqn:Havailable; cbn [negb].
  2:{ split; [|reflexivity]. intros Hin. apply includes_In in Hin. congruence. }
  pose proof (setItem_outcome browser LanguageManager.STORAGE_KEY language) as Hstored.
  destruct (localStorage_setItem browser LanguageManager.STORAGE_KEY language)
    as [stored | e] eqn:Hset; rewrite Hstored;
    (split; [now apply includes_In|]); [|reflexivity].
  split; [|split].
  - unfold LanguageManager.getCurrentLanguage.
    change (localStorage_getItem (set_documentElement_lang (toLowerCase language) stored)
              LanguageManager.STORAGE_KEY)
      with (localStorage_getItem stored LanguageManager.STORAGE_KEY).
    rewrite (getItem_after_setItem _ _ _ _ _ Hset), String.eqb_refl.
    rewrite available_truthy; [reflexivity | | exact Havailable].
    simpl. intuition discriminate.
  - reflexivity.
  - unfold ThemeManager.getCurrentTheme.
    change (localStorage_getItem (set_documentElement_lang (toLowerCase language) stored)
              ThemeManager.STORAGE_KEY)
      with (localStorage_getItem stored ThemeManager.STORAGE_KEY).
    rewrite (getItem_after_setItem _ _ _ _ _ Hset).
    unfold localStorage_getItem.
    apply orb_false_elim in Hstored. destruct Hstored as [-> _]. reflexivity.
Qed.

(** What [ThemeManager.setTheme] does, in full.  It throws exactly for a
    theme that is not available.  For an available one it returns: either
    the storage took the value, and then [getCurrentTheme] reads that theme
    back, the page carries [data-theme="dark"] exactly for the dark theme,
    and the stored language is untouched; or the storage threw, and then
    nothing has changed, the attribute of the page included. *)
Theorem theme_preference_is_read_back (theme : string) (browser : Browser) :
  match ThemeManager.setTheme theme browser with
  | Return saved =>
      In theme ThemeManager.AVAILABLE_THEMES
      /\ if localStorage_blocked browser || localStorage_full browser
         then saved = browser
         else ThemeManager.getCurrentTheme saved = theme
              /\ (documentElement_data_theme saved = Some "dark" <-> theme = "dark")
              /\ (documentElement_data_theme saved = None <-> theme <> "dark")
              /\ LanguageManager.getCurrentLanguage saved
                 = LanguageManager.getCurrentLanguage browser
  | Throw e =>
      ~ In theme ThemeManager.AVAILABLE_THEMES
      /\ e = JsError ("Unsupported theme: " ++ theme)
  end.
Proof.
  unfold ThemeManager.setTheme.
  destruct (includes ThemeManager.AVAILABLE_THEMES theme) eqn:Havailable; cbn [negb].
  2:{ split; [|reflexivity]. intros Hin. apply includes_In in Hin. congruence. }
  pose proof (setItem_outcome browser ThemeManager.STORAGE_KEY theme) as Hstored.
  destruct (localStorage_setItem browser ThemeManager.STORAGE_KEY theme)
    as [stored | e] eqn:Hset; rewrite Hstored;
    (split; [now apply includes_In|]); [|reflexivity].
  split; [|split; [|split]].
  - unfold ThemeManager.getCurrentTheme.
    change (localStorage_getItem
              (set_documentElement_data_theme (if theme =? "dark" then Some "dark" else None)
                 stored)
              ThemeManager.STORAGE_KEY)
      with (localStorage_getItem stored ThemeManager.STORAGE_KEY).
    rewrite (getItem_after_setItem _ _ _ _ _ Hset), String.eqb_refl.
    rewrite available_truthy; [reflexivity | | exact Havailable].
    simpl. intuition discriminate.
  - simpl. destruct (theme =? "dark") eqn:E.
    + apply String.eqb_eq in E. tauto.
    + apply String.eqb_neq in E. split; [discriminate | contradiction].
  - simpl. destruct (theme =? "dark") eqn:E.
    + apply String.eqb_eq in E. split; [discriminate | contradiction].
    + apply String.eqb_neq in E. tauto.
  - unfold LanguageManager.getCurrentLanguage.
    change (localStorage_getItem
              (set_documentElement_data_theme (if theme =? "dark" then Some "dark" else None)
                 stored)
              LanguageManager.STORAGE_KEY)
      with (localStorage_getItem stored LanguageManager.STORAGE_KEY).
    rewrite (getItem_after_setItem _ _ _ _ _ Hset).
    unfold localStorage_getItem.
    apply orb_false_elim in Hstored. destruct Hstored as [-> _]. reflexivity.
Qed.

(** Whatever the storage holds, and whether or not it can be read, the
    language and the theme the application starts with are available ones;
    so [initializeTheme], which sets the theme it has just read, never
    throws. *)
Theorem stored_preferences_are_always_usable (browser : Browser) :
  In (LanguageManager.getCurrentLanguage browser) LanguageManager.AVAILABLE_LANGUAGES
  /\ In (ThemeManager.getCurrentTheme browser) ThemeManager.AVAILABLE_THEMES
  /\ exists themed,
       initializeTheme browser = Return (ThemeManager.getCurrentTheme browser, themed).
Proof.
  split; [apply getCurrentLanguage_available|].
  split; [apply getCurrentTheme_available | apply initializeTheme_returns].
Qed.

(** ** The change of language *)

Lemma setLanguage_returns language browser :
  In language LanguageManager.AVAILABLE_LANGUAGES ->
  exists saved, LanguageManager.setLanguage language browser = Return saved.
Proof.
  intros Hin. apply includes_In in Hin. unfold LanguageManager.setLanguage. rewrite Hin.
  cbn [negb]. destruct (localStorage_setItem browser _ language); eauto.
Qed.

(** Changing the language keeps the prompt.  When the prompt display is on
    screen, the new language is an available one, its texts and its
    catalogue load, and the catalogue holds a prompt with the id of the
    prompt on show, [switchLanguage] shows that prompt: no call of
    [Math.random], the pin, the visibility of the purpose and the deep-link
    mode as they were, and the current category that of the prompt in the
    new catalogue.  From a coherent state it ends in a coherent state, with
    the address as it was. *)
Theorem language_switch_keeps_the_prompt
    (fetch : string -> Outcome Response) (yaml_load : string -> Outcome YamlDocument)
    (TranslationManager_initialize : string -> Outcome unit)
    (newLanguage : string) (preferences : Preferences) (app : App) (supply : list Z)
    (g' : CategoryGroup) (p p' : Prompt) :
  In newLanguage LanguageManager.AVAILABLE_LANGUAGES ->
  TranslationManager_initialize newLanguage = Return tt ->
  loadPrompts fetch yaml_load (Some newLanguage) = Return g' ->
  currentPrompt app = Some p ->
  id p <> "" ->
  findPromptById g' (id p) = Some p' ->
  exists preferences' app',
    switchLanguage fetch yaml_load TranslationManager_initialize newLanguage true
      preferences app supply
    = Done preferences' app' supply
    /\ currentLanguage preferences' = newLanguage
    /\ categoryGroups app' = g'
    /\ currentPrompt app' = Some p'
    /\ id p' = id p
    /\ currentCategory app' = category p'
    /\ isPinned app' = isPinned app
    /\ purposeVisible app' = purposeVisible app
    /\ wasOpenedWithDeepLink app' = wasOpenedWithDeepLink app
    /\ (coherent app -> coherent app' /\ search app' = search app).
Proof.
  intros Havailable Htexts Hload Hcur Hid Hfound.
  destruct (setLanguage_returns newLanguage (browser preferences) Havailable) as (saved & Hsaved).
  destruct (findPromptById_Some _ _ _ Hfound) as [Hin Hsame].
  apply truthy_true in Hid.
  destruct app as [groups cat cur pinned pv opened query]. simpl in *. subst cur.
  unfold switchLanguage, loadAndDisplayCategories, togglePurpose.
  rewrite Hsaved, Htexts, Hload. simpl_handler.
  cbn [option_map]. rewrite Hid. cbn [andb]. rewrite Hfound.
  destruct pv, opened; simpl_handler;
    (eexists _, _; split; [reflexivity|]);
    repeat (split; [first [reflexivity | exact Hsame]|]);
    unfold coherent; simpl; intros (_ & _ & Hlink);
    (split; [split; [exact Hin | split; [reflexivity|]] |]);
    try discriminate; try reflexivity.
  all: try (intros _; reflexivity).
  all: rewrite Hsame; symmetry; now apply Hlink.
Qed.

(** Showing the German [B1] of the sample clean file, opened by a link and
    with the purpose visible, and switching to English. *)
Lemma language_switch_keeps_the_prompt_witness :
  exists preferences' app',
    switchLanguage cleanSite sampleParser translationsLoad "EN" true
      germanPreferences germanReader []
    = Done preferences' app' []
    /\ currentLanguage preferences' = "EN"
    /\ categoryGroups app' = englishCatalogue
    /\ currentPrompt app' = Some englishB1
    /\ id englishB1 = id germanB1
    /\ currentCategory app' = category englishB1
    /\ isPinned app' = isPinned germanReader
    /\ purposeVisible app' = purposeVisible germanReader
    /\ wasOpenedWithDeepLink app' = wasOpenedWithDeepLink germanReader
    /\ (coherent germanReader -> coherent app' /\ search app' = search germanReader).
Proof.
  apply (language_switch_keeps_the_prompt cleanSite sampleParser translationsLoad "EN"
           germanPreferences germanReader [] englishCatalogue germanB1 englishB1);
    try reflexivity.
  - simpl. auto.
  - discriminate.
Defined.

(** ** The order of the categories *)

Lemma obj_create_append {V : Type} (o : JsObject V) k v :
  array_index k = None -> obj_create o k v = o ++ [(k, v)].
Proof.
  intros Hk. induction o as [| [k0 v0] o IH]; simpl; [reflexivity|].
  now rewrite Hk, IH.
Qed.

Lemma includes_keys {V : Type} (o : JsObject V) k :
  includes (obj_keys o) k = match obj_get o k with Some _ => true | None => false end.
Proof.
  destruct (obj_get o k) eqn:E.
  - apply includes_In. apply obj_get_In in E. unfold obj_keys.
    change k with (fst (k, v)). now apply in_map.
  - apply obj_get_None in E. destruct (includes (obj_keys o) k) eqn:Hin; [|reflexivity].
    apply includes_In in Hin. contradiction.
Qed.

Lemma groupStep_keys grouped p g :
  array_index (category p) = None ->
  groupStep grouped p = Return g ->
  obj_keys g
  = if includes (obj_keys grouped) (category p) then obj_keys grouped
    else obj_keys grouped ++ [category p].
Proof.
  intros Hindex. unfold groupStep, obj_set. rewrite includes_keys.
  destruct (obj_get grouped (category p)) as [existing|] eqn:E.
  - intros [= <-]. apply obj_replace_keys.
  - destruct (inherited (category p)); [discriminate|].
    intros [= <-]. rewrite obj_create_append by exact Hindex.
    unfold obj_keys. now rewrite map_app.
Qed.

Lemma groupInto_keys prompts : forall grouped g,
  groupInto grouped prompts = Return g ->
  Forall (fun p => array_index (category p) = None) prompts ->
  obj_keys g
  = fold_left (fun seen name => if includes seen name then seen else seen ++ [name])
      (map category prompts) (obj_keys grouped).
Proof.
  induction prompts as [| p prompts IH]; intros grouped g Hrun Hnames; simpl in *.
  - now injection Hrun as <-.
  - apply bind_Return in Hrun. destruct Hrun as (grouped' & Hstep & Hrun).
    apply Forall_cons_iff in Hnames. destruct Hnames as [Hp Hnames].
    rewrite (IH _ _ Hrun Hnames), (groupStep_keys _ _ _ Hp Hstep). reflexivity.
Qed.

(** The categories come in the order of the document.  Where no category is
    named like an array index (a whole number written in decimal), the keys
    of the catalogue, which are the options [populateSelect] offers, are the
    category names of the loaded prompts in the order in which they first
    appear. *)
Theorem categories_are_listed_as_they_first_appear (prompts : list Prompt) (g : CategoryGroup) :
  groupPrompts prompts = Return g ->
  Forall (fun p => array_index (category p) = None) prompts ->
  obj_keys g = first_occurrences (map category prompts)
  /\ forall placeholder,
       populateSelect placeholder g
       = (if placeholder then [""] else []) ++ first_occurrences (map category prompts).
Proof.
  intros Hrun Hnames.
  assert (Hkeys : obj_keys g = first_occurrences (map category prompts))
    by apply (groupInto_keys prompts [] g Hrun Hnames).
  split; [exact Hkeys|]. intros placeholder. unfold populateSelect. now rewrite Hkeys.
Qed.

Lemma categories_are_listed_as_they_first_appear_witness :
  obj_keys [("Twins", [twinFirst; twinSecond]); ("Biography", [legacyFirst])]
  = first_occurrences (map category [twinFirst; legacyFirst; twinSecond])
  /\ forall placeholder,
       populateSelect placeholder [("Twins", [twinFirst; twinSecond]); ("Biography", [legacyFirst])]
       = (if placeholder then [""] else [])
         ++ first_occurrences (map category [twinFirst; legacyFirst; twinSecond]).
Proof.
  apply (categories_are_listed_as_they_first_appear [twinFirst; legacyFirst; twinSecond]
           [("Twins", [twinFirst; twinSecond]); ("Biography", [legacyFirst])]).
  - reflexivity.
  - repeat constructor.
Defined.

(** ** Splitting at a code unit *)

Lemma string_of_rev_cons c piece :
  string_of_list_ascii (rev (c :: piece))
  = (string_of_list_ascii (rev piece) ++ String c "")%string.
Proof.
  simpl. generalize (rev piece) as l. intros l.
  induction l as [| a l IH]; simpl; [reflexivity | now rewrite IH].
Qed.

Lemma append_assoc_string (a b c : string) : ((a ++ b) ++ c = a ++ (b ++ c))%string.
Proof.
  induction a as [| x a IH]; simpl; [reflexivity | now rewrite IH].
Qed.

Lemma append_empty_r (s : string) : (s ++ "")%string = s.
Proof.
  induction s as [| c s IH]; simpl; [reflexivity | now rewrite IH].
Qed.

Lemma prefix_unit c c' rest :
  String.prefix (String c "") (String c' rest) = (c' =? c)%char.
Proof.
  simpl. destruct (ascii_dec c c') as [-> | Hneq].
  - rewrite Ascii.eqb_refl. now destruct rest.
  - symmetry. apply Ascii.eqb_neq. congruence.
Qed.

Lemma split_from_segment c s : forall piece tail,
  without c s = true ->
  split_from (String c "") (s ++ tail) 0 piece
  = match tail with
    | EmptyString => [(string_of_list_ascii (rev piece) ++ s)%string]
    | String c' later =>
        if (c' =? c)%char
        then (string_of_list_ascii (rev piece) ++ s)%string
             :: split_from (String c "") later 0 []
        else split_from (String c "") tail 0 (rev (list_ascii_of_string s) ++ piece)
    end.
Proof.
  induction s as [| a s IH]; intros piece tail Hs.
  - simpl append. rewrite append_empty_r. destruct tail as [| c' later]; [reflexivity|].
    cbn [split_from]. rewrite prefix_unit. simpl. now destruct (c' =? c)%char.
  - simpl in Hs. apply andb_prop in Hs. destruct Hs as [Ha Hs].
    apply negb_true_iff in Ha.
    change (String a s ++ tail)%string with (String a (s ++ tail)%string).
    cbn [split_from]. rewrite prefix_unit, Ha.
    rewrite (IH (a :: piece) tail Hs), string_of_rev_cons, append_assoc_string.
    simpl. destruct tail as [| c' later]; [reflexivity|].
    destruct (c' =? c)%char; [reflexivity|]. now rewrite <- app_assoc.
Qed.

(** [segments.join(c).split(c)] gives the segments back, where no segment
    holds the code unit [c]. *)
Lemma split_concat c (segments : list string) :
  segments <> [] ->
  Forall (fun s => without c s = true) segments ->
  split (String.concat (String c "") segments) (String c "") = segments.
Proof.
  intros Hne Hfree. unfold split.
  induction Hfree as [| s segments Hs Hfree IH]; [contradiction|].
  destruct segments as [| s' segments].
  - simpl. rewrite <- (append_empty_r s) at 1.
    now rewrite (split_from_segment c s [] "" Hs).
  - change (String.concat (String c "") (s :: s' :: segments))
      with (s ++ String c (String.concat (String c "") (s' :: segments)))%string.
    rewrite (split_from_segment c s [] _ Hs), Ascii.eqb_refl.
    simpl string_of_list_ascii. simpl append at 1.
    f_equal. apply IH. discriminate.
Qed.

(** ** The texts of the user interface *)

(** [TranslationManager.get] follows the dotted key.  For a key made of
    segments joined by dots, it returns the string the segments lead to in
    the texts of the current language, one member after the other; and the
    key itself where there are no texts for the language, where a segment
    names no member, or where the path ends at something that is not a
    string. *)
Theorem translation_key_is_followed_segment_by_segment
    (manager : TranslationManager.t) (segments : list string) :
  segments <> [] ->
  Forall (fun s => without "." s = true) segments ->
  TranslationManager.get manager (String.concat "." segments)
  = match obj_get (TranslationManager.translations manager)
            (TranslationManager.currentLanguage manager) with
    | Some translations =>
        match TranslationManager.navigate translations segments with
        | Some (TranslationManager.Text s) => s
        | _ => String.concat "." segments
        end
    | None => String.concat "." segments
    end.
Proof.
  intros Hne Hfree. unfold TranslationManager.get.
  destruct (obj_get _ _) as [translations|]; [|reflexivity].
  rewrite (split_concat "." segments Hne Hfree).
  now destruct (TranslationManager.navigate translations segments) as [[s | members]|].
Qed.

Lemma translation_key_is_followed_segment_by_segment_witness :
  TranslationManager.get englishManager "buttons.copyLink" = "Copy link".
Proof.
  apply (translation_key_is_followed_segment_by_segment englishManager ["buttons"; "copyLink"]).
  - discriminate.
  - repeat constructor.
Defined.

(** ** Checked access to the page *)

(** [validateElements] returns exactly when no element is missing, and
    otherwise throws the error that names the first one that is. *)
Theorem validateElements_names_the_first_missing
    {T : Type} (elements : list (option T * string)) :
  match validateElements elements with
  | Return _ => Forall (fun entry => fst entry <> None) elements
  | Throw e =>
      exists found name later,
        elements = found ++ (None, name) :: later
        /\ Forall (fun entry => fst entry <> None) found
        /\ e = JsError (name ++ " element not found")
  end.
Proof.
  induction elements as [| [[element|] name] elements IH]; simpl.
  - constructor.
  - destruct (validateElements elements) as [[] | e].
    + constructor; [discriminate | exact IH].
    + destruct IH as (found & missing & later & -> & Hfound & ->).
      exists ((Some element, name) :: found), missing, later.
      split; [reflexivity|]. split; [|reflexivity].
      constructor; [discriminate | exact Hfound].
  - exists [], name, elements. split; [reflexivity|]. split; [constructor | reflexivity].
Qed.

(** ** Every prompt can be drawn *)

Section Reach.

Local Open Scope Z_scope.

(** A value with a significand of at most 53 bits is a binary64 as it stands. *)
Lemma roundToBinary64_exact (a t : Z) :
  0 <= a < 2 ^ 53 -> 0 <= t -> roundToBinary64 (a * 2 ^ t) = a * 2 ^ t.
Proof.
  intros [Ha0 Ha] Ht. unfold roundToBinary64.
  destruct (a * 2 ^ t <? 2 ^ 53) eqn:E; [reflexivity|].
  apply Z.ltb_ge in E.
  assert (Hpos : 0 < a).
  { destruct (Z.eq_dec a 0) as [-> | Hne]; [|lia]. rewrite Z.mul_0_l in E.
    assert (0 < 2 ^ 53) by (apply Z.pow_pos_nonneg; lia). lia. }
  cbv zeta. rewrite Z.log2_mul_pow2 by lia.
  assert (Hlog : Z.log2 a < 53) by (apply Z.log2_lt_pow2; lia).
  assert (Hbig : 53 <= t + Z.log2 a).
  { rewrite <- (Z.log2_mul_pow2 a t) by lia. apply Z.log2_le_pow2; [|exact E].
    apply Z.mul_pos_pos; [exact Hpos | apply Z.pow_pos_nonneg; lia]. }
  set (e := t + Z.log2 a - 52).
  assert (He : 1 <= e <= t) by (unfold e; lia).
  assert (Hm : a * 2 ^ t = a * 2 ^ (t - e) * 2 ^ e).
  { rewrite <- Z.mul_assoc, <- Z.pow_add_r by lia. do 2 f_equal. lia. }
  assert (Hpow : 0 < 2 ^ e) by (apply Z.pow_pos_nonneg; lia).
  assert (Hmod : (a * 2 ^ t) mod 2 ^ e = 0) by (rewrite Hm; apply Z.mod_mul; lia).
  assert (Hdiv : (a * 2 ^ t) / 2 ^ e = a * 2 ^ (t - e)) by (rewrite Hm; apply Z.div_mul; lia).
  rewrite Hmod, Hdiv.
  assert (Hhalf : 0 < 2 ^ (e - 1)) by (apply Z.pow_pos_nonneg; lia).
  apply Z.ltb_lt in Hhalf. rewrite Hhalf. symmetry. exact Hm.
Qed.

Lemma reach_value_is_random (j : Z) :
  0 <= j < 2 ^ 26 -> is_random_value (j * 2 ^ 1048) = true.
Proof.
  intros Hj. unfold is_random_value, binary64_scale.
  assert (Hs : 0 < 2 ^ 1048) by (apply Z.pow_pos_nonneg; lia).
  assert (Hscale : 2 ^ 1074 = 2 ^ 26 * 2 ^ 1048) by (rewrite <- Z.pow_add_r by lia; reflexivity).
  assert (Hexact : roundToBinary64 (j * 2 ^ 1048) = j * 2 ^ 1048).
  { apply roundToBinary64_exact; [|lia]. split; [lia|].
    apply Z.lt_trans with (2 ^ 26); [lia | apply Z.pow_lt_mono_r; lia]. }
  rewrite Hexact, Z.eqb_refl, andb_true_r. apply andb_true_intro. split.
  - apply Z.leb_le. apply Z.mul_nonneg_nonneg; lia.
  - apply Z.ltb_lt. rewrite Hscale. apply Z.mul_lt_mono_pos_r; lia.
Qed.

Lemma reach_index (n i : Z) :
  0 <= i < n -> n <= 2 ^ 26 ->
  let j := (i * 2 ^ 26 + n - 1) / n in
  0 <= j < 2 ^ 26
  /\ roundToBinary64 (j * 2 ^ 1048 * n) / binary64_scale = i.
Proof.
  intros Hi Hn j.
  assert (H26 : 2 ^ 26 = 67108864) by reflexivity.
  assert (Hj : n * j <= i * 2 ^ 26 + n - 1 < n * j + n).
  { unfold j. pose proof (Z.div_mod (i * 2 ^ 26 + n - 1) n ltac:(lia)) as Hdm.
    pose proof (Z.mod_pos_bound (i * 2 ^ 26 + n - 1) n ltac:(lia)) as Hmod. lia. }
  assert (Hj0 : 0 <= j) by (unfold j; apply Z.div_pos; nia).
  assert (Hjn : i * 2 ^ 26 <= j * n < (i + 1) * 2 ^ 26) by nia.
  assert (Hj26 : j < 2 ^ 26) by nia.
  split; [lia|].
  assert (Hs : 0 < 2 ^ 1048) by (apply Z.pow_pos_nonneg; lia).
  replace (j * 2 ^ 1048 * n) with (j * n * 2 ^ 1048) by ring.
  rewrite roundToBinary64_exact.
  - unfold binary64_scale.
    replace (2 ^ 1074) with (2 ^ 26 * 2 ^ 1048)
      by (rewrite <- Z.pow_add_r by lia; reflexivity).
    rewrite Z.div_mul_cancel_r by lia.
    symmetry. apply (Z.div_unique (j * n) (2 ^ 26) i (j * n - i * 2 ^ 26)); lia.
  - split; [nia|]. apply Z.lt_le_trans with (2 ^ 26 * 2 ^ 26); [nia|].
    rewrite <- Z.pow_add_r by lia. apply Z.pow_le_mono_r; lia.
  - lia.
Qed.

End Reach.

(** No prompt is out of reach.  For a list of up to [2^26] prompts and each
    of its elements there is a value [Math.random] can return for which
    [getRandomPrompt] returns that element: the multiple of [2^-26] next
    above [index / length]. *)
Theorem every_prompt_can_be_drawn (prompts : list Prompt) (index : nat) (p : Prompt) :
  nth_error prompts index = Some p ->
  (Z.of_nat (List.length prompts) <= 2 ^ 26)%Z ->
  exists random,
    is_random_value random = true
    /\ randomIndexOf random (List.length prompts) = Z.of_nat index
    /\ getRandomPrompt prompts random = Some p.
Proof.
  intros Hnth Hlen.
  assert (Hindex : (index < List.length prompts)%nat)
    by (apply nth_error_Some; congruence).
  destruct (reach_index (Z.of_nat (List.length prompts)) (Z.of_nat index)) as [Hj Hi];
    [lia | exact Hlen |].
  set (j := ((Z.of_nat index * 2 ^ 26 + Z.of_nat (List.length prompts) - 1)
             / Z.of_nat (List.length prompts))%Z) in *.
  exists (j * 2 ^ 1048)%Z.
  assert (Hrandom : randomIndexOf (j * 2 ^ 1048) (List.length prompts) = Z.of_nat index)
    by exact Hi.
  split; [now apply reach_value_is_random|]. split; [exact Hrandom|].
  unfold getRandomPrompt. rewrite Hrandom.
  destruct (Z.of_nat index <? 0)%Z eqn:E; [apply Z.ltb_lt in E; lia|].
  now rewrite Nat2Z.id.
Qed.

(** The second of two prompts is drawn for one half. *)
Lemma every_prompt_can_be_drawn_witness :
  exists random,
    is_random_value random = true
    /\ randomIndexOf random (List.length [legacyFirst; legacySecond]) = Z.of_nat 1
    /\ getRandomPrompt [legacyFirst; legacySecond] random = Some legacySecond.
Proof.
  apply (every_prompt_can_be_drawn [legacyFirst; legacySecond] 1 legacySecond).
  - reflexivity.
  - vm_compute. discriminate.
Defined.

(** The reload button can always get off the prompt on show.  Pinned to a
    category that holds a prompt with a text other than the one on show,
    there is a value of [Math.random] for which [selectNewPrompt] shows that
    prompt at the first draw. *)
Theorem another_prompt_can_be_drawn
    (app : App) (prompts : list Prompt) (current other : Prompt) :
  isPinned app = true ->
  truthy (currentCategory app) = true ->
  obj_get (categoryGroups app) (currentCategory app) = Some prompts ->
  currentPrompt app = Some current ->
  In other prompts ->
  prompt other <> prompt current ->
  (Z.of_nat (List.length prompts) <= 2 ^ 26)%Z ->
  exists random,
    is_random_value random = true
    /\ selectNewPrompt app [random] = Done tt (shown other (reloading app)) [].
Proof.
  intros Hpinned Hcat Hget Hcur Hin Hdiff Hlen.
  apply In_nth_error in Hin. destruct Hin as (index & Hnth).
  assert (Hindex : (index < List.length prompts)%nat)
    by (apply nth_error_Some; congruence).
  destruct (reach_index (Z.of_nat (List.length prompts)) (Z.of_nat index)) as [Hj Hi];
    [lia | exact Hlen |].
  set (j := ((Z.of_nat index * 2 ^ 26 + Z.of_nat (List.length prompts) - 1)
             / Z.of_nat (List.length prompts))%Z) in *.
  exists (j * 2 ^ 1048)%Z. split; [now apply reach_value_is_random|].
  assert (Hdrawn : getRandomPrompt prompts (j * 2 ^ 1048) = Some other).
  { unfold getRandomPrompt.
    change (randomIndexOf (j * 2 ^ 1048) (List.length prompts)) with
      (roundToBinary64 (j * 2 ^ 1048 * Z.of_nat (List.length prompts)) / binary64_scale)%Z.
    rewrite Hi.
    destruct (Z.of_nat index <? 0)%Z eqn:E; [apply Z.ltb_lt in E; lia|].
    now rewrite Nat2Z.id. }
  assert (Hreload : wasOpenedWithDeepLink (reloading app) = false) by (destruct app; reflexivity).
  rewrite (selectNewPrompt_pinned _ _ _ _ _ Hpinned Hcat Hget Hcur), Hdrawn.
  apply String.eqb_neq in Hdiff.
  destruct (1 <? List.length prompts)%nat.
  - simpl resample. rewrite Hdiff. apply (displayPrompt_Some _ _ _ Hreload).
  - apply (displayPrompt_Some _ _ _ Hreload).
Qed.

(** Pinned to [Biography] and showing [B1]: one half shows the other prompt. *)
Lemma another_prompt_can_be_drawn_witness :
  exists random,
    is_random_value random = true
    /\ selectNewPrompt pinnedApp [random] = Done tt (shown legacySecond (reloading pinnedApp)) [].
Proof.
  apply (another_prompt_can_be_drawn pinnedApp [legacyFirst; legacySecond]
           legacyFirst legacySecond); try reflexivity.
  - simpl. auto.
  - discriminate.
  - vm_compute. discriminate.
Defined.

(** ** Documents whose ids are pairwise distinct *)

Lemma string_of_uint_numeric d : all_chars numeric_char (NilEmpty.string_of_uint d) = true.
Proof. induction d; simpl; auto. Qed.

Lemma decimal_numeric n : all_chars numeric_char (decimal n) = true.
Proof.
  assert (Hu : forall d, all_chars numeric_char (NilZero.string_of_uint d) = true).
  { intros d. destruct d; try apply (string_of_uint_numeric (_ d)); reflexivity. }
  unfold decimal. destruct (Z.to_int n) as [d | d]; simpl; auto.
Qed.

Lemma numberToString_numeric n :
  safe_integer n -> all_chars numeric_char (numberToString n) = true.
Proof.
  intros Hsafe. rewrite (numberToString_safe _ Hsafe). apply decimal_numeric.
Qed.

Lemma decimal_inj n m : decimal n = decimal m -> n = m.
Proof.
  unfold decimal. intros H.
  assert (Hnormal : forall k, Z.to_int k <> Decimal.Pos Decimal.Nil
                              /\ Z.to_int k <> Decimal.Neg Decimal.Nil).
  { intros [| p | p]; simpl; split; try discriminate;
      intros E; injection E as E; now apply DecimalPos.Unsigned.to_uint_nonnil in E. }
  apply DecimalZ.to_int_inj.
  destruct (Hnormal n) as [Hn Hn'], (Hnormal m) as [Hm Hm'].
  pose proof (NilZero.isi _ Hn Hn') as En. pose proof (NilZero.isi _ Hm Hm') as Em.
  rewrite H in En. congruence.
Qed.

Lemma numberToString_inj n m :
  safe_integer n -> safe_integer m -> numberToString n = numberToString m -> n = m.
Proof.
  intros Hn Hm. rewrite (numberToString_safe _ Hn), (numberToString_safe _ Hm).
  apply decimal_inj.
Qed.

Lemma all_chars_last f s :
  all_chars f s = true ->
  match last_char s with Some c => f c = true | None => s = EmptyString end.
Proof.
  induction s as [| c rest IH]; simpl; [reflexivity|].
  intros H. apply andb_true_iff in H. destruct H as [Hc Hrest].
  specialize (IH Hrest). destruct (last_char rest); auto.
Qed.

Lemma all_chars_append f s t :
  all_chars f (s ++ t) = true -> all_chars f s = true.
Proof.
  induction s as [| c rest IH]; simpl; [reflexivity|].
  intros H. apply andb_true_iff in H. destruct H as [Hc Hrest].
  rewrite Hc. now apply IH.
Qed.

Lemma ends_plainly_tail c rest : ends_plainly (String c rest) -> ends_plainly rest.
Proof.
  unfold ends_plainly. simpl. destruct (last_char rest); auto.
Qed.

Lemma ends_plainly_not_numeric s :
  ends_plainly s -> all_chars numeric_char s = true -> s = EmptyString.
Proof.
  unfold ends_plainly. intros Hplain Hall. apply all_chars_last in Hall.
  destruct (last_char s); [congruence | exact Hall].
Qed.

(** A key that ends plainly can be read back from an id: the id splits in one
    way only into such a key and the spelling of a number. *)
Lemma composite_id_splits_once categoryId : forall categoryId' digits digits',
  ends_plainly categoryId -> ends_plainly categoryId' ->
  all_chars numeric_char digits = true -> all_chars numeric_char digits' = true ->
  (categoryId ++ digits)%string = (categoryId' ++ digits')%string ->
  categoryId = categoryId' /\ digits = digits'.
Proof.
  induction categoryId as [| c rest IH]; intros [| c' rest'] digits digits' Hp Hp' Hd Hd' Heq;
    simpl in Heq.
  - auto.
  - exfalso. rewrite Heq in Hd.
    change (String c' (rest' ++ digits')) with (String c' rest' ++ digits')%string in Hd.
    apply all_chars_append in Hd.
    now pose proof (ends_plainly_not_numeric _ Hp' Hd).
  - exfalso. rewrite <- Heq in Hd'.
    change (String c (rest ++ digits)) with (String c rest ++ digits)%string in Hd'.
    apply all_chars_append in Hd'.
    now pose proof (ends_plainly_not_numeric _ Hp Hd').
  - injection Heq as -> Heq.
    destruct (IH rest' digits digits' (ends_plainly_tail _ _ Hp) (ends_plainly_tail _ _ Hp')
                Hd Hd' Heq) as [-> ->].
    auto.
Qed.

Lemma cleanSourceId_splits_once categoryId categoryId' n n' :
  ends_plainly categoryId -> ends_plainly categoryId' ->
  safe_integer n -> safe_integer n' ->
  (categoryId ++ numberToString n)%string = (categoryId' ++ numberToString n')%string ->
  categoryId = categoryId' /\ n = n'.
Proof.
  intros Hp Hp' Hn Hn' Heq.
  destruct (composite_id_splits_once _ _ _ _ Hp Hp'
              (numberToString_numeric n Hn) (numberToString_numeric n' Hn') Heq) as [-> Hsame].
  split; [reflexivity | now apply numberToString_inj].
Qed.

Lemma well_keyed_tail entry rest : well_keyed (entry :: rest) -> well_keyed rest.
Proof.
  intros (Hkeys & Hplain & Hnumbers). split; [|split].
  - now inversion Hkeys.
  - intros categoryId c Hin. apply (Hplain categoryId c). now right.
  - intros categoryId c cleanPrompts Hin. apply (Hnumbers categoryId c). now right.
Qed.

Lemma well_keyed_source entries categoryId c cleanPrompt :
  well_keyed entries ->
  In (categoryId, c, cleanPrompt) (cleanSources entries) ->
  ends_plainly categoryId /\ safe_integer (CleanPrompt.id cleanPrompt).
Proof.
  intros (_ & Hplain & Hnumbers) Hin.
  apply in_cleanSources in Hin. destruct Hin as (Hentry & cleanPrompts & Hprompts & Hin).
  split; [now apply (Hplain categoryId c)|].
  now apply (Hnumbers categoryId c cleanPrompts Hentry Hprompts).
Qed.

Lemma well_keyed_sources entries :
  well_keyed entries -> NoDup (map cleanSourceId (cleanSources entries)).
Proof.
  induction entries as [| [categoryId c] rest IH]; intros Hwell; [constructor|].
  pose proof (IH (well_keyed_tail _ _ Hwell)) as Hrest.
  pose proof (fun k c' cp => well_keyed_source rest k c' cp (well_keyed_tail _ _ Hwell))
    as Hlater.
  destruct Hwell as (Hkeys & Hplain & Hnumbers).
  pose proof (Hplain categoryId c (or_introl eq_refl)) as Hkey.
  change (cleanSources ((categoryId, c) :: rest))
    with (match CleanCategory.prompts c with
          | Some cleanPrompts => map (fun cleanPrompt => (categoryId, c, cleanPrompt)) cleanPrompts
          | None => []
          end ++ cleanSources rest).
  rewrite map_app. apply NoDup_app; [| exact Hrest |].
  - destruct (CleanCategory.prompts c) as [cleanPrompts|] eqn:E; [|constructor].
    destruct (Hnumbers categoryId c cleanPrompts (or_introl eq_refl) E) as [Hnd Hsafe].
    rewrite map_map. unfold cleanSourceId. simpl.
    clear E. induction cleanPrompts as [| cleanPrompt more IHmore]; [constructor|].
    simpl in *. inversion Hnd as [| ? ? Hnotin Hmore]; subst.
    constructor; [|apply IHmore; auto].
    intros Hin. apply in_map_iff in Hin. destruct Hin as (other & Hsame & Hother).
    apply Hnotin.
    destruct (cleanSourceId_splits_once categoryId categoryId _ _ Hkey Hkey
                (Hsafe other (or_intror Hother)) (Hsafe cleanPrompt (or_introl eq_refl))
                Hsame) as [_ Hn].
    rewrite <- Hn. now apply in_map.
  - intros wanted Hfirst Hsecond.
    apply in_map_iff in Hfirst. destruct Hfirst as ([[k1 c1] p1] & Hid1 & Hin1).
    apply in_map_iff in Hsecond. destruct Hsecond as ([[k2 c2] p2] & Hid2 & Hin2).
    assert (Hfirst : k1 = categoryId /\ safe_integer (CleanPrompt.id p1)).
    { destruct (CleanCategory.prompts c) as [cleanPrompts|] eqn:E; [|destruct Hin1].
      destruct (Hnumbers categoryId c cleanPrompts (or_introl eq_refl) E) as [_ Hsafe].
      apply in_map_iff in Hin1. destruct Hin1 as (cleanPrompt & Hpair & Hin1).
      injection Hpair as <- _ <-. auto. }
    destruct Hfirst as [-> Hsafe1].
    destruct (Hlater _ _ _ Hin2) as [Hkey2 Hsafe2].
    apply in_cleanSources in Hin2. destruct Hin2 as (Hentry & _).
    unfold cleanSourceId in Hid1, Hid2. simpl in Hid1, Hid2.
    destruct (cleanSourceId_splits_once categoryId k2 _ _ Hkey Hkey2 Hsafe1 Hsafe2
                (eq_trans Hid1 (eq_sym Hid2))) as [<- _].
    inversion Hkeys as [| ? ? Hnotin _]; subst. apply Hnotin.
    unfold obj_keys. change categoryId with (fst (categoryId, c2)). now apply in_map.
Qed.

(** X28.  In a clean document whose category keys are pairwise distinct and
    end in neither a digit nor a minus sign, and whose prompts are numbered
    with integers of magnitude below [2^53], without repetition inside each
    category, the reconstructed ids are pairwise distinct: two prompts of the
    catalogue with one id are one prompt, and [findPromptById] at the id of a
    prompt of the catalogue returns that prompt, in every language. *)
Theorem well_keyed_document_has_distinct_ids
    (yaml_load : string -> Outcome YamlDocument) (yamlText language : string)
    (entries : JsObject CleanCategory.t) (rest : option (list MultilingualPrompt.t))
    (g : CategoryGroup) :
  yaml_load yamlText = Return (YamlUnified (CategoriesObject entries) rest) ->
  loadPromptsFromCleanStructure yaml_load yamlText language = Return g ->
  well_keyed entries ->
  NoDup (map id (allPromptsOf g))
  /\ (forall p q, In p (allPromptsOf g) -> In q (allPromptsOf g) -> id p = id q -> p = q)
  /\ (forall p, In p (allPromptsOf g) -> findPromptById g (id p) = Some p).
Proof.
  intros Hload Hrun Hwell.
  assert (Hnd : NoDup (map id (allPromptsOf g))).
  { destruct (loadPromptsFromCleanStructure_Return _ _ _ _ Hrun)
      as [(entries' & rest' & Hload' & Hgroup) | (items & rest' & Hload' & _)];
      rewrite Hload in Hload'; [injection Hload' as <- <- | discriminate].
    destruct (groupPrompts_spec _ _ Hgroup) as [_ Hperm].
    apply (NoDup_map_Permutation id _ _ Hperm).
    rewrite clean_emitted.
    apply (NoDup_ids_of_sources cleanSourceId); [|now apply well_keyed_sources].
    intros s p Hp. now apply cleanPromptToPrompt_id in Hp. }
  split; [exact Hnd|]. split.
  - intros p q Hp Hq Hsame. now apply (NoDup_map_injective id (allPromptsOf g)).
  - intros p Hp. now apply findPromptById_unique.
Qed.

(** The sample clean file, read in German: keys [B] and [G], prompts 1 and 2
    under [B]. *)
Lemma well_keyed_document_has_distinct_ids_witness :
  well_keyed cleanEntries
  /\ NoDup (map id (allPromptsOf germanCatalogue))
  /\ findPromptById germanCatalogue "B2"
     = Some {| id := "B2"; category := "Biografie";
               prompt := "Name a mentor."; purpose := "Practise gratitude." |}.
Proof.
  assert (Hwell : well_keyed cleanEntries).
  { split; [|split].
    - vm_compute. repeat constructor; simpl; intuition discriminate.
    - intros categoryId c [H | [H | []]]; injection H as <- _; reflexivity.
    - intros categoryId c cleanPrompts [H | [H | []]] E; injection H as <- <-;
        vm_compute in E; injection E as <-;
        (split; [vm_compute; repeat constructor; simpl; intuition discriminate|]);
        intros cleanPrompt Hin; simpl in Hin;
        repeat (destruct Hin as [<- | Hin]; [reflexivity|]); destruct Hin. }
  destruct (well_keyed_document_has_distinct_ids sampleParser cleanText "DE"
              cleanEntries None germanCatalogue eq_refl eq_refl Hwell) as (Hnd & _ & Hfind).
  split; [exact Hwell|]. split; [exact Hnd|].
  apply (Hfind {| id := "B2"; category := "Biografie";
                  prompt := "Name a mentor."; purpose := "Practise gratitude." |}).
  vm_compute. auto.
Defined.

Lemma numbered_apart_sources multiPrompts :
  numbered_apart multiPrompts -> NoDup (map nestedSourceId multiPrompts).
Proof.
  intros [Hnd Hplain].
  induction multiPrompts as [| multiPrompt more IH]; [constructor|].
  simpl in *. inversion Hnd as [| ? ? Hnotin Hmore]; subst.
  constructor; [|apply IH; auto].
  intros Hin. apply in_map_iff in Hin. destruct Hin as (other & Hsame & Hother).
  apply Hnotin. unfold nestedSourceId in Hsame.
  destruct (Hplain other (or_intror Hother)) as [Hkey Hsafe].
  destruct (Hplain multiPrompt (or_introl eq_refl)) as [Hkey' Hsafe'].
  destruct (cleanSourceId_splits_once _ _ _ _ Hkey Hkey' Hsafe Hsafe' Hsame)
    as [Hcategory Hnumber].
  rewrite <- Hcategory, <- Hnumber.
  now apply (in_map (fun multiPrompt =>
                       (MultilingualPrompt.category_id multiPrompt,
                        MultilingualPrompt.id multiPrompt))).
Qed.

(** X29.  In a nested document whose prompts carry category ids that end in
    neither a digit nor a minus sign and numbers of magnitude below [2^53],
    and in which no category id comes twice with one number, the
    reconstructed ids are pairwise distinct: two prompts of the catalogue
    with one id are one prompt, and [findPromptById] at the id of a prompt of
    the catalogue returns that prompt. *)
Theorem numbered_apart_document_has_distinct_ids
    (yaml_load : string -> Outcome YamlDocument) (yamlText language : string)
    (categories : list Category.t) (multiPrompts : list MultilingualPrompt.t)
    (g : CategoryGroup) :
  yaml_load yamlText = Return (YamlUnified (CategoriesArray categories) (Some multiPrompts)) ->
  loadPromptsFromNestedStructure yaml_load yamlText language = Return g ->
  numbered_apart multiPrompts ->
  NoDup (map id (allPromptsOf g))
  /\ (forall p q, In p (allPromptsOf g) -> In q (allPromptsOf g) -> id p = id q -> p = q)
  /\ (forall p, In p (allPromptsOf g) -> findPromptById g (id p) = Some p).
Proof.
  intros Hload Hrun Hapart.
  assert (Hnd : NoDup (map id (allPromptsOf g))).
  { destruct (loadPromptsFromNestedStructure_Return _ _ _ _ Hrun)
      as (categories' & multiPrompts' & Hload' & Hgroup).
    rewrite Hload in Hload'. injection Hload' as <- <-.
    destruct (groupPrompts_spec _ _ Hgroup) as [_ Hperm].
    apply (NoDup_map_Permutation id _ _ Hperm).
    apply (NoDup_ids_of_sources nestedSourceId); [|now apply numbered_apart_sources].
    intros s p Hp. now apply nestedPromptToPrompt_id in Hp. }
  split; [exact Hnd|]. split.
  - intros p q Hp Hq Hsame. now apply (NoDup_map_injective id (allPromptsOf g)).
  - intros p Hp. now apply findPromptById_unique.
Qed.

(** The sample nested file, read in English: prompts 1 and 2 of category
    [B]. *)
Lemma numbered_apart_document_has_distinct_ids_witness :
  numbered_apart nestedPrompts
  /\ exists g,
       loadPromptsFromNestedStructure sampleParser nestedText "EN" = Return g
       /\ NoDup (map id (allPromptsOf g))
       /\ map id (allPromptsOf g) = ["B1"; "B2"].
Proof.
  assert (Hapart : numbered_apart nestedPrompts).
  { split.
    - vm_compute. repeat constructor; simpl; intuition discriminate.
    - intros multiPrompt [<- | [<- | []]]; split; reflexivity. }
  split; [exact Hapart|].
  eexists. split; [vm_compute; reflexivity|].
  split; [|reflexivity].
  refine (proj1 (numbered_apart_document_has_distinct_ids sampleParser nestedText "EN"
                   nestedCategories nestedPrompts _ eq_refl eq_refl Hapart)).
Defined.
